(** * ArgumentParser v0.3.0 (include/argparse/argparse.hpp): a shallow embedding

    The header is embedded function by function.  Strings are [string],
    [std::vector] is [list], [std::map<std::string, ArgumentValue>] is
    [gmap string ArgumentValue], [uint32_t] is [N] (its wrap-around is written
    out where the source increments one), [size_t] is [nat] (every [size_t]
    of the parser is an index into, or a size of, a vector).

    What the embedding leaves out: the text written to [std::cout] and
    [std::cerr] (usage and help layout), and the sub-parser group, which only
    the help formatter reads. *)

From Stdlib Require Import String Ascii NArith.
From stdpp Require Import base tactics option list gmap strings fin_maps pretty sorting relations.

Local Set Warnings "-register-all,-clear-no-such-hyp".

Local Open Scope N_scope.
Local Open Scope nat_scope.

(** ** namespace detail *)

Module detail.

(** [isspace] in the "C" locale: space, \t, \n, \v, \f, \r. *)
Definition isspace (c : ascii) : bool :=
  let n := nat_of_ascii c in
  (n =? 32) || ((9 <=? n) && (n <=? 13)).

Fixpoint _ltrim (s : string) : string :=
  match s with
  | EmptyString => EmptyString
  | String c s' => if isspace c then _ltrim s' else s
  end.

Fixpoint _rtrim (s : string) : string :=
  match s with
  | EmptyString => EmptyString
  | String c s' =>
      match _rtrim s' with
      | EmptyString => if isspace c then EmptyString else String c EmptyString
      | r => String c r
      end
  end.

Definition _trim_copy (s : string) : string := _rtrim (_ltrim s).

(** [s.front()]; on the empty string this is [s[0]], the terminating NUL. *)
Definition front (s : string) : ascii :=
  match s with
  | EmptyString => zero
  | String c _ => c
  end.

Fixpoint back (s : string) : ascii :=
  match s with
  | EmptyString => zero
  | String c EmptyString => c
  | String _ s' => back s'
  end.

Definition quote : ascii := ascii_of_nat 39.
Definition dquote : ascii := ascii_of_nat 34.

Definition _remove_quotes (s : string) : string :=
  if (1 <? String.length s)
     && bool_decide (front s = back s)
     && (bool_decide (front s = quote) || bool_decide (front s = dquote))
  then substring 1 (String.length s - 2) s
  else s.

(** [s.find(c)]: the position of the first [c], if any. *)
Fixpoint find (c : ascii) (s : string) : option nat :=
  match s with
  | EmptyString => None
  | String c' s' => if bool_decide (c' = c) then Some 0 else S <$> find c s'
  end.

(** [s.substr(pos)] for [pos <= s.size()]. *)
Fixpoint substr (pos : nat) (s : string) : string :=
  match pos, s with
  | 0, _ => s
  | S pos', String _ s' => substr pos' s'
  | S _, EmptyString => EmptyString
  end.

Definition _split_equal (s : string) : list string :=
  match find "=" s with
  | Some pos => [substring 0 pos s; substr (pos + 1) s]
  | None => [s]
  end.

(** [str.compare(0, pattern.size(), pattern) == 0]. *)
Definition _starts_with (str pattern : string) : bool := String.prefix pattern str.

Definition _is_value_exists (value : string) (vec : list string) : bool :=
  bool_decide (value ∈ vec).

Fixpoint _is_string_contains_char (str : string) (c : ascii) : bool :=
  match str with
  | EmptyString => false
  | String c' str' => bool_decide (c' = c) || _is_string_contains_char str' c
  end.

Definition _is_optional_argument (arg prefix_chars : string) : bool :=
  _is_string_contains_char prefix_chars (front arg).

Fixpoint erase_leading (prefix : ascii) (str : string) : string :=
  match str with
  | EmptyString => EmptyString
  | String c str' => if bool_decide (c = prefix) then erase_leading prefix str' else str
  end.

Definition _flag_name (str : string) : string := erase_leading (front str) str.

Definition _vector_string_to_string (vec : list string) (separator quotes : string) : string :=
  foldl (fun res el =>
           (if bool_decide (res = EmptyString) then res else res +:+ separator)
             +:+ quotes +:+ el +:+ quotes)
        EmptyString vec.

End detail.
Import detail.

(** ** Action, Enum and the exception classes *)

Module Action.
Inductive Action :=
  | store | store_const | store_true | store_false | append
  | append_const | count | help | version | extend.
End Action.
Export Action.

Definition Action_value (a : Action) : N :=
  match a with
  | store => 0x1 | store_const => 0x2 | store_true => 0x4 | store_false => 0x8
  | append => 0x10 | append_const => 0x20 | count => 0x40 | help => 0x80
  | version => 0x100 | extend => 0x200
  end%N.

(** [a & (x | y | ...)] as the source writes it on the enumerators. *)
Definition action_mask (l : list Action) : N :=
  foldr (fun a m => N.lor (Action_value a) m) 0%N l.

Definition action_in (a : Action) (l : list Action) : bool :=
  negb (N.land (Action_value a) (action_mask l) =? 0)%N.

Inductive Enum := NONE | SUPPRESS.

(** The exception classes.  [std_logic_error] is what [handle_error] throws
    (a plain [std::logic_error]); each constructor carries the constructor
    argument of the class, [what] adds the prefix of the class. *)
Inductive exn :=
  | std_logic_error (error : string)
  | std_out_of_range (error : string)
  | ArgumentError (error : string)
  | AttributeError (error : string)
  | ValueError (error : string)
  | IndexError (error : string)
  | TypeError (error : string).

Definition what (e : exn) : string :=
  match e with
  | std_logic_error error | std_out_of_range error => error
  | ArgumentError error => "argparse.ArgumentError: " +:+ error
  | AttributeError error => "AttributeError: " +:+ error
  | ValueError error => "ValueError: " +:+ error
  | IndexError error => "IndexError: " +:+ error
  | TypeError error => "TypeError: " +:+ error
  end.

#[global] Instance Action_eq_dec : EqDecision Action.
Proof. solve_decision. Defined.
#[global] Instance Enum_eq_dec : EqDecision Enum.
Proof. solve_decision. Defined.
#[global] Instance exn_eq_dec : EqDecision exn.
Proof. solve_decision. Defined.

(** ** class Argument *)

Inductive ArgumentType := Positional | Optional.

#[global] Instance ArgumentType_eq_dec : EqDecision ArgumentType.
Proof. solve_decision. Defined.

(** [m_callback] is a [std::function<void()>]: the host's callbacks are
    identified by a number, [None] is the empty function. *)
Record Argument := mkArgument {
  m_flags : list string;
  m_name : string;
  m_type : ArgumentType;
  m_action : Action;
  m_nargs : string;
  m_num_args : N;
  m_const : string;
  m_default : string;
  m_choices : list string;
  m_required : bool;
  m_help : string;
  m_help_type : Enum;
  m_metavar : string;
  m_dest : string;
  m_version : string;
  m_callback : option nat;
}.

#[global] Instance Argument_eq_dec : EqDecision Argument.
Proof. solve_decision. Defined.

Definition Argument_new (flags : list string) (name : string) (type : ArgumentType) : Argument :=
  {| m_flags := flags; m_name := name; m_type := type; m_action := store;
     m_nargs := EmptyString; m_num_args := 0; m_const := EmptyString;
     m_default := EmptyString; m_choices := []; m_required := false;
     m_help := EmptyString; m_help_type := NONE; m_metavar := EmptyString;
     m_dest := EmptyString; m_version := EmptyString; m_callback := None |}.

Definition set_action v a := mkArgument (m_flags a) (m_name a) (m_type a) v (m_nargs a) (m_num_args a) (m_const a) (m_default a) (m_choices a) (m_required a) (m_help a) (m_help_type a) (m_metavar a) (m_dest a) (m_version a) (m_callback a).
Definition set_nargs v n a := mkArgument (m_flags a) (m_name a) (m_type a) (m_action a) v n (m_const a) (m_default a) (m_choices a) (m_required a) (m_help a) (m_help_type a) (m_metavar a) (m_dest a) (m_version a) (m_callback a).
Definition set_const v a := mkArgument (m_flags a) (m_name a) (m_type a) (m_action a) (m_nargs a) (m_num_args a) v (m_default a) (m_choices a) (m_required a) (m_help a) (m_help_type a) (m_metavar a) (m_dest a) (m_version a) (m_callback a).
Definition set_default v a := mkArgument (m_flags a) (m_name a) (m_type a) (m_action a) (m_nargs a) (m_num_args a) (m_const a) v (m_choices a) (m_required a) (m_help a) (m_help_type a) (m_metavar a) (m_dest a) (m_version a) (m_callback a).
Definition set_choices v a := mkArgument (m_flags a) (m_name a) (m_type a) (m_action a) (m_nargs a) (m_num_args a) (m_const a) (m_default a) v (m_required a) (m_help a) (m_help_type a) (m_metavar a) (m_dest a) (m_version a) (m_callback a).
Definition set_required v a := mkArgument (m_flags a) (m_name a) (m_type a) (m_action a) (m_nargs a) (m_num_args a) (m_const a) (m_default a) (m_choices a) v (m_help a) (m_help_type a) (m_metavar a) (m_dest a) (m_version a) (m_callback a).
Definition set_help v a := mkArgument (m_flags a) (m_name a) (m_type a) (m_action a) (m_nargs a) (m_num_args a) (m_const a) (m_default a) (m_choices a) (m_required a) v (m_help_type a) (m_metavar a) (m_dest a) (m_version a) (m_callback a).
Definition set_help_type v a := mkArgument (m_flags a) (m_name a) (m_type a) (m_action a) (m_nargs a) (m_num_args a) (m_const a) (m_default a) (m_choices a) (m_required a) (m_help a) v (m_metavar a) (m_dest a) (m_version a) (m_callback a).
Definition set_metavar v a := mkArgument (m_flags a) (m_name a) (m_type a) (m_action a) (m_nargs a) (m_num_args a) (m_const a) (m_default a) (m_choices a) (m_required a) (m_help a) (m_help_type a) v (m_dest a) (m_version a) (m_callback a).
Definition set_dest v a := mkArgument (m_flags a) (m_name a) (m_type a) (m_action a) (m_nargs a) (m_num_args a) (m_const a) (m_default a) (m_choices a) (m_required a) (m_help a) (m_help_type a) (m_metavar a) v (m_version a) (m_callback a).
Definition set_version v a := mkArgument (m_flags a) (m_name a) (m_type a) (m_action a) (m_nargs a) (m_num_args a) (m_const a) (m_default a) (m_choices a) (m_required a) (m_help a) (m_help_type a) (m_metavar a) (m_dest a) v (m_callback a).
Definition set_callback v a := mkArgument (m_flags a) (m_name a) (m_type a) (m_action a) (m_nargs a) (m_num_args a) (m_const a) (m_default a) (m_choices a) (m_required a) (m_help a) (m_help_type a) (m_metavar a) (m_dest a) (m_version a) v.

(** A builder method mutates the object and returns [*this], or throws; the
    object it leaves behind when it throws is kept. *)
Inductive built :=
  | Built (self : Argument)
  | Failed (e : exn) (self : Argument).

Definition and_then (b : built) (method : Argument -> built) : built :=
  match b with
  | Built self => method self
  | Failed e self => Failed e self
  end.

Module Argument.

(** [Argument& action(Action value)].  The [default:] label of the switch
    is not reachable from an enumerator. *)
Definition action (value : Action) (self : Argument) : built :=
  let self := if bool_decide (m_action self <> store_true) then set_callback None self else self in
  let self := if bool_decide (m_action self = version) then set_help EmptyString self else self in
  let zero_args (self : Argument) := set_choices [] (set_nargs "0" 0%N self) in
  let help_or_version (self : Argument) :=
    if bool_decide (m_type self = Positional)
    then Failed (TypeError "got an unexpected keyword argument 'required'") self
    else Built (set_action value (zero_args self)) in
  match value with
  | store_true =>
      Built (set_action value (zero_args (set_const "1" (set_default "0" self))))
  | store_false =>
      Built (set_action value (zero_args (set_const "0" (set_default "1" self))))
  | version =>
      help_or_version (set_help "show program's version number and exit" self)
  | help => help_or_version self
  | store_const | append_const | count =>
      Built (set_action value (zero_args self))
  | store | append | extend =>
      Built (set_action value
               (if bool_decide (m_nargs self = "0")
                then set_nargs EmptyString (m_num_args self) self else self))
  end.

(** [Argument& action(std::string const& value)]. *)
Definition action_named (value : string) (self : Argument) : built :=
  if bool_decide (value = "store") then action store self
  else if bool_decide (value = "store_const") then action store_const self
  else if bool_decide (value = "store_true") then action store_true self
  else if bool_decide (value = "store_false") then action store_false self
  else if bool_decide (value = "append") then action append self
  else if bool_decide (value = "append_const") then action append_const self
  else if bool_decide (value = "count") then action count self
  else if bool_decide (value = "help") then action help self
  else if bool_decide (value = "version") then action version self
  else if bool_decide (value = "extend") then action extend self
  else Failed (ValueError ("unknown action '" +:+ value +:+ "'")) self.

(** [Argument& nargs(uint32_t value)]: the parameter holds the number it is
    given modulo [2^32]. *)
Definition nargs_num (value : N) (self : Argument) : built :=
  let value := (value mod 2 ^ 32)%N in
  match m_action self with
  | store_const | store_true | store_false | append_const | help | version | count =>
      Failed (TypeError "got an unexpected keyword argument 'nargs'") self
  | store =>
      if (value =? 0)%N
      then Failed (ValueError ("nargs for store actions must be != 0; "
             +:+ "if you have nothing to store, actions such as "
             +:+ "store true or store const may be more appropriate")) self
      else Built (set_nargs (pretty value) value self)
  | append | extend =>
      if (value =? 0)%N
      then Failed (ValueError ("nargs for append actions must be != 0; "
             +:+ "if arg strings are not supplying the value to append, "
             +:+ "the append const action may be more appropriate")) self
      else Built (set_nargs (pretty value) value self)
  end.

(** [Argument& nargs(std::string const& value)]. *)
Definition nargs (value : string) (self : Argument) : built :=
  if negb (action_in (m_action self) [store; append; extend])
  then Failed (TypeError "got an unexpected keyword argument 'nargs'") self
  else
    let param := _trim_copy value in
    if negb (_is_value_exists param ["?"; "*"; "+"])
    then Failed (ValueError ("invalid nargs value '" +:+ param +:+ "'")) self
    else Built (set_nargs param 0%N self).

Definition const_value (value : string) (self : Argument) : built :=
  if action_in (m_action self) [store_const; append_const]
     || (bool_decide (m_type self = Optional) && bool_decide (m_nargs self = "?")
         && action_in (m_action self) [store; append; extend])
  then Built (set_const (_trim_copy value) self)
  else if bool_decide (m_type self = Optional) && negb (bool_decide (m_nargs self = "?"))
          && action_in (m_action self) [store; append; extend]
  then Failed (ValueError "nargs must be '?' to supply const") self
  else Failed (TypeError "got an unexpected keyword argument 'const'") self.

Definition default_value (value : string) (self : Argument) : built :=
  if negb (action_in (m_action self) [store_true; store_false])
  then Built (set_default (_trim_copy value) self)
  else Built self.

Definition choices (value : list string) (self : Argument) : built :=
  if negb (action_in (m_action self) [store; append; extend])
  then Failed (TypeError "got an unexpected keyword argument 'choices'") self
  else Built (set_choices
                (List.filter (fun param => negb (bool_decide (param = EmptyString)))
                             (_trim_copy <$> value)) self).

Definition required (value : bool) (self : Argument) : built :=
  if bool_decide (m_type self = Positional)
  then Failed (TypeError "'required' is an invalid argument for positionals") self
  else Built (set_required value self).

Definition help (value : string) (self : Argument) : built :=
  Built (set_help_type NONE (set_help (_trim_copy value) self)).

Definition help_suppress (value : Enum) (self : Argument) : built :=
  if bool_decide (value <> SUPPRESS)
  then Failed (TypeError "got an unexpected keyword argument 'help'") self
  else Built (set_help_type value self).

Definition metavar (value : string) (self : Argument) : built :=
  Built (set_metavar (_trim_copy value) self).

Definition dest (value : string) (self : Argument) : built :=
  if bool_decide (m_type self = Positional)
  then Failed (ValueError "dest supplied twice for positional argument") self
  else Built (set_dest (_trim_copy value) self).

Definition version (value : string) (self : Argument) : built :=
  if bool_decide (m_action self = Action.version)
  then Built (set_version (_trim_copy value) self)
  else Failed (TypeError "got an unexpected keyword argument 'version'") self.

Definition callback (func : nat) (self : Argument) : built :=
  if bool_decide (m_action self = store_true)
  then Built (set_callback (Some func) self)
  else Failed (TypeError "got an unexpected keyword argument 'callback'") self.

End Argument.

(** ** Outcomes of a call

    A call returns, throws, leaves the process through [exit(status)], or has
    undefined behaviour ([front()] or [back()] of an empty vector, a null
    pointer dereferenced). *)

Inductive outcome (A : Type) :=
  | Return (a : A)
  | Throw (e : exn)
  | Exit (status : N)
  | Undefined.
Arguments Return {A} a.
Arguments Throw {A} e.
Arguments Exit {A} status.
Arguments Undefined {A}.

#[global] Instance outcome_ret : MRet outcome := @Return.
#[global] Instance outcome_bind : MBind outcome := fun A B f m =>
  match m with
  | Return a => f a
  | Throw e => Throw e
  | Exit status => Exit status
  | Undefined => Undefined
  end.

(** [for (auto const& x : l) body(x)] on a state [s]. *)
Fixpoint for_each {A S : Type} (body : A -> S -> outcome S) (l : list A) (s : S) : outcome S :=
  match l with
  | [] => Return s
  | x :: l' => s' ← body x s; for_each body l' s'
  end.

(** [vec.front()] and [vec.back()]. *)
Definition vector_front {A : Type} (vec : list A) : outcome A :=
  match vec with
  | [] => Undefined
  | x :: _ => Return x
  end.

Definition vector_back {A : Type} (vec : list A) : outcome A :=
  match last vec with
  | None => Undefined
  | Some x => Return x
  end.

(** [vec.at(i)]. *)
Definition vector_at {A : Type} (vec : list A) (i : nat) : outcome A :=
  match vec !! i with
  | None => Throw (std_out_of_range "vector::_M_range_check")
  | Some x => Return x
  end.

(** ** class Namespace *)

Abbreviation ArgumentValue := (Action * list string)%type.

Module Namespace.

Record Namespace := mkNamespace {
  m_arguments : gmap string ArgumentValue;
  m_prefix_chars : string;
}.

(** [std::map] is iterated in the order of its keys, which [std::string]
    compares byte by byte. *)
Definition key_le (x y : string * ArgumentValue) : Prop := String.leb x.1 y.1 = true.
#[global] Instance key_le_dec : RelDecision key_le.
Proof. intros x y. unfold key_le. apply _. Defined.

Definition entries (self : Namespace) : list (string * ArgumentValue) :=
  merge_sort key_le (map_to_list (m_arguments self)).

Definition matches (self : Namespace) (key : string) (entry : string * ArgumentValue) : bool :=
  _is_optional_argument entry.1 (m_prefix_chars self)
  && bool_decide (_flag_name entry.1 = key).

Definition exists_ (self : Namespace) (key : string) : bool :=
  bool_decide (is_Some (m_arguments self !! key))
  || existsb (matches self key) (entries self).

Definition data (self : Namespace) (key : string) : outcome ArgumentValue :=
  match m_arguments self !! key with
  | Some args => Return args
  | None =>
      match List.find (matches self key) (entries self) with
      | Some entry => Return entry.2
      | None => Throw (AttributeError ("'Namespace' object has no attribute '" +:+ key +:+ "'"))
      end
  end.

(** [get<std::vector<std::string>>(key)]. *)
Definition get_strings (self : Namespace) (key : string) : outcome (list string) :=
  args ← data self key; Return (List.map _remove_quotes (snd args)).

End Namespace.
Abbreviation Namespace := Namespace.Namespace.

(** ** class ArgumentParser *)

Inductive ArgumentParser := mkArgumentParser {
  m_prog : string;
  m_usage : string;
  m_description : string;
  m_epilog : string;
  m_parents : list ArgumentParser;
  m_prefix_chars : string;
  m_fromfile_prefix_chars : string;
  m_argument_default : string;
  m_add_help : bool;
  m_allow_abbrev : bool;
  m_exit_on_error : bool;
  m_parsed_arguments : list string;
  m_arguments : list Argument;
  m_help_argument : Argument;
}.

Definition self_of (b : built) : Argument :=
  match b with
  | Built self | Failed _ self => self
  end.

Definition ArgumentParser_new (prog : string) : ArgumentParser :=
  {| m_prog := prog; m_usage := EmptyString; m_description := EmptyString;
     m_epilog := EmptyString; m_parents := []; m_prefix_chars := "-";
     m_fromfile_prefix_chars := EmptyString; m_argument_default := EmptyString;
     m_add_help := true; m_allow_abbrev := true; m_exit_on_error := true;
     m_parsed_arguments := []; m_arguments := [];
     m_help_argument :=
       self_of (and_then (Argument.help "show this help message and exit"
                            (Argument_new ["-h"; "--help"] "help" Optional))
                         (Argument.action store_true)) |}.

Definition set_arguments v p := mkArgumentParser (m_prog p) (m_usage p) (m_description p) (m_epilog p) (m_parents p) (m_prefix_chars p) (m_fromfile_prefix_chars p) (m_argument_default p) (m_add_help p) (m_allow_abbrev p) (m_exit_on_error p) (m_parsed_arguments p) v (m_help_argument p).
Definition set_parents v p := mkArgumentParser (m_prog p) (m_usage p) (m_description p) (m_epilog p) v (m_prefix_chars p) (m_fromfile_prefix_chars p) (m_argument_default p) (m_add_help p) (m_allow_abbrev p) (m_exit_on_error p) (m_parsed_arguments p) (m_arguments p) (m_help_argument p).
Definition set_prefix_chars v p := mkArgumentParser (m_prog p) (m_usage p) (m_description p) (m_epilog p) (m_parents p) v (m_fromfile_prefix_chars p) (m_argument_default p) (m_add_help p) (m_allow_abbrev p) (m_exit_on_error p) (m_parsed_arguments p) (m_arguments p) (m_help_argument p).
Definition set_fromfile_prefix_chars v p := mkArgumentParser (m_prog p) (m_usage p) (m_description p) (m_epilog p) (m_parents p) (m_prefix_chars p) v (m_argument_default p) (m_add_help p) (m_allow_abbrev p) (m_exit_on_error p) (m_parsed_arguments p) (m_arguments p) (m_help_argument p).
Definition set_argument_default v p := mkArgumentParser (m_prog p) (m_usage p) (m_description p) (m_epilog p) (m_parents p) (m_prefix_chars p) (m_fromfile_prefix_chars p) v (m_add_help p) (m_allow_abbrev p) (m_exit_on_error p) (m_parsed_arguments p) (m_arguments p) (m_help_argument p).
Definition set_add_help v p := mkArgumentParser (m_prog p) (m_usage p) (m_description p) (m_epilog p) (m_parents p) (m_prefix_chars p) (m_fromfile_prefix_chars p) (m_argument_default p) v (m_allow_abbrev p) (m_exit_on_error p) (m_parsed_arguments p) (m_arguments p) (m_help_argument p).
Definition set_allow_abbrev v p := mkArgumentParser (m_prog p) (m_usage p) (m_description p) (m_epilog p) (m_parents p) (m_prefix_chars p) (m_fromfile_prefix_chars p) (m_argument_default p) (m_add_help p) v (m_exit_on_error p) (m_parsed_arguments p) (m_arguments p) (m_help_argument p).
Definition set_exit_on_error v p := mkArgumentParser (m_prog p) (m_usage p) (m_description p) (m_epilog p) (m_parents p) (m_prefix_chars p) (m_fromfile_prefix_chars p) (m_argument_default p) (m_add_help p) (m_allow_abbrev p) v (m_parsed_arguments p) (m_arguments p) (m_help_argument p).

Module ArgumentParser.

Definition prefix_chars (param : string) (self : ArgumentParser) : ArgumentParser :=
  let value := _trim_copy param in
  if bool_decide (value = EmptyString) then self else set_prefix_chars value self.

Definition fromfile_prefix_chars (param : string) (self : ArgumentParser) : ArgumentParser :=
  set_fromfile_prefix_chars (_trim_copy param) self.

Definition argument_default (param : string) (self : ArgumentParser) : ArgumentParser :=
  set_argument_default (_trim_copy param) self.

Definition parents (param : list ArgumentParser) (self : ArgumentParser) : ArgumentParser :=
  set_parents param self.

Definition add_help := set_add_help.
Definition allow_abbrev := set_allow_abbrev.
Definition exit_on_error := set_exit_on_error.

(** The lambda [_update_flag_name] of [add_argument], on its two captured
    variables. *)
Definition _update_flag_name (arg : string) (st : string * nat) : string * nat :=
  let '(flag_name, prefixes) := st in
  let name := _flag_name arg in
  let count_prefixes := String.length arg - String.length name in
  if prefixes <? count_prefixes then (name, count_prefixes) else (flag_name, prefixes).

(** [Argument& add_argument(std::vector<std::string> flags)]: the new
    argument is [m_arguments.back()] of the parser returned. *)
Definition add_argument (flags : list string) (self : ArgumentParser) : outcome ArgumentParser :=
  match flags with
  | [] => Throw (ValueError "empty options")
  | flag0 :: others =>
      let flag0 := _trim_copy flag0 in
      let flags := flag0 :: others in
      if bool_decide (flag0 = EmptyString) then Throw (IndexError "string index out of range")
      else
        let is_optional := _is_optional_argument flag0 (m_prefix_chars self) in
        if negb is_optional && (1 <? length flags)
        then Throw (ValueError ("invalid option string " +:+ flag0
               +:+ ": must starts with a character '" +:+ m_prefix_chars self +:+ "'"))
        else
          let st0 := if is_optional then _update_flag_name flag0 (flag0, 0) else (flag0, 0) in
          st ← for_each (fun flag st =>
                   if bool_decide (flag = EmptyString)
                   then Throw (IndexError "string index out of range")
                   else if negb (_is_optional_argument flag (m_prefix_chars self))
                   then Throw (ValueError ("invalid option string " +:+ flag
                          +:+ ": must starts with a character '" +:+ m_prefix_chars self +:+ "'"))
                   else Return (_update_flag_name flag st))
                 others st0;
          Return (set_arguments
                    (m_arguments self
                       ++ [Argument_new flags st.1 (if is_optional then Optional else Positional)])
                    self)
  end.

(** The chain of builder calls on the reference [add_argument] returned,
    that is on [m_arguments.back()]. *)
Definition configure (methods : Argument -> built) (self : ArgumentParser) : outcome ArgumentParser :=
  match last (m_arguments self) with
  | None => Undefined
  | Some arg =>
      match methods arg with
      | Built arg' =>
          Return (set_arguments (removelast (m_arguments self) ++ [arg']) self)
      | Failed e _ => Throw e
      end
  end.

Fixpoint positional_arguments (add_suppress : bool) (self : ArgumentParser) : list Argument :=
  flat_map (positional_arguments add_suppress) (m_parents self)
  ++ List.filter (fun arg => bool_decide (m_type arg = Positional)
                             && (add_suppress || bool_decide (m_help_type arg <> SUPPRESS)))
                 (m_arguments self).

Fixpoint optional_arguments (add_suppress : bool) (self : ArgumentParser) : list Argument :=
  (if m_add_help self then [m_help_argument self] else [])
  ++ flat_map (optional_arguments add_suppress) (m_parents self)
  ++ List.filter (fun arg => bool_decide (m_type arg = Optional)
                             && (add_suppress || bool_decide (m_help_type arg <> SUPPRESS)))
                 (m_arguments self).

End ArgumentParser.
Import ArgumentParser.

(** ** parse_known_args: the state of one invocation

    [result], [positional_values], [unrecognized_args] and [pos] are the
    locals that the lambdas of [parse_known_args] capture by reference.
    [trace] is the history of the invocation, which no function of the
    embedding reads: the optional arguments matched in the token stream, the
    values [_store_value] stored for them, the tokens it stored for a
    positional slot, and the callbacks that ran. *)

Inductive event :=
  | Spec (arg : Argument)
  | Value (arg : Argument) (value : string)
  | Token (slot : nat) (value : string)
  | Called (func : nat).

#[global] Instance event_eq_dec : EqDecision event.
Proof. solve_decision. Defined.

Record parse_state := mkState {
  result : gmap string ArgumentValue;
  positional_values : list (list string);
  unrecognized_args : list string;
  pos : nat;
  trace : list event;
}.

Definition set_result v st := mkState v (positional_values st) (unrecognized_args st) (pos st) (trace st).
Definition set_positional_values v st := mkState (result st) v (unrecognized_args st) (pos st) (trace st).
Definition set_unrecognized_args v st := mkState (result st) (positional_values st) v (pos st) (trace st).
Definition set_pos v st := mkState (result st) (positional_values st) (unrecognized_args st) v (trace st).
Definition log (e : event) st := mkState (result st) (positional_values st) (unrecognized_args st) (pos st) (trace st ++ [e]).

(** [result.at(flag).second = g(result.at(flag).second)]. *)
Definition on_values (g : list string -> list string) (args : ArgumentValue) : ArgumentValue :=
  (args.1, g args.2).

Definition at_values (g : list string -> list string) (flag : string)
    (result : gmap string ArgumentValue) : outcome (gmap string ArgumentValue) :=
  match result !! flag with
  | Some _ => Return (alter (on_values g) flag result)
  | None => Throw (std_out_of_range "map::at")
  end.

Definition push_back (value : string) (values : list string) : list string := values ++ [value].
Definition clear (values : list string) : list string := [].
Definition push_back_if_empty (value : string) (values : list string) : list string :=
  match values with
  | [] => [value]
  | _ => values
  end.

Definition u32_succ (n : N) : N := ((n + 1) mod 2 ^ 32)%N.

Definition _get_argument_flags (arg : Argument) : list string :=
  if bool_decide (m_dest arg = EmptyString) then m_flags arg else [m_dest arg].

Definition _get_optional_arg_by_flag (optional : list Argument) (key : string) : option Argument :=
  List.find (fun arg => bool_decide (key ∈ m_flags arg)) optional.

Definition _get_optional_arg_by_dest (optional : list Argument) (key : string) : option Argument :=
  List.find (fun arg => (negb (bool_decide (m_dest arg = EmptyString)) && bool_decide (m_dest arg = key))
                        || bool_decide (key ∈ m_flags arg)) optional.

Section parse_known_args.

(** [detail::_is_negative_number] reads a [double] from a
    [std::stringstream]; the embedding takes what the stream decides as
    given.  [read_lines file] is the content of [file] line by line, or
    [None] when [std::ifstream] cannot open it. *)
Variable _is_negative_number : string -> bool.
Variable read_lines : string -> option (list string).
Variable self : ArgumentParser.

Definition handle_error {A : Type} (error : string) : outcome A :=
  Throw (std_logic_error (m_prog self +:+ ": error: " +:+ error)).

Definition convert_arg_line_to_args (file : string) : outcome (list string) :=
  match read_lines file with
  | None => handle_error ("[Errno 2] No such file or directory: '" +:+ file +:+ "'")
  | Some res => Return res
  end.

Definition expand_files (parsed_arguments : list string) : outcome (list string) :=
  if bool_decide (m_fromfile_prefix_chars self = EmptyString) then Return parsed_arguments
  else
    for_each (fun arg temp =>
                if _is_string_contains_char (m_fromfile_prefix_chars self) (front arg)
                then load_args ← convert_arg_line_to_args (substr 1 arg);
                     Return (temp ++ load_args)
                else Return (temp ++ [arg]))
             parsed_arguments [].

Definition _validate_arguments (arguments : list Argument) : outcome unit :=
  for_each (fun arg _ =>
              if action_in (m_action arg) [store_const; append_const]
                 && bool_decide (m_const arg = EmptyString)
              then Throw (TypeError "missing 1 required positional argument: 'const'")
              else Return tt)
           arguments tt.

Definition _validate_argument_value (arg : Argument) (value : string) : outcome unit :=
  let choices := m_choices arg in
  if bool_decide (choices = []) then Return tt
  else
    let str := _remove_quotes value in
    if _is_value_exists str choices then Return tt
    else
      let values := _vector_string_to_string choices ", " "'" in
      flag ← vector_front (m_flags arg);
      handle_error ("argument " +:+ flag +:+ ": invalid choice: '" +:+ str
                      +:+ "' (choose from " +:+ values +:+ ")").

Definition _create_result (arguments : list Argument)
    (result : gmap string ArgumentValue) : outcome (gmap string ArgumentValue) :=
  for_each (fun arg =>
              for_each (fun flag result =>
                          match result !! flag with
                          | None => Return (<[flag := (m_action arg, [])]> result)
                          | Some _ => Throw (ArgumentError ("argument " +:+ flag
                                               +:+ ": conflicting option string: " +:+ flag))
                          end)
                       (_get_argument_flags arg))
           arguments result.

Definition _is_negative_numbers_presented (optionals : list Argument) : bool :=
  if negb (_is_string_contains_char (m_prefix_chars self) "-") then false
  else existsb (fun arg => existsb _is_negative_number (m_flags arg)) optionals.

Definition positional : list Argument := positional_arguments true self.
Definition optional : list Argument := optional_arguments true self.
Definition have_negative_options : bool := _is_negative_numbers_presented optional.

(** The test both loops over followers make on [next]: it is a value, not
    an option. *)
Definition is_value (next : string) : bool :=
  negb (_is_optional_argument next (m_prefix_chars self))
  || (negb have_negative_options && _is_negative_number next).

(** *** The lambdas that store *)

Definition _store_value (arg : Argument) (value : string) (st : parse_state) : outcome parse_state :=
  _ ← _validate_argument_value arg value;
  result' ← for_each (at_values (push_back value)) (_get_argument_flags arg) (result st);
  Return (set_result result' st).

Definition _default_arg_value (arg : Argument) : string :=
  if bool_decide (m_default arg = EmptyString) then m_argument_default self else m_default arg.

Definition _store_default_value (arg : Argument) (st : parse_state) : outcome parse_state :=
  if bool_decide (m_action arg = store) then
    result' ← for_each (at_values (push_back_if_empty (_default_arg_value arg)))
                       (_get_argument_flags arg) (result st);
    Return (set_result result' st)
  else Return st.

Definition _store_const_value (arg : Argument) (st : parse_state) : outcome parse_state :=
  result' ← for_each (at_values (push_back_if_empty (m_const arg)))
                     (_get_argument_flags arg) (result st);
  Return (set_result result' st).

Definition _append_const_value (arg : Argument) (st : parse_state) : outcome parse_state :=
  result' ← for_each (fun flag result =>
                        if bool_decide (m_default arg = EmptyString)
                        then at_values (push_back (m_const arg)) flag result
                        else front_flag ← vector_front (m_flags arg);
                             handle_error ("argument " +:+ front_flag
                               +:+ ": ignored default value '" +:+ m_default arg +:+ "'"))
                     (_get_argument_flags arg) (result st);
  Return (set_result result' st).

Definition _store_count_value (arg : Argument) (st : parse_state) : outcome parse_state :=
  result' ← for_each (at_values (push_back EmptyString)) (_get_argument_flags arg) (result st);
  Return (set_result result' st).

Definition _is_positional_arg_stored (arg : Argument) (st : parse_state)
    : outcome (bool * parse_state) :=
  if action_in (m_action arg) [store_const; store_true; store_false]
  then st' ← _store_const_value arg st; Return (true, st')
  else if bool_decide (m_action arg = append_const)
  then st' ← _append_const_value arg st; Return (true, st')
  else if bool_decide (m_action arg = count)
  then st' ← _store_count_value arg st; Return (true, st')
  else Return (false, st).

(** [_store_positional_arguments(i)]: [arg] is [parsed_arguments.at(i)],
    [rest] the tokens after it; the tokens left are those after the [i] the
    lambda leaves behind. *)
Fixpoint positional_run (values rest : list string) : list string * list string :=
  match rest with
  | [] => (values, [])
  | next :: rest' =>
      if is_value next then positional_run (values ++ [next]) rest' else (values, rest)
  end.

Definition _store_positional_arguments (arg : string) (rest : list string) (st : parse_state)
    : parse_state * list string :=
  let '(values, rest') := positional_run [arg] rest in
  (set_positional_values (positional_values st ++ [values]) st, rest').

(** *** _match_args_partial *)

Definition take_token (slot : nat) (arg : Argument) (arguments : list string) (i : nat)
    (st : parse_state) : outcome parse_state :=
  value ← vector_at arguments i;
  st' ← _store_value arg value st;
  Return (log (Token slot value) st').

(** [for (n = 0; n < num_args; ++i, ++n) _store_value(arg, arguments.at(i))],
    and [while (over_args > 0) { ...; ++i; --over_args; }]. *)
Fixpoint take_tokens (slot : nat) (arg : Argument) (arguments : list string) (num_args : nat)
    (i : nat) (st : parse_state) : outcome (nat * parse_state) :=
  match num_args with
  | 0 => Return (i, st)
  | S num_args' =>
      st' ← take_token slot arg arguments i st;
      take_tokens slot arg arguments num_args' (S i) st'
  end.

(** The first loop: [finish], [min_args], [one_args] and [more_args] after
    it, [slots] being [positional] from [finish] on and [size] being
    [arguments.size()]. *)
Fixpoint scan_window (slots : list Argument) (size : nat)
    (finish min_args one_args : nat) (more_args : bool) : nat * nat * nat * bool :=
  match slots with
  | [] => (finish, min_args, one_args, more_args)
  | arg :: slots' =>
      if negb (action_in (m_action arg) [store; append; extend])
      then scan_window slots' size (S finish) min_args one_args more_args
      else
        let nargs := m_nargs arg in
        let '(min_amount, one_args, more_args) :=
          if bool_decide (nargs = EmptyString) then (1, one_args, more_args)
          else if bool_decide (nargs = "+") then (1, one_args, true)
          else if bool_decide (nargs = "?") then (0, S one_args, more_args)
          else if bool_decide (nargs = "*") then (0, one_args, true)
          else (N.to_nat (m_num_args arg), one_args, more_args) in
        if size <? min_args + min_amount
        then (finish, min_args, one_args, more_args)
        else scan_window slots' size (S finish) (min_args + min_amount) one_args more_args
  end.

(** [for ( ; pos < finish; ++pos) body(positional.at(pos))], the locals of
    the branch ([i], and [over_args] where there is one) being [locals]. *)
Fixpoint for_slots {L : Type} (body : nat -> Argument -> L -> parse_state -> outcome (L * parse_state))
    (slots : list Argument) (locals : L) (st : parse_state) : outcome (L * parse_state) :=
  match slots with
  | [] => Return (locals, st)
  | arg :: slots' =>
      '(locals', st') ← body (pos st) arg locals st;
      for_slots body slots' locals' (set_pos (S (pos st')) st')
  end.

Definition unless_stored {L : Type} (arg : Argument) (locals : L) (st : parse_state)
    (otherwise : parse_state -> outcome (L * parse_state)) : outcome (L * parse_state) :=
  '(stored, st') ← _is_positional_arg_stored arg st;
  if (stored : bool) then Return (locals, st') else otherwise st'.

(** [min_args == arguments.size()] *)
Definition exact_body (arguments : list string) (slot : nat) (arg : Argument)
    (i : nat) (st : parse_state) : outcome (nat * parse_state) :=
  unless_stored arg i st (fun st =>
    let nargs := m_nargs arg in
    if bool_decide (nargs = EmptyString) || bool_decide (nargs = "+")
    then st' ← take_token slot arg arguments i st; Return (S i, st')
    else if bool_decide (nargs = "?") || bool_decide (nargs = "*")
    then st' ← _store_default_value arg st; Return (i, st')
    else take_tokens slot arg arguments (N.to_nat (m_num_args arg)) i st).

(** [more_args] *)
Definition greedy_body (arguments : list string) (slot : nat) (arg : Argument)
    (locals : nat * nat) (st : parse_state) : outcome (nat * nat * parse_state) :=
  let '(i, over_args) := locals in
  unless_stored arg locals st (fun st =>
    let nargs := m_nargs arg in
    if bool_decide (nargs = EmptyString)
    then st' ← take_token slot arg arguments i st; Return (S i, over_args, st')
    else if bool_decide (nargs = "+")
    then st' ← take_token slot arg arguments i st;
         '(i', st'') ← take_tokens slot arg arguments over_args (S i) st';
         Return (i', 0, st'')
    else if bool_decide (nargs = "?")
    then st' ← _store_default_value arg st; Return (i, over_args, st')
    else if bool_decide (nargs = "*")
    then if 0 <? over_args
         then '(i', st') ← take_tokens slot arg arguments over_args i st;
              Return (i', 0, st')
         else st' ← _store_default_value arg st; Return (i, over_args, st')
    else '(i', st') ← take_tokens slot arg arguments (N.to_nat (m_num_args arg)) i st;
         Return (i', over_args, st')).

(** [min_args + one_args >= arguments.size()] *)
Definition one_body (arguments : list string) (one_args : nat) (slot : nat) (arg : Argument)
    (locals : nat * nat) (st : parse_state) : outcome (nat * nat * parse_state) :=
  let '(i, over_args) := locals in
  unless_stored arg locals st (fun st =>
    let nargs := m_nargs arg in
    if bool_decide (nargs = EmptyString)
    then st' ← take_token slot arg arguments i st; Return (S i, over_args, st')
    else if bool_decide (nargs = "?")
    then if over_args <? one_args
         then st' ← take_token slot arg arguments i st; Return (S i, S over_args, st')
         else st' ← _store_default_value arg st; Return (i, over_args, st')
    else '(i', st') ← take_tokens slot arg arguments (N.to_nat (m_num_args arg)) i st;
         Return (i', over_args, st')).

(** the last [else] *)
Definition rest_body (arguments : list string) (slot : nat) (arg : Argument)
    (i : nat) (st : parse_state) : outcome (nat * parse_state) :=
  unless_stored arg i st (fun st =>
    let nargs := m_nargs arg in
    if bool_decide (nargs = EmptyString)
    then st' ← take_token slot arg arguments i st; Return (S i, st')
    else
      let num_args := if bool_decide (nargs = "?") then 1 else N.to_nat (m_num_args arg) in
      take_tokens slot arg arguments num_args i st).

Definition unrecognize (arguments : list string) (st : parse_state) : parse_state :=
  set_unrecognized_args (unrecognized_args st ++ arguments) st.

Definition _match_args_partial (arguments : list string) (st : parse_state) : outcome parse_state :=
  if length positional <=? pos st then Return (unrecognize arguments st)
  else
    let size := length arguments in
    let '(finish, min_args, one_args, more_args) :=
      scan_window (drop (pos st) positional) size (pos st) 0 0 false in
    let slots := take (finish - pos st) (drop (pos st) positional) in
    if finish =? pos st then Return (unrecognize arguments st)
    else if min_args =? size then
      '(_, st') ← for_slots (exact_body arguments) slots 0 st; Return st'
    else if more_args then
      '(_, st') ← for_slots (greedy_body arguments) slots (0, size - min_args) st; Return st'
    else if size <=? min_args + one_args then
      '(_, st') ← for_slots (one_body arguments one_args) slots (0, min_args + one_args - size) st;
      Return st'
    else
      '(i, st') ← for_slots (rest_body arguments) slots 0 st;
      Return (unrecognize (drop i arguments) st').

(** *** _separate_arg_abbrev and _check_abbreviations *)

(** [flags.back() += str] *)
Definition append_to_back (flags : list string) (str : string) : outcome (list string) :=
  match last flags with
  | None => Undefined
  | Some flag => Return (removelast flags ++ [flag +:+ str])
  end.

(** The two loops over [optional] and over [opt.flags()] for one character:
    [flags] and [argument] after them. *)
Definition find_short (c : ascii) (flags : list string) : list string * option Argument :=
  foldl (fun '(flags, argument) opt =>
           match List.find (fun flag => (String.length flag =? 2) && bool_decide (back flag = c))
                           (m_flags opt) with
           | Some flag => (flags ++ [flag], Some opt)
           | None => (flags, argument)
           end)
        (flags, None) optional.

(** The loop over [name]: [name_i] is [name.substr(i)]. *)
Fixpoint separate_loop (arg name_i : string) (i : nat) (flags : list string)
    : outcome (list string) :=
  match name_i with
  | EmptyString => Return flags
  | String c tail =>
      if bool_decide (c = "="%char) then
        if bool_decide (flags = []) then Return [name_i] else append_to_back flags name_i
      else
        let '(flags, argument) := find_short c flags in
        if length flags =? i then
          if bool_decide (flags = []) then Return [arg]
          else
            flags ← (if _starts_with name_i "=" then Return flags else append_to_back flags "=");
            append_to_back flags name_i
        else
          match argument with
          | None => Undefined
          | Some argument =>
              if action_in (m_action argument) [store; append; extend] then
                flags ← (if _starts_with tail "=" then Return flags else append_to_back flags "=");
                append_to_back flags tail
              else separate_loop arg tail (S i) flags
          end
  end.

(** What [_separate_arg_abbrev(temp, arg, name)] pushes to [temp]. *)
Definition _separate_arg_abbrev (arg name : string) : outcome (list string) :=
  if String.length name + 1 =? String.length arg then
    match _split_equal arg with
    | [front_part; _] =>
        if bool_decide (is_Some (_get_optional_arg_by_flag optional front_part))
        then Return [arg] else separate_loop arg name 0 []
    | _ => separate_loop arg name 0 []
    end
  else Return [arg].

(** The inner loop of [_check_abbreviations] over [opt.flags()], up to its
    [break]: whether [is_flag_added] is set, the key pushed and the flag
    added to [args]. *)
Fixpoint abbreviation (arg : string) (flags : list string) : option (bool * string * string) :=
  match flags with
  | [] => None
  | flag :: flags' =>
      if _starts_with flag arg then Some (true, flag, flag)
      else if (String.length flag =? 2) && _starts_with arg flag then Some (false, arg, flag)
      else abbreviation arg flags'
  end.

(** [is_flag_added], [args] and [keys] after the loop over [optional]. *)
Definition abbreviations (arg : string) : bool * string * list string :=
  foldl (fun '(is_flag_added, args, keys) opt =>
           match abbreviation arg (m_flags opt) with
           | Some (added, key, flag) =>
               (is_flag_added || added,
                (if bool_decide (args = EmptyString) then args else args +:+ ",") +:+ " " +:+ flag,
                keys ++ [key])
           | None => (is_flag_added, args, keys)
           end)
        (false, EmptyString, []) optional.

(** The body of the loop of [_check_abbreviations]: what it pushes to
    [temp] for [arg]. *)
Definition _check_abbreviation (result : gmap string ArgumentValue) (arg : string)
    : outcome (list string) :=
  if negb (bool_decide (arg = EmptyString))
     && bool_decide (result !! arg = None)
     && _is_optional_argument arg (m_prefix_chars self)
     && (have_negative_options || negb (_is_negative_number arg))
  then
    if m_allow_abbrev self then
      let '(is_flag_added, args, keys) := abbreviations arg in
      if 1 <? length keys
      then handle_error ("ambiguous option: '" +:+ arg +:+ "' could match" +:+ args)
      else if is_flag_added then Return [hd arg keys]
      else _separate_arg_abbrev arg (_flag_name (hd arg keys))
    else _separate_arg_abbrev arg (_flag_name arg)
  else Return [arg].

Definition _check_abbreviations (result : gmap string ArgumentValue) (arguments : list string)
    : outcome (list string) :=
  for_each (fun arg temp => pushed ← _check_abbreviation result arg; Return (temp ++ pushed))
           arguments [].

(** *** The main pass

    The source walks [parsed_arguments] with an index [i] that the inner
    loops advance; the embedding walks the tokens from [i] on.  Where the
    source leaves a loop after [--i], the token at hand is still to be
    read. *)

Definition store_follower (temp : Argument) (value : string) (st : parse_state)
    : outcome parse_state :=
  st' ← _store_value temp value st; Return (log (Value temp value) st').

(** The five cases the source goes through, in two places, when the option
    has no follower ([n == 0]). *)
Definition no_follower (temp : Argument) (arg : string) (st : parse_state)
    : outcome parse_state :=
  let nargs := m_nargs temp in
  if bool_decide (nargs = EmptyString)
  then handle_error ("argument " +:+ arg +:+ ": expected one argument")
  else if bool_decide (nargs = "?") then store_follower temp (m_const temp) st
  else if bool_decide (nargs = "*") then Return st
  else if bool_decide (nargs = "+")
  then handle_error ("argument " +:+ arg +:+ ": expected at least one argument")
  else handle_error ("argument " +:+ arg +:+ ": expected " +:+ nargs +:+ " arguments").

(** The [while (true)] loop: [rest] are the tokens after [i], [n] counts
    the followers stored. *)
Fixpoint followers (temp : Argument) (arg : string) (rest : list string) (n : N)
    (st : parse_state) : outcome (parse_state * list string) :=
  let nargs := m_nargs temp in
  let num_args := m_num_args temp in
  let too_few := negb (num_args =? 0)%N && (n <? num_args)%N in
  match rest with
  | [] =>
      if (n =? 0)%N then st' ← no_follower temp arg st; Return (st', [])
      else if too_few
      then handle_error ("argument " +:+ arg +:+ ": expected " +:+ nargs +:+ " arguments")
      else Return (st, [])
  | next :: rest' =>
      if is_value next then
        st' ← store_follower temp next st;
        let n := u32_succ n in
        if bool_decide (nargs = EmptyString) || (negb (num_args =? 0)%N && (n =? num_args)%N)
        then Return (st', rest')
        else followers temp arg rest' n st'
      else if (n =? 0)%N then st' ← no_follower temp arg st; Return (st', rest)
      else if too_few
      then handle_error ("argument " +:+ arg +:+ ": expected " +:+ nargs +:+ " arguments")
      else Return (st, rest)
  end.

Definition run_callback (temp : Argument) (st : parse_state) : parse_state :=
  match m_callback temp with
  | Some func => log (Called func) st
  | None => st
  end.

(** The [switch (temp->action())]: [splitted] is [_split_equal] of the
    token, [arg] its part before the ['='].  [Action::store] falls through
    to the code of [append] and [extend] after it has cleared. *)
Definition optional_argument (temp : Argument) (arg : string) (splitted : list string)
    (rest : list string) (st : parse_state) : outcome (parse_state * list string) :=
  let st := log (Spec temp) st in
  let ignored {A : Type} : outcome A :=
    explicit ← vector_back splitted;
    handle_error ("argument " +:+ arg +:+ ": ignored explicit argument '" +:+ explicit +:+ "'") in
  match m_action temp with
  | store | append | extend =>
      st ← (if bool_decide (m_action temp = store)
            then result' ← for_each (at_values clear) (_get_argument_flags temp) (result st);
                 Return (set_result result' st)
            else Return st);
      if length splitted =? 2 then
        let nargs := m_nargs temp in
        if negb (bool_decide (nargs = EmptyString)) && (1 <? m_num_args temp)%N
        then handle_error ("argument " +:+ arg +:+ ": expected " +:+ nargs +:+ " arguments")
        else
          value ← vector_back splitted;
          if bool_decide (value = EmptyString)
          then handle_error ("argument " +:+ arg +:+ ": expected one argument")
          else st' ← store_follower temp value st; Return (st', rest)
      else followers temp arg rest 0 st
  | store_const | store_true | store_false =>
      if length splitted =? 1 then
        st' ← _store_const_value temp st;
        Return (if bool_decide (m_action temp = store_true) then run_callback temp st' else st',
                rest)
      else ignored
  | append_const =>
      if length splitted =? 1
      then st' ← _append_const_value temp st; Return (st', rest)
      else ignored
  | help =>
      if length splitted =? 1 then Exit 0 else ignored
  | version =>
      if length splitted =? 1 then
        if bool_decide (m_version temp = EmptyString)
        then Throw (AttributeError "'ArgumentParser' object has no attribute 'version'")
        else Exit 0
      else ignored
  | count =>
      if length splitted =? 1
      then st' ← _store_count_value temp st; Return (st', rest)
      else ignored
  end.

(** [for (size_t i = 0; i < parsed_arguments.size(); ++i)].  Every turn
    reads at least one token, so [fuel] does not matter once it is the
    number of tokens (lemma [main_pass_fuel] below). *)
Fixpoint main_pass (fuel : nat) (parsed_arguments : list string) (st : parse_state)
    : outcome parse_state :=
  match fuel, parsed_arguments with
  | S fuel, token :: rest =>
      if m_add_help self && _is_value_exists token (m_flags (m_help_argument self))
      then Exit 0
      else
        let splitted := _split_equal token in
        let arg := match splitted with [front_part; _] => front_part | _ => token end in
        match _get_optional_arg_by_flag optional arg with
        | Some temp =>
            '(st', rest') ← optional_argument temp arg splitted rest st;
            main_pass fuel rest' st'
        | None =>
            if have_negative_options && _is_negative_number arg
            then main_pass fuel rest (unrecognize [arg] st)
            else
              let '(st', rest') := _store_positional_arguments token rest st in
              main_pass fuel rest' st'
        end
  | _, _ => Return st
  end.

(** *** After the main pass *)

(** [result.at(flag).second.empty()] for some [flag], up to the [break]. *)
Fixpoint some_empty (flags : list string) (result : gmap string ArgumentValue) : outcome bool :=
  match flags with
  | [] => Return false
  | flag :: flags' =>
      match result !! flag with
      | None => Throw (std_out_of_range "map::at")
      | Some args => if bool_decide (args.2 = []) then Return true else some_empty flags' result
      end
  end.

Definition required_args (result : gmap string ArgumentValue) : outcome (list string) :=
  for_each (fun arg required_args =>
              if m_required arg then
                empty ← some_empty (_get_argument_flags arg) result;
                Return (if (empty : bool)
                        then required_args ++ [_vector_string_to_string (m_flags arg) "/" EmptyString]
                        else required_args)
              else Return required_args)
           optional [].

(** The body of [for ( ; pos < positional.size(); ++pos)] on [args]. *)
Definition required_body (slot : nat) (arg : Argument) (args : string) (st : parse_state)
    : outcome (string * parse_state) :=
  let name (st : parse_state) : outcome (string * parse_state) :=
    front_flag ← vector_front (m_flags arg);
    Return ((if bool_decide (args = EmptyString) then args else args +:+ ", ") +:+ front_flag, st) in
  if bool_decide (args = EmptyString) then
    unless_stored arg args st (fun st =>
      let nargs := m_nargs arg in
      if bool_decide (nargs = "?") || bool_decide (nargs = "*")
      then st' ← _store_default_value arg st; Return (args, st')
      else name st)
  else name st.

Definition check_required (st : parse_state) : outcome parse_state :=
  required_args ← required_args (result st);
  if negb (bool_decide (required_args = [])) || (pos st <? length positional) then
    '(args, st') ← for_slots required_body (drop (pos st) positional) EmptyString st;
    let args := args +:+ _vector_string_to_string required_args ", " EmptyString in
    if bool_decide (args = EmptyString) then Return st'
    else handle_error ("the following arguments are required: " +:+ args)
  else Return st.

Definition check_unrecognized (st : parse_state) : outcome parse_state :=
  if bool_decide (unrecognized_args st = []) then Return st
  else handle_error ("unrecognized arguments: "
                       +:+ _vector_string_to_string (unrecognized_args st) " " EmptyString).

(** The last loop, [for (auto& arg : result)], on one entry. *)
Definition materialize (key : string) (args : ArgumentValue) : ArgumentValue :=
  if bool_decide (args.2 = []) && negb (bool_decide (args.1 = count)) then
    match _get_optional_arg_by_dest optional key with
    | None => args
    | Some argument =>
        let value := _default_arg_value argument in
        if bool_decide (value = EmptyString) then args else (args.1, [value])
    end
  else args.

Definition materialize_defaults (result : gmap string ArgumentValue)
    : gmap string ArgumentValue :=
  map_imap (fun key args => Some (materialize key args)) result.

Definition initial (result : gmap string ArgumentValue) : parse_state :=
  {| result := result; positional_values := []; unrecognized_args := []; pos := 0; trace := [] |}.

(** [parse_known_args] up to the last loop: the state it has reached. *)
Definition resolve (parsed_arguments : list string) : outcome parse_state :=
  parsed_arguments ← expand_files parsed_arguments;
  _ ← _validate_arguments positional;
  _ ← _validate_arguments optional;
  result ← _create_result positional ∅;
  result ← _create_result optional result;
  parsed_arguments ← _check_abbreviations result parsed_arguments;
  st ← main_pass (length parsed_arguments) parsed_arguments (initial result);
  st ← for_each _match_args_partial (positional_values st) st;
  st ← check_required st;
  check_unrecognized st.

Definition parse_known_args (parsed_arguments : list string) : outcome Namespace :=
  st ← resolve parsed_arguments;
  Return (Namespace.mkNamespace (materialize_defaults (result st)) (m_prefix_chars self)).

(** [parse_args(std::vector<std::string>)]: with [exit_on_error] every
    exception ends in [exit(1)]. *)
Definition parse_args (parsed_arguments : list string) : outcome Namespace :=
  if m_exit_on_error self then
    match parse_known_args parsed_arguments with
    | Throw _ => Exit 1
    | o => o
    end
  else parse_known_args parsed_arguments.

End parse_known_args.

(** ** Host programs

    What a stream decides on plain decimal literals (a minus sign, then
    digits with at most one point among them, one digit not 0), and a file
    system with no file.  They stand for [_is_negative_number] and
    [read_lines] where a schema is run. *)

Definition is_digit (c : ascii) : bool :=
  (48 <=? nat_of_ascii c) && (nat_of_ascii c <=? 57).

Fixpoint decimal_magnitude (point digit nonzero : bool) (s : string) : bool :=
  match s with
  | EmptyString => digit && nonzero
  | String c s' =>
      if is_digit c
      then decimal_magnitude point true (nonzero || negb (bool_decide (c = "0"%char))) s'
      else if bool_decide (c = "."%char) && negb point
      then decimal_magnitude true digit nonzero s'
      else false
  end.

Definition negative_decimal (s : string) : bool :=
  match s with
  | String c s' => bool_decide (c = "-"%char) && decimal_magnitude false false false s'
  | EmptyString => false
  end.

Definition no_file (file : string) : option (list string) := None.

(** [parser.add_argument(flags).m1().m2()...] *)
Definition declare (flags : list string) (methods : list (Argument -> built))
    (parser : ArgumentParser) : outcome ArgumentParser :=
  parser ← add_argument flags parser;
  configure (fun arg => foldl and_then (Built arg) methods) parser.

Definition program (prog : string) (declarations : list (ArgumentParser -> outcome ArgumentParser))
    : outcome ArgumentParser :=
  for_each (fun declaration parser => declaration parser) declarations (ArgumentParser_new prog).

(** A schema run on a token list. *)
Definition run_with (_is_negative_number : string -> bool)
    (read_lines : string -> option (list string))
    (schema : outcome ArgumentParser) (tokens : list string) : outcome Namespace :=
  parser ← schema; parse_known_args _is_negative_number read_lines parser tokens.

Definition run : outcome ArgumentParser -> list string -> outcome Namespace :=
  run_with negative_decimal no_file.

(** What the Namespace holds for [key]: through [Namespace::data], and in
    [m_arguments] itself. *)
Definition values_at (key : string) (o : outcome Namespace) : outcome (list string) :=
  ns ← o; args ← Namespace.data ns key; Return (snd args).

Definition stored_at (key : string) (o : outcome Namespace) : outcome (option ArgumentValue) :=
  ns ← o; Return (Namespace.m_arguments ns !! key).

(** [result] as [_create_result] leaves it. *)
Definition skeleton (self : ArgumentParser) : outcome (gmap string ArgumentValue) :=
  result ← _create_result (positional self) ∅; _create_result (optional self) result.

(** The parser a schema returns and the state a parse reaches, for schemas
    and parses that return. *)
Definition parser_of (schema : outcome ArgumentParser) : ArgumentParser :=
  match schema with
  | Return parser => parser
  | _ => ArgumentParser_new EmptyString
  end.

Definition state_of (o : outcome parse_state) : parse_state :=
  match o with
  | Return st => st
  | _ => initial ∅
  end.

Definition result_of (o : outcome (gmap string ArgumentValue)) : gmap string ArgumentValue :=
  match o with
  | Return result => result
  | _ => ∅
  end.

(** [add_argument("-x").nargs("?").const_value("C").default_value("D")] *)
Definition schema_x : outcome ArgumentParser :=
  program "prog"
    [declare ["-x"] [Argument.nargs "?"; Argument.const_value "C"; Argument.default_value "D"]].

(** optionals [-a], [-b], [-c], all [store_true] *)
Definition schema_abc : outcome ArgumentParser :=
  program "prog"
    [declare ["-a"] [Argument.action store_true];
     declare ["-b"] [Argument.action store_true];
     declare ["-c"] [Argument.action store_true]].

(** [add_argument("--level").choices({"low","med","high"}).default_value("none")] *)
Definition schema_level : outcome ArgumentParser :=
  program "prog"
    [declare ["--level"] [Argument.choices ["low"; "med"; "high"]; Argument.default_value "none"]].

(** [add_argument({"--foo", "--foobar"})] *)
Definition schema_foo : outcome ArgumentParser :=
  program "prog" [declare ["--foo"; "--foobar"] []].

(** [add_argument("--foo").nargs("*").default_value("D")] *)
Definition schema_star : outcome ArgumentParser :=
  program "prog" [declare ["--foo"] [Argument.nargs "*"; Argument.default_value "D"]].

(** [add_argument("flag").action("store_true")]: a positional *)
Definition schema_flag : outcome ArgumentParser :=
  program "prog" [declare ["flag"] [Argument.action_named "store_true"]].

(** [add_argument("-b").dest("x").default_value("Z")] and
    [add_argument({"-a", "-b"}).default_value("D")] *)
Definition schema_shared : outcome ArgumentParser :=
  program "prog"
    [declare ["-b"] [Argument.dest "x"; Argument.default_value "Z"];
     declare ["-a"; "-b"] [Argument.default_value "D"]].

(** positionals [a], [b] with nargs [*], and [c] *)
Definition schema_triple : outcome ArgumentParser :=
  program "prog" [declare ["a"] []; declare ["b"] [Argument.nargs "*"]; declare ["c"] []].

(** [add_argument("--foo")] and [add_argument("--foobar")] *)
Definition schema_pair : outcome ArgumentParser :=
  program "prog" [declare ["--foo"] []; declare ["--foobar"] []].

(** A parser with [exit_on_error(false)] and [fromfile_prefix_chars("@")]:
    [--level] with choices, [--foo], [--foobar], [-v] with [store_true], and
    the positional [name]. *)
Definition schema_errors : outcome ArgumentParser :=
  program "prog"
    [fun parser => Return (ArgumentParser.exit_on_error false
                             (ArgumentParser.fromfile_prefix_chars "@" parser));
     declare ["--level"] [Argument.choices ["low"; "med"; "high"]];
     declare ["--foo"] [];
     declare ["--foobar"] [];
     declare ["-v"] [Argument.action store_true];
     declare ["name"] []].

(** [parse_args] on a schema, with the stream and the file system above. *)
Definition run_args (schema : outcome ArgumentParser) (tokens : list string) : outcome Namespace :=
  parser ← schema; parse_args negative_decimal no_file parser tokens.

(** [add_argument("--foo").dest("bar")] and [add_argument("--foobar")] *)
Definition schema_dest : outcome ArgumentParser :=
  program "prog" [declare ["--foo"] [Argument.dest "bar"]; declare ["--foobar"] []].

(** ** What the theorems are stated with *)

(** [value] passes [_validate_argument_value] of [arg]. *)
Definition valid (arg : Argument) (value : string) : Prop :=
  m_choices arg = [] \/ _remove_quotes value ∈ m_choices arg.

(** [result'] is [result] after [result.at(flag).second = g(...)] for every
    [flag] of [_get_argument_flags(arg)]. *)
Definition updated (arg : Argument) (g : list string -> list string)
    (result result' : gmap string ArgumentValue) : Prop :=
  forall k, result' !! k
            = if bool_decide (k ∈ _get_argument_flags arg)
              then on_values g <$> result !! k else result !! k.

(** The value sequence of the optional argument [arg] that a trace accounts
    for: what matching [arg] does to the sequence, and what each value stored
    for it adds. *)
Definition apply_event (arg : Argument) (values : list string) (e : event) : list string :=
  match e with
  | Spec arg' =>
      if decide (arg' = arg) then
        match m_action arg with
        | store => []
        | store_const | store_true | store_false => push_back_if_empty (m_const arg) values
        | append_const => push_back (m_const arg) values
        | count => push_back EmptyString values
        | append | extend | help | version => values
        end
      else values
  | Value arg' value => if decide (arg' = arg) then values ++ [value] else values
  | Token _ _ | Called _ => values
  end.

Definition values_of (arg : Argument) (trace : list event) : list string :=
  foldl (apply_event arg) [] trace.

(** The values [_store_value] stored for [arg] along a trace. *)
Definition stored_values (arg : Argument) (trace : list event) : list string :=
  flat_map (fun e => match e with
                     | Value arg' value => if decide (arg' = arg) then [value] else []
                     | _ => []
                     end) trace.

(** The tokens stored for positional slots, in the order they were stored,
    and those stored for one slot. *)
Definition tokens_of (trace : list event) : list string :=
  flat_map (fun e => match e with Token _ value => [value] | _ => [] end) trace.

Definition consumed_by (slot : nat) (trace : list event) : list string :=
  flat_map (fun e => match e with
                     | Token slot' value => if decide (slot' = slot) then [value] else []
                     | _ => []
                     end) trace.

(** The arity [nargs] asks of the values one specification supplies; [?] and
    [*] are left open. *)
Definition exact_nargs (arg : Argument) : Prop :=
  (m_nargs arg ∉ [EmptyString; "?"; "*"; "+"])
  /\ (0 < m_num_args arg)%N /\ (m_num_args arg < 2 ^ 32)%N.

Definition arity (arg : Argument) (values : list string) : Prop :=
  (m_nargs arg = EmptyString -> length values = 1)
  /\ (exact_nargs arg -> N.of_nat (length values) = m_num_args arg)
  /\ (m_nargs arg = "+" -> 1 <= length values).

(** The arguments of a schema, the keys [_create_result] makes for them, and
    [_create_result] having returned [r0] for the positional and then for the
    optional arguments. *)
Definition all_arguments (self : ArgumentParser) : list Argument :=
  positional self ++ optional self.

Definition all_keys (self : ArgumentParser) : list string :=
  flat_map _get_argument_flags (all_arguments self).

Definition created (self : ArgumentParser) (r0 : gmap string ArgumentValue) : Prop :=
  exists r1, _create_result (positional self) ∅ = Return r1
             /\ _create_result (optional self) r1 = Return r0.

(** No other optional argument declares one of the keys of [arg] as a flag. *)
Definition flags_unshared (self : ArgumentParser) (arg : Argument) : Prop :=
  forall other, other ∈ optional self -> other <> arg ->
    forall k, k ∈ _get_argument_flags arg -> k ∉ m_flags other.

(** What holds of the state of [parse_known_args] between two turns of its
    loops, once [_create_result] has returned. *)
Record invariant (self : ArgumentParser) (st : parse_state) : Prop := mkInvariant {
  inv_optional : forall arg k,
    arg ∈ optional self -> k ∈ _get_argument_flags arg ->
    result st !! k = Some (m_action arg, values_of arg (trace st));
  inv_positional : forall arg k,
    arg ∈ positional self -> k ∈ _get_argument_flags arg ->
    exists values,
      result st !! k = Some (m_action arg, values)
      /\ (m_action arg ∈ [store; append; extend] ->
          Forall (fun value => valid arg value \/ value = _default_arg_value self arg) values);
  inv_values : forall arg value,
    Value arg value ∈ trace st ->
    valid arg value /\ m_action arg ∈ [store; append; extend];
  inv_tokens : forall slot value, Token slot value ∈ trace st -> slot < length (positional self);
  inv_arity : forall arg,
    arg ∈ optional self -> m_action arg = store -> Spec arg ∈ trace st ->
    arity arg (values_of arg (trace st));
}.

(** ** The steps of a parse *)

(** The events of one optional argument. *)
Definition event_of (arg : Argument) (e : event) : Prop :=
  match e with
  | Spec arg' => arg' = arg
  | Value arg' value =>
      arg' = arg /\ valid arg value /\ m_action arg ∈ [store; append; extend]
  | Token _ _ => False
  | Called _ => True
  end.

(** The events of the positional slots before the [n]th. *)
Definition token_of (n : nat) (e : event) : Prop :=
  match e with
  | Token slot _ => slot < n
  | _ => False
  end.

(** [st'] is [st] after [values] were stored for [temp], one by one. *)
Definition stored_for (temp : Argument) (values : list string) (st st' : parse_state) : Prop :=
  updated temp (fun old => old ++ values) (result st) (result st')
  /\ trace st' = trace st ++ (Value temp <$> values)
  /\ Forall (valid temp) values
  /\ positional_values st' = positional_values st
  /\ unrecognized_args st' = unrecognized_args st
  /\ pos st' = pos st.

(** What a turn of the main pass leaves alone. *)
Definition same_positional (st st' : parse_state) : Prop :=
  positional_values st' = positional_values st
  /\ unrecognized_args st' = unrecognized_args st
  /\ pos st' = pos st
  /\ tokens_of (trace st') = tokens_of (trace st).

(** What one turn of the main pass for an optional argument leaves alone:
    the entries of the positional arguments and the tokens stored for the
    positional slots. *)
Definition positional_kept (self : ArgumentParser) (st st' : parse_state) : Prop :=
  (forall arg k, arg ∈ positional self -> k ∈ _get_argument_flags arg ->
     result st' !! k = result st !! k)
  /\ (forall slot, consumed_by slot (trace st') = consumed_by slot (trace st)).

(** What the entry of a positional slot holds, given the tokens stored for
    the slot: these tokens, in their order; or, when there is none, the one
    value that [_store_default_value], [_store_const_value],
    [_append_const_value] or [_store_count_value] has pushed. *)
Definition held (self : ArgumentParser) (arg : Argument) (tokens values : list string) : Prop :=
  values = tokens
  \/ (tokens = []
      /\ ((m_action arg = store /\ values = [_default_arg_value self arg])
          \/ (m_action arg ∈ [store_const; store_true; store_false; append_const]
              /\ values = [m_const arg])
          \/ (m_action arg = count /\ values = [EmptyString]))).

(** One step for the slot [slot] of [arg]: the entries of [arg] go through
    [g] and [tokens] are logged for the slot.  [pushes]: the tokens are what
    is pushed.  [filled]: the slot, empty before, holds what [held] says. *)
Definition slot_step (arg : Argument) (slot : nat) (tokens : list string)
    (g : list string -> list string) (st st' : parse_state) : Prop :=
  updated arg g (result st) (result st')
  /\ trace st' = trace st ++ (Token slot <$> tokens)
  /\ pos st' = pos st.

Definition pushes (arg : Argument) (slot : nat) (tokens : list string)
    (st st' : parse_state) : Prop :=
  slot_step arg slot tokens (fun old => old ++ tokens) st st'.

Definition filled (self : ArgumentParser) (arg : Argument) (slot : nat)
    (st st' : parse_state) : Prop :=
  exists tokens g, slot_step arg slot tokens g st st' /\ held self arg tokens (g []).

(** Between two slots: the slots before [pos] hold what [held] says of the
    tokens stored for them, the slots from [pos] on are empty and no token
    has been stored for them. *)
Definition slots_filled (self : ArgumentParser) (st : parse_state) : Prop :=
  forall slot arg k,
    positional self !! slot = Some arg -> k ∈ _get_argument_flags arg ->
    exists values,
      result st !! k = Some (m_action arg, values)
      /\ (slot < pos st -> held self arg (consumed_by slot (trace st)) values)
      /\ (pos st <= slot -> values = [] /\ consumed_by slot (trace st) = []).

(** From [st] to [st'] the tokens [arguments[i..i')] were stored for
    positional slots, in this order, and nothing else was read. *)
Definition consumed (self : ArgumentParser) (arguments : list string) (i i' : nat)
    (st st' : parse_state) : Prop :=
  (invariant self st -> invariant self st')
  /\ tokens_of (trace st') = tokens_of (trace st) ++ take (i' - i) (drop i arguments)
  /\ i <= i'
  /\ (i <= length arguments -> i' <= length arguments)
  /\ positional_values st' = positional_values st
  /\ unrecognized_args st' = unrecognized_args st.

(** Where the slots of a loop stand in [positional]. *)
Definition window (self : ArgumentParser) (slots : list Argument) (st : parse_state) : Prop :=
  Forall (fun arg => arg ∈ positional self) slots
  /\ pos st + length slots <= length (positional self).

(** What the first loop of [_match_args_partial] counts for a slot: the
    values it needs at least, whether it takes all the surplus ([+], [*]),
    and whether it takes at most one more ([?]). *)
Definition min_amount (arg : Argument) : nat :=
  if negb (action_in (m_action arg) [store; append; extend]) then 0
  else if bool_decide (m_nargs arg = EmptyString) then 1
  else if bool_decide (m_nargs arg = "+") then 1
  else if bool_decide (m_nargs arg = "?") then 0
  else if bool_decide (m_nargs arg = "*") then 0
  else N.to_nat (m_num_args arg).

Definition greedy (arg : Argument) : bool :=
  action_in (m_action arg) [store; append; extend]
  && (bool_decide (m_nargs arg = "+") || bool_decide (m_nargs arg = "*")).

Definition one (arg : Argument) : bool :=
  action_in (m_action arg) [store; append; extend] && bool_decide (m_nargs arg = "?").

(** Abbreviations: the guard [_check_abbreviations] puts on a token, the
    declared flags the token is a prefix of, and the declared two-character
    flags that are a prefix of the token. *)
Definition checked (_is_negative_number : string -> bool) (self : ArgumentParser)
    (result : gmap string ArgumentValue) (arg : string) : bool :=
  negb (bool_decide (arg = EmptyString))
  && bool_decide (result !! arg = None)
  && _is_optional_argument arg (m_prefix_chars self)
  && (have_negative_options _is_negative_number self || negb (_is_negative_number arg)).

Definition extensions (self : ArgumentParser) (arg : string) : list string :=
  List.filter (fun flag => _starts_with flag arg) (flat_map m_flags (optional self)).

Definition short_prefixes (self : ArgumentParser) (arg : string) : list string :=
  List.filter (fun flag => (String.length flag =? 2) && _starts_with arg flag)
              (flat_map m_flags (optional self)).

(** The flag by which the loop over [opt.flags()] makes [opt] a candidate
    for a token: the first flag that the token is a prefix of, or that has
    two characters and is a prefix of the token.  [candidates] are these
    flags, argument by argument, and [listing] puts them as the message of
    the ambiguity has them. *)
Definition candidate (arg : string) (opt : Argument) : option string :=
  List.find (fun flag => _starts_with flag arg
                         || (String.length flag =? 2) && _starts_with arg flag)
            (m_flags opt).

Definition candidates (self : ArgumentParser) (arg : string) : list string :=
  omap (candidate arg) (optional self).

Definition listing (flags : list string) : string :=
  String.concat "," ((fun flag => " " +:+ flag) <$> flags).

(** What the loop over [optional] pushes to [keys] for one argument, and
    one turn of the loop. *)
Definition pushed (arg : string) (opt : Argument) : list string :=
  match abbreviation arg (m_flags opt) with
  | Some (_, key, _) => [key]
  | None => []
  end.

Definition abbreviations_step (arg : string) (acc : bool * string * list string)
    (opt : Argument)
    : bool * string * list string :=
  let '(is_flag_added, args, keys) := acc in
  match abbreviation arg (m_flags opt) with
  | Some (added, key, flag) =>
      (is_flag_added || added,
       (if bool_decide (args = EmptyString) then args else args +:+ ",") +:+ " " +:+ flag,
       keys ++ [key])
  | None => (is_flag_added, args, keys)
  end.

(** ** What a parse throws

    The problems with the tokens that [handle_error] reports, by the text it
    is given.  [ignored_default_value] is the one among them that comes from
    the schema ([append_const] with a default). *)
Inductive user_problem : string -> Prop :=
  | unknown_file (file : string) :
      user_problem ("[Errno 2] No such file or directory: '" +:+ file +:+ "'")
  | invalid_choice (flag value values : string) :
      user_problem ("argument " +:+ flag +:+ ": invalid choice: '" +:+ value
                      +:+ "' (choose from " +:+ values +:+ ")")
  | ambiguous_option (arg args : string) :
      user_problem ("ambiguous option: '" +:+ arg +:+ "' could match" +:+ args)
  | expected_one_argument (arg : string) :
      user_problem ("argument " +:+ arg +:+ ": expected one argument")
  | expected_at_least_one_argument (arg : string) :
      user_problem ("argument " +:+ arg +:+ ": expected at least one argument")
  | expected_arguments (arg nargs : string) :
      user_problem ("argument " +:+ arg +:+ ": expected " +:+ nargs +:+ " arguments")
  | ignored_explicit_argument (arg value : string) :
      user_problem ("argument " +:+ arg +:+ ": ignored explicit argument '" +:+ value +:+ "'")
  | ignored_default_value (flag value : string) :
      user_problem ("argument " +:+ flag +:+ ": ignored default value '" +:+ value +:+ "'")
  | arguments_required (args : string) :
      user_problem ("the following arguments are required: " +:+ args)
  | unrecognized_arguments (args : string) :
      user_problem ("unrecognized arguments: " +:+ args).

(** The exceptions of a parse, class by class: a plain [std::logic_error]
    carries a problem of [handle_error] after the program name; the classes of
    the library carry what is wrong with the schema; [std::out_of_range] comes
    from [at()]. *)
Definition raised (self : ArgumentParser) (e : exn) : Prop :=
  match e with
  | std_logic_error error =>
      exists problem, user_problem problem /\ error = m_prog self +:+ ": error: " +:+ problem
  | TypeError error => error = "missing 1 required positional argument: 'const'"
  | ArgumentError error =>
      exists flag, error = "argument " +:+ flag +:+ ": conflicting option string: " +:+ flag
  | AttributeError error => error = "'ArgumentParser' object has no attribute 'version'"
  | std_out_of_range error => error = "vector::_M_range_check" \/ error = "map::at"
  | ValueError _ | IndexError _ => False
  end.

Definition raises {A : Type} (self : ArgumentParser) (o : outcome A) : Prop :=
  forall e, o = Throw e -> raised self e.

(** * More of the header *)

(** ** namespace detail, continued *)

(** [s.find_last_of(chars)]: the position of the last character of [s] that
    is one of [chars], if any. *)
Fixpoint find_last_of (chars s : string) : option nat :=
  match s with
  | EmptyString => None
  | String c s' =>
      match find_last_of chars s' with
      | Some pos => Some (S pos)
      | None => if _is_string_contains_char chars c then Some 0 else None
      end
  end.

(** [s.substr(s.find_last_of("/\\") + 1)]; [npos + 1] is 0. *)
Definition _file_name (s : string) : string :=
  match find_last_of "/\" s with
  | Some pos => substr (pos + 1) s
  | None => substr 0 s
  end.

(** Strings of white space only. *)
Fixpoint all_space (s : string) : bool :=
  match s with
  | EmptyString => true
  | String c s' => isspace c && all_space s'
  end.

(** [std::string(n, c)]. *)
Fixpoint fill (n : nat) (c : ascii) : string :=
  match n with
  | 0 => EmptyString
  | S n' => String c (fill n' c)
  end.

(** ** The builder methods of Argument, as calls *)

Inductive method :=
  | call_action (value : Action)
  | call_action_named (value : string)
  | call_nargs_num (value : N)
  | call_nargs (value : string)
  | call_const_value (value : string)
  | call_default_value (value : string)
  | call_choices (value : list string)
  | call_required (value : bool)
  | call_help (value : string)
  | call_help_suppress (value : Enum)
  | call_metavar (value : string)
  | call_dest (value : string)
  | call_version (value : string)
  | call_callback (func : nat).

Definition call (m : method) : Argument -> built :=
  match m with
  | call_action value => Argument.action value
  | call_action_named value => Argument.action_named value
  | call_nargs_num value => Argument.nargs_num value
  | call_nargs value => Argument.nargs value
  | call_const_value value => Argument.const_value value
  | call_default_value value => Argument.default_value value
  | call_choices value => Argument.choices value
  | call_required value => Argument.required value
  | call_help value => Argument.help value
  | call_help_suppress value => Argument.help_suppress value
  | call_metavar value => Argument.metavar value
  | call_dest value => Argument.dest value
  | call_version value => Argument.version value
  | call_callback func => Argument.callback func
  end.

(** [arg.m1().m2()...] *)
Definition chain (methods : list method) (self : Argument) : built :=
  foldl and_then (Built self) (call <$> methods).

(** What the builder methods keep of an argument: choices only with an
    action that stores values, and none of them empty; arity 0 with the other
    actions; [nargs] and [num_args] in step; the default and the const of
    [store_true] and [store_false]; no [help] or [version], no destination
    and no [required] for a positional. *)
Definition configured (arg : Argument) : Prop :=
  let storing := action_in (m_action arg) [store; append; extend] in
  (m_choices arg <> [] -> storing = true)
  /\ Forall (fun choice => choice <> EmptyString) (m_choices arg)
  /\ (storing = false -> m_nargs arg = "0" /\ m_num_args arg = 0%N)
  /\ (storing = true ->
      (m_nargs arg ∈ [EmptyString; "?"; "*"; "+"] /\ m_num_args arg = 0%N)
      \/ ((0 < m_num_args arg < 2 ^ 32)%N /\ m_nargs arg = pretty (m_num_args arg)))
  /\ (m_action arg = store_true -> m_default arg = "0" /\ m_const arg = "1")
  /\ (m_action arg = store_false -> m_default arg = "1" /\ m_const arg = "0")
  /\ (m_type arg = Positional ->
      action_in (m_action arg) [help; version] = false
      /\ m_dest arg = EmptyString /\ m_required arg = false).

(** What no builder method changes. *)
Definition frame (self self' : Argument) : Prop :=
  m_flags self' = m_flags self /\ m_name self' = m_name self /\ m_type self' = m_type self.

(** ** add_argument *)

(** The flag lists [add_argument] takes: a first flag that is not blank,
    then either option strings only, none of them empty, after an option
    string, or nothing after a positional name. *)
Definition well_formed_flags (self : ArgumentParser) (flags : list string) : bool :=
  match flags with
  | [] => false
  | first :: rest =>
      let flag0 := _trim_copy first in
      negb (bool_decide (flag0 = EmptyString))
      && (if _is_optional_argument flag0 (m_prefix_chars self)
          then forallb (fun flag => negb (bool_decide (flag = EmptyString))
                                    && _is_optional_argument flag (m_prefix_chars self)) rest
          else bool_decide (rest = []))
  end.

(** ** What a parse has done, read off its trace *)

(** How many times the optional argument [arg] was matched in the tokens. *)
Definition times_matched (arg : Argument) (trace : list event) : nat :=
  length (filter (fun e => e = Spec arg) trace).

(** ** Files of arguments *)

(** Whether [expand_files] reads a token as a file of arguments, and what it
    puts in the place of a token. *)
Definition is_file (self : ArgumentParser) (arg : string) : bool :=
  negb (bool_decide (m_fromfile_prefix_chars self = EmptyString))
  && _is_string_contains_char (m_fromfile_prefix_chars self) (front arg).

Definition expansion (read_lines : string -> option (list string)) (self : ArgumentParser)
    (arg : string) : list string :=
  if is_file self arg then default [] (read_lines (substr 1 arg)) else [arg].

(** ** class Namespace, continued *)

(** [get<std::string>(key)]: [T()] is the empty string and
    [to_type<std::string>] is [_remove_quotes]. *)
Definition get_string (self : Namespace) (key : string) : outcome string :=
  args ← Namespace.data self key;
  if bool_decide (args.1 = count)
  then Throw (TypeError ("invalid get type for argument '" +:+ key +:+ "'"))
  else if bool_decide (args.2 = []) then Return EmptyString
  else if negb (length args.2 =? 1)
  then Throw (TypeError ("trying to get data from array argument '" +:+ key +:+ "'"))
  else
    front_value ← vector_front args.2;
    if bool_decide (front_value = EmptyString) then Return EmptyString
    else Return (_remove_quotes front_value).

(** The loop of [to_string] over [args.second]. *)
Definition listed (values : list string) : string :=
  foldl (fun res str =>
           (if negb (bool_decide (res = EmptyString)) then res +:+ ", " else res)
             +:+ (if negb (bool_decide (str = EmptyString)) then str else "None"))
        EmptyString values.

(** [to_string(key)]; [std::to_string] of a [size_t] is its decimal
    numeral. *)
Definition to_string (self : Namespace) (key : string) : outcome string :=
  args ← Namespace.data self key;
  let one (k : string -> outcome string) : outcome string :=
    if negb (length args.2 =? 1)
    then Throw (TypeError ("trying to get data from array argument '" +:+ key +:+ "'"))
    else front_value ← vector_front args.2; k front_value in
  match args.1 with
  | store_const => one (fun front_value => Return front_value)
  | store_true | store_false =>
      one (fun front_value =>
             Return (if bool_decide (front_value = "0") then "false" else "true"))
  | count => Return (pretty (N.of_nat (length args.2)))
  | store | append | append_const | extend => Return ("[" +:+ listed args.2 +:+ "]")
  | help | version => Throw (ValueError "action not supported")
  end.

(** What [to_string] writes for one value. *)
Definition shown (str : string) : string :=
  if bool_decide (str = EmptyString) then "None" else str.

(** ** More schemas *)

(** [add_argument("--tag").action("append").default_value("none")],
    [add_argument("-v").action("count")],
    [add_argument("--out").required(true)] and
    [add_argument("--dry").action("store_true")] *)
Definition schema_tags : outcome ArgumentParser :=
  program "prog"
    [declare ["--tag"] [Argument.action append; Argument.default_value "none"];
     declare ["-v"] [Argument.action count];
     declare ["--out"] [Argument.required true];
     declare ["--dry"] [Argument.action store_true]].

(** The argument a schema declared as its [n]th, the help argument being the
    first of the optional ones. *)
Definition declared (schema : outcome ArgumentParser) (n : nat) : Argument :=
  default (Argument_new [] EmptyString Optional) (optional (parser_of schema) !! n).

(** [add_argument("-foo")] and [add_argument("-f")] *)
Definition schema_short : outcome ArgumentParser :=
  program "prog" [declare ["-foo"] []; declare ["-f"] []].

(** [add_argument("-1x")] *)
Definition schema_digit : outcome ArgumentParser :=
  program "prog" [declare ["-1x"] []].

(** A parser with [exit_on_error(false)] and [prefix_chars("-+")]:
    [add_argument("-a").action("store_true")] and
    [add_argument("+a").action("store_true")] *)
Definition schema_bundle : outcome ArgumentParser :=
  program "prog"
    [fun parser => Return (ArgumentParser.exit_on_error false
                             (ArgumentParser.prefix_chars "-+" parser));
     declare ["-a"] [Argument.action store_true];
     declare ["+a"] [Argument.action store_true]].

(** A parser with [exit_on_error(false)] and
    [add_argument("-a").action("store_true")] *)
Definition schema_single : outcome ArgumentParser :=
  program "prog"
    [fun parser => Return (ArgumentParser.exit_on_error false parser);
     declare ["-a"] [Argument.action store_true]].

(** * Theorems *)

(** ** The outcome monad *)

Lemma bind_Return {A B : Type} (m : outcome A) (f : A -> outcome B) (b : B) :
  (m ≫= f) = Return b -> exists a, m = Return a /\ f a = Return b.
Proof. destruct m; simpl; intros H; try discriminate. eauto. Qed.

Lemma for_each_app {A S : Type} (body : A -> S -> outcome S) (l1 l2 : list A) (s : S) :
  for_each body (l1 ++ l2) s = (for_each body l1 s ≫= for_each body l2).
Proof.
  revert s. induction l1 as [|x l1 IH]; intros s; simpl; [done|].
  destruct (body x s); simpl; auto.
Qed.

(** An invariant of the body is one of the loop. *)
Lemma for_each_invariant {A S : Type} (P : S -> Prop) (body : A -> S -> outcome S) (l : list A) :
  (forall x s s', x ∈ l -> P s -> body x s = Return s' -> P s') ->
  forall s s', P s -> for_each body l s = Return s' -> P s'.
Proof.
  induction l as [|x l IH]; intros Hbody s s' Hs H; simpl in H.
  - by injection H as <-.
  - apply bind_Return in H as (s1 & H1 & H).
    eapply IH; [| |exact H].
    + intros y t t' Hy. apply Hbody. by right.
    + eapply Hbody; [left | exact Hs | exact H1].
Qed.

Ltac outcome_inv H :=
  repeat match type of H with
         | _ ≫= _ = Return _ =>
             let a := fresh "a" in
             let E := fresh "E" in
             apply bind_Return in H as (a & E & H)
         end.

(** ** Action masks *)

Lemma action_in_spec (a : Action) (l : list Action) :
  action_in a l = bool_decide (a ∈ l).
Proof.
  unfold action_in. induction l as [|x l IH]; simpl.
  - by rewrite N.land_0_r.
  - rewrite N.land_lor_distr_r.
    destruct (decide (a = x)) as [->|Hne].
    + rewrite (bool_decide_eq_true_2 (x ∈ x :: l)) by left.
      apply negb_true_iff, N.eqb_neq. intros [H _]%N.lor_eq_0_iff. by destruct x.
    + assert (N.land (Action_value a) (Action_value x) = 0%N) as ->
        by (destruct a, x; try reflexivity; congruence).
      rewrite N.lor_0_l, IH. apply bool_decide_ext.
      rewrite elem_of_cons. split; [by right | by intros [?|?]].
Qed.

Lemma action_in_true (a : Action) (l : list Action) : action_in a l = true <-> a ∈ l.
Proof. by rewrite action_in_spec, bool_decide_eq_true. Qed.

Lemma action_in_false (a : Action) (l : list Action) : action_in a l = false <-> a ∉ l.
Proof. by rewrite action_in_spec, bool_decide_eq_false. Qed.

(** ** Strings *)

Lemma append_nil_l (s : string) : EmptyString +:+ s = s.
Proof. reflexivity. Qed.

Lemma append_cons (c : ascii) (s1 s2 : string) : String c s1 +:+ s2 = String c (s1 +:+ s2).
Proof. reflexivity. Qed.

Lemma append_empty_r (s : string) : s +:+ EmptyString = s.
Proof. induction s as [|c s IH]; [done|]. by rewrite append_cons, IH. Qed.

Lemma append_assoc (s1 s2 s3 : string) : (s1 +:+ s2) +:+ s3 = s1 +:+ (s2 +:+ s3).
Proof. induction s1 as [|c s1 IH]; [done|]. by rewrite !append_cons, IH. Qed.

Lemma append_not_empty (s1 s2 : string) : s1 <> EmptyString -> s1 +:+ s2 <> EmptyString.
Proof. by destruct s1. Qed.

Lemma starts_with_refl (str : string) : _starts_with str str = true.
Proof.
  unfold _starts_with. induction str as [|c str IH]; [done|].
  simpl. by destruct (ascii_dec c c).
Qed.

(** ** Updates of [result] *)

Lemma updated_refl (arg : Argument) (result : gmap string ArgumentValue) :
  updated arg (fun values => values) result result.
Proof.
  intros k. case_bool_decide; [|done].
  destruct (result !! k) as [[]|]; done.
Qed.

Lemma updated_trans (arg : Argument) (g1 g2 : list string -> list string)
    (r0 r1 r2 : gmap string ArgumentValue) :
  updated arg g1 r0 r1 -> updated arg g2 r1 r2 ->
  updated arg (fun values => g2 (g1 values)) r0 r2.
Proof.
  intros H1 H2 k. rewrite H2, H1. case_bool_decide; [|done].
  by destruct (r0 !! k) as [[]|].
Qed.

Lemma updated_ext (arg : Argument) (g1 g2 : list string -> list string)
    (r r' : gmap string ArgumentValue) :
  (forall values, g1 values = g2 values) -> updated arg g1 r r' -> updated arg g2 r r'.
Proof.
  intros Hg H k. rewrite H. case_bool_decide; [|done].
  destruct (r !! k) as [[]|]; simpl; [|done]. unfold on_values. simpl. by rewrite Hg.
Qed.

Lemma for_each_at_values (g : list string -> list string) (flags : list string)
    (r r' : gmap string ArgumentValue) :
  NoDup flags ->
  for_each (at_values g) flags r = Return r' ->
  forall k, r' !! k = if bool_decide (k ∈ flags) then on_values g <$> r !! k else r !! k.
Proof.
  revert r. induction flags as [|flag flags IH]; intros r Hnd H k; simpl in H.
  - by injection H as <-.
  - apply NoDup_cons in Hnd as [Hflag Hnd].
    apply bind_Return in H as (r1 & H1 & H).
    unfold at_values in H1. destruct (r !! flag) eqn:Eflag; [|done].
    injection H1 as <-.
    rewrite (IH _ Hnd H k).
    destruct (decide (k = flag)) as [->|Hne].
    + rewrite (bool_decide_eq_false_2 _ Hflag), bool_decide_eq_true_2 by left.
      by rewrite lookup_alter_eq.
    + rewrite lookup_alter_ne by done.
      apply (f_equal (fun b : bool => if b then _ else _)), bool_decide_ext.
      rewrite elem_of_cons. split; [by right | by intros [?|?]].
Qed.

Lemma elem_of_flat_map {A B : Type} (f : A -> list B) (l : list A) (y : B) :
  y ∈ flat_map f l <-> exists x, x ∈ l /\ y ∈ f x.
Proof.
  rewrite list_elem_of_In, in_flat_map.
  split; intros (x & Hx & Hy); exists x; split; by apply list_elem_of_In.
Qed.

(** ** The keys of [result] *)

Section keys.

Variable self : ArgumentParser.

Lemma create_flags (action : Action) (flags : list string) (r r' : gmap string ArgumentValue) :
  for_each (fun flag result =>
              match result !! flag with
              | None => Return (<[flag := (action, [])]> result)
              | Some _ => Throw (ArgumentError ("argument " +:+ flag
                                   +:+ ": conflicting option string: " +:+ flag))
              end) flags r = Return r' ->
  NoDup flags
  /\ (forall k, k ∈ flags -> r !! k = None /\ r' !! k = Some (action, []))
  /\ (forall k, k ∉ flags -> r' !! k = r !! k).
Proof.
  revert r. induction flags as [|flag flags IH]; intros r H; simpl in H.
  - injection H as <-. split; [constructor|]. split; [by intros k ?%elem_of_nil|done].
  - apply bind_Return in H as (r1 & H1 & H).
    destruct (r !! flag) eqn:Eflag; [done|]. injection H1 as <-.
    destruct (IH _ H) as (Hnd & Hin & Hout).
    assert (flag ∉ flags) as Hflag.
    { intros Hf. destruct (Hin _ Hf) as [Hf' _]. by rewrite lookup_insert_eq in Hf'. }
    split; [by constructor|]. split.
    + intros k [->|Hk]%elem_of_cons.
      * split; [done|]. by rewrite Hout, lookup_insert_eq.
      * destruct (Hin _ Hk) as [Hk1 Hk2]. split; [|done].
        rewrite lookup_insert_ne in Hk1; [done|]. by intros ->.
    + intros k Hk. rewrite not_elem_of_cons in Hk. destruct Hk as [Hk1 Hk2].
      by rewrite Hout, lookup_insert_ne.
Qed.

Lemma create_result_spec (arguments : list Argument) (r r' : gmap string ArgumentValue) :
  _create_result arguments r = Return r' ->
  NoDup (flat_map _get_argument_flags arguments)
  /\ (forall arg k, arg ∈ arguments -> k ∈ _get_argument_flags arg ->
        r !! k = None /\ r' !! k = Some (m_action arg, []))
  /\ (forall k, k ∉ flat_map _get_argument_flags arguments -> r' !! k = r !! k).
Proof.
  unfold _create_result.
  revert r. induction arguments as [|arg arguments IH]; intros r H; simpl in H.
  - injection H as <-. split; [constructor|]. split; [by intros ?? ?%elem_of_nil|done].
  - apply bind_Return in H as (r1 & H1 & H).
    apply create_flags in H1 as (Hnd1 & Hin1 & Hout1).
    destruct (IH _ H) as (Hnd & Hin & Hout).
    assert (forall k, k ∈ _get_argument_flags arg ->
                      k ∉ flat_map _get_argument_flags arguments) as Hdisj.
    { intros k Hk (arg' & Harg' & Hk')%elem_of_flat_map.
      destruct (Hin _ _ Harg' Hk') as [Hnone _].
      destruct (Hin1 _ Hk) as [_ Hsome]. congruence. }
    split; [|split].
    + simpl. apply NoDup_app. split; [done|]. split; [|done]. apply Hdisj.
    + intros arg' k [->|Harg']%elem_of_cons Hk.
      * destruct (Hin1 _ Hk) as [Hnone Hsome]. split; [done|].
        by rewrite Hout by (by apply Hdisj).
      * destruct (Hin _ _ Harg' Hk) as [Hnone Hsome]. split; [|done].
        destruct (decide (k ∈ _get_argument_flags arg)) as [Hk1|Hk1].
        -- destruct (Hin1 _ Hk1). congruence.
        -- by rewrite <- Hout1.
    + intros k Hk. simpl in Hk. rewrite elem_of_app in Hk.
      rewrite Hout by tauto. apply Hout1. tauto.
Qed.

Lemma created_NoDup (r0 : gmap string ArgumentValue) : created self r0 -> NoDup (all_keys self).
Proof.
  intros (r1 & H1 & H0).
  apply create_result_spec in H1 as (Hnd1 & Hin1 & _).
  apply create_result_spec in H0 as (Hnd0 & Hin0 & _).
  unfold all_keys, all_arguments. rewrite flat_map_app. apply NoDup_app.
  split; [done|]. split; [|done].
  intros k (arg & Harg & Hk)%elem_of_flat_map (arg' & Harg' & Hk')%elem_of_flat_map.
  destruct (Hin1 _ _ Harg Hk) as [_ Hsome].
  destruct (Hin0 _ _ Harg' Hk') as [Hnone _]. congruence.
Qed.

Lemma created_lookup (r0 : gmap string ArgumentValue) (arg : Argument) (k : string) :
  created self r0 -> arg ∈ (all_arguments self) -> k ∈ _get_argument_flags arg ->
  r0 !! k = Some (m_action arg, []).
Proof.
  intros (r1 & H1 & H0) Harg Hk.
  apply create_result_spec in H1 as (Hnd1 & Hin1 & _).
  apply create_result_spec in H0 as (Hnd0 & Hin0 & Hout0).
  apply elem_of_app in Harg as [Harg|Harg].
  - destruct (Hin1 _ _ Harg Hk) as [_ Hsome].
    rewrite Hout0; [done|].
    intros (arg' & Harg' & Hk')%elem_of_flat_map.
    destruct (Hin0 _ _ Harg' Hk') as [Hnone _]. congruence.
  - by destruct (Hin0 _ _ Harg Hk).
Qed.

(** A key belongs to one argument. *)
Lemma flat_map_owner (l : list Argument) (a b : Argument) (k : string) :
  NoDup (flat_map _get_argument_flags l) ->
  a ∈ l -> b ∈ l -> k ∈ _get_argument_flags a -> k ∈ _get_argument_flags b -> a = b.
Proof.
  induction l as [|x l IH]; intros Hnd Ha Hb Hka Hkb; [by apply elem_of_nil in Ha|].
  simpl in Hnd. apply NoDup_app in Hnd as (Hx & Hdisj & Hl).
  assert (forall c, c ∈ l -> k ∈ _get_argument_flags c -> k ∈ flat_map _get_argument_flags l) as Hin.
  { intros c Hc Hkc. apply elem_of_flat_map. by exists c. }
  apply elem_of_cons in Ha as [->|Ha], Hb as [->|Hb]; [done| | |by apply IH].
  - exfalso. eapply Hdisj; [exact Hka|]. by eapply Hin.
  - exfalso. eapply Hdisj; [exact Hkb|]. by eapply Hin.
Qed.

Lemma key_owner (a b : Argument) (k : string) :
  NoDup (all_keys self) -> a ∈ (all_arguments self) -> b ∈ (all_arguments self) ->
  k ∈ _get_argument_flags a -> k ∈ _get_argument_flags b -> a = b.
Proof. apply flat_map_owner. Qed.

Lemma keys_apart (a b : Argument) (k : string) :
  NoDup (all_keys self) -> a ∈ positional self -> b ∈ optional self ->
  k ∈ _get_argument_flags a -> k ∈ _get_argument_flags b -> False.
Proof.
  unfold all_keys, all_arguments. rewrite flat_map_app.
  intros (_ & Hdisj & _)%NoDup_app Ha Hb Hka Hkb.
  eapply Hdisj; apply elem_of_flat_map; eauto.
Qed.

Lemma keys_NoDup (a : Argument) :
  NoDup (all_keys self) -> a ∈ (all_arguments self) -> NoDup (_get_argument_flags a).
Proof.
  unfold all_keys. generalize (all_arguments self). intros l.
  induction l as [|x l IH]; intros Hnd Ha; [by apply elem_of_nil in Ha|].
  simpl in Hnd. apply NoDup_app in Hnd as (Hx & _ & Hl).
  apply elem_of_cons in Ha as [->|Ha]; auto.
Qed.

End keys.

(** ** The lambdas that store *)

Section stores.

Variable self : ArgumentParser.
Hypothesis keys_NoDup_all : NoDup (all_keys self).

Lemma validate_argument_value_spec (arg : Argument) (value : string) (u : unit) :
  _validate_argument_value self arg value = Return u -> valid arg value.
Proof.
  unfold _validate_argument_value, valid. intros H.
  case_bool_decide; [by left|]. right.
  unfold _is_value_exists in H. case_bool_decide; [done|].
  by destruct (vector_front (m_flags arg)).
Qed.

Lemma store_value_spec (arg : Argument) (value : string) (st st' : parse_state) :
  arg ∈ all_arguments self ->
  _store_value self arg value st = Return st' ->
  valid arg value
  /\ updated arg (push_back value) (result st) (result st')
  /\ st' = set_result (result st') st.
Proof.
  intros Harg H. unfold _store_value in H.
  apply bind_Return in H as (u & Hu & H). apply bind_Return in H as (r' & Hr & H).
  injection H as <-. split; [by eapply validate_argument_value_spec|]. split; [|done].
  intros k. eapply for_each_at_values; [|exact Hr]. by eapply keys_NoDup.
Qed.

Lemma store_default_value_spec (arg : Argument) (st st' : parse_state) :
  arg ∈ all_arguments self ->
  _store_default_value self arg st = Return st' ->
  updated arg (if bool_decide (m_action arg = store)
               then push_back_if_empty (_default_arg_value self arg)
               else fun values => values) (result st) (result st')
  /\ st' = set_result (result st') st.
Proof.
  intros Harg H. unfold _store_default_value in H. case_bool_decide.
  - apply bind_Return in H as (r' & Hr & H). injection H as <-. split; [|done].
    intros k. eapply for_each_at_values; [|exact Hr]. by eapply keys_NoDup.
  - injection H as <-. split; [apply updated_refl|by destruct st].
Qed.

Lemma store_const_value_spec (arg : Argument) (st st' : parse_state) :
  arg ∈ all_arguments self ->
  _store_const_value arg st = Return st' ->
  updated arg (push_back_if_empty (m_const arg)) (result st) (result st')
  /\ st' = set_result (result st') st.
Proof.
  intros Harg H. unfold _store_const_value in H.
  apply bind_Return in H as (r' & Hr & H). injection H as <-. split; [|done].
  intros k. eapply for_each_at_values; [|exact Hr]. by eapply keys_NoDup.
Qed.

Lemma for_each_ext {A S : Type} (f g : A -> S -> outcome S) (l : list A) (s : S) :
  (forall x s, f x s = g x s) -> for_each f l s = for_each g l s.
Proof.
  intros Hfg. revert s. induction l as [|x l IH]; intros s; simpl; [done|].
  rewrite Hfg. destruct (g x s); simpl; auto.
Qed.

Lemma append_const_value_spec (arg : Argument) (st st' : parse_state) :
  arg ∈ all_arguments self ->
  _append_const_value self arg st = Return st' ->
  updated arg (push_back (m_const arg)) (result st) (result st')
  /\ st' = set_result (result st') st.
Proof.
  intros Harg H. unfold _append_const_value in H.
  apply bind_Return in H as (r' & Hr & H). injection H as <-. split; [|done].
  destruct (decide (m_default arg = EmptyString)) as [Hd|Hd].
  - erewrite for_each_ext in Hr.
    + intros k. eapply for_each_at_values; [|exact Hr]. by eapply keys_NoDup.
    + intros flag r. simpl. by rewrite bool_decide_eq_true_2.
  - destruct (_get_argument_flags arg) as [|flag flags] eqn:Eflags.
    + simpl in Hr. injection Hr as <-. intros k. rewrite Eflags.
      case_bool_decide as Hk; [by apply elem_of_nil in Hk|done].
    + simpl in Hr. rewrite bool_decide_eq_false_2 in Hr by done.
      by destruct (vector_front (m_flags arg)).
Qed.

Lemma store_count_value_spec (arg : Argument) (st st' : parse_state) :
  arg ∈ all_arguments self ->
  _store_count_value arg st = Return st' ->
  updated arg (push_back EmptyString) (result st) (result st')
  /\ st' = set_result (result st') st.
Proof.
  intros Harg H. unfold _store_count_value in H.
  apply bind_Return in H as (r' & Hr & H). injection H as <-. split; [|done].
  intros k. eapply for_each_at_values; [|exact Hr]. by eapply keys_NoDup.
Qed.

Lemma clear_spec (arg : Argument) (r r' : gmap string ArgumentValue) :
  arg ∈ all_arguments self ->
  for_each (at_values clear) (_get_argument_flags arg) r = Return r' ->
  updated arg clear r r'.
Proof.
  intros Harg Hr k. eapply for_each_at_values; [|exact Hr]. by eapply keys_NoDup.
Qed.

(** ** Traces *)

Lemma values_of_snoc (arg : Argument) (trace : list event) (e : event) :
  values_of arg (trace ++ [e]) = apply_event arg (values_of arg trace) e.
Proof. unfold values_of. by rewrite foldl_snoc. Qed.

Lemma values_of_other (arg other : Argument) (trace events : list event) :
  other <> arg -> Forall (event_of other) events ->
  values_of arg (trace ++ events) = values_of arg trace.
Proof.
  intros Hne Hev. unfold values_of. rewrite foldl_app.
  induction Hev as [|e events He Hev IH]; [done|]. simpl.
  assert (apply_event arg (foldl (apply_event arg) [] trace) e
          = foldl (apply_event arg) [] trace) as ->; [|done].
  destruct e as [arg'|arg' value| |]; simpl in *; [| |done..].
  - subst arg'. by rewrite decide_False.
  - destruct He as [-> _]. by rewrite decide_False.
Qed.

Lemma tokens_of_app (trace1 trace2 : list event) :
  tokens_of (trace1 ++ trace2) = tokens_of trace1 ++ tokens_of trace2.
Proof. apply flat_map_app. Qed.

Lemma tokens_of_events (arg : Argument) (events : list event) :
  Forall (event_of arg) events -> tokens_of events = [].
Proof.
  induction 1 as [|e events He Hev IH]; [done|].
  unfold tokens_of in *. simpl. rewrite IH. by destruct e.
Qed.

(** ** The invariant under an update for one argument *)

Lemma invariant_optional (temp : Argument) (g : list string -> list string)
    (events : list event) (st st' : parse_state) :
  temp ∈ optional self ->
  invariant self st ->
  updated temp g (result st) (result st') ->
  trace st' = trace st ++ events ->
  Forall (event_of temp) events ->
  values_of temp (trace st ++ events) = g (values_of temp (trace st)) ->
  (m_action temp = store -> Spec temp ∈ trace st ++ events ->
   arity temp (g (values_of temp (trace st)))) ->
  invariant self st'.
Proof.
  intros Htemp [Hopt Hpos Hval Htok Har] Hupd Htrace Hev Hg Harity.
  assert (temp ∈ all_arguments self) as Htemp' by (apply elem_of_app; by right).
  split.
  - intros arg k Harg Hk. rewrite Hupd, Htrace.
    destruct (decide (arg = temp)) as [->|Hne].
    + rewrite bool_decide_eq_true_2 by done. rewrite (Hopt _ _ Harg Hk). simpl.
      unfold on_values. simpl. by rewrite Hg.
    + rewrite bool_decide_eq_false_2.
      * rewrite (values_of_other _ temp) by done. by apply Hopt.
      * intros Hk'. apply Hne. eapply key_owner; eauto.
        apply elem_of_app; by right.
  - intros arg k Harg Hk. rewrite Hupd.
    rewrite bool_decide_eq_false_2; [by apply Hpos|].
    intros Hk'. eapply keys_apart; eauto.
  - intros arg value. rewrite Htrace. intros [Hin|Hin]%elem_of_app; [by apply Hval|].
    rewrite Forall_forall in Hev. by destruct (Hev _ Hin) as (-> & ? & ?).
  - intros slot value. rewrite Htrace. intros [Hin|Hin]%elem_of_app; [by eapply Htok|].
    rewrite Forall_forall in Hev. by destruct (Hev _ Hin).
  - intros arg Harg Hact. rewrite Htrace. intros Hspec.
    destruct (decide (arg = temp)) as [->|Hne].
    + rewrite Hg. by apply Harity.
    + rewrite (values_of_other _ temp) by done. apply Har; [done..|].
      apply elem_of_app in Hspec as [Hin|Hin]; [done|].
      rewrite Forall_forall in Hev. specialize (Hev _ Hin). simpl in Hev. congruence.
Qed.

Lemma values_of_tokens (arg : Argument) (n : nat) (trace events : list event) :
  Forall (token_of n) events -> values_of arg (trace ++ events) = values_of arg trace.
Proof.
  intros Hev. unfold values_of. rewrite foldl_app.
  induction Hev as [|e events He Hev IH]; [done|]. simpl.
  by destruct e.
Qed.

Lemma invariant_positional (arg : Argument) (g : list string -> list string)
    (events : list event) (st st' : parse_state) :
  arg ∈ positional self ->
  invariant self st ->
  updated arg g (result st) (result st') ->
  trace st' = trace st ++ events ->
  Forall (token_of (length (positional self))) events ->
  (m_action arg ∈ [store; append; extend] ->
   forall values,
     Forall (fun value => valid arg value \/ value = _default_arg_value self arg) values ->
     Forall (fun value => valid arg value \/ value = _default_arg_value self arg) (g values)) ->
  invariant self st'.
Proof.
  intros Harg [Hopt Hpos Hval Htok Har] Hupd Htrace Hev Hg.
  assert (arg ∈ all_arguments self) as Harg' by (apply elem_of_app; by left).
  split.
  - intros a k Ha Hk. rewrite Hupd, Htrace.
    rewrite bool_decide_eq_false_2 by (intros Hk'; eapply keys_apart; eauto).
    rewrite (values_of_tokens _ _ _ _ Hev). by apply Hopt.
  - intros a k Ha Hk. rewrite Hupd.
    case_bool_decide as Hk'.
    + assert (a = arg) as -> by (eapply key_owner; eauto; apply elem_of_app; by left).
      destruct (Hpos _ _ Ha Hk) as (values & -> & HP). exists (g values). split; [done|].
      intros Hact. apply Hg; auto.
    + by apply Hpos.
  - intros a value. rewrite Htrace. intros [Hin|Hin]%elem_of_app; [by apply Hval|].
    rewrite Forall_forall in Hev. by destruct (Hev _ Hin).
  - intros slot value. rewrite Htrace. intros [Hin|Hin]%elem_of_app; [by eapply Htok|].
    rewrite Forall_forall in Hev. by apply (Hev _ Hin).
  - intros a Ha Hact. rewrite Htrace, (values_of_tokens _ _ _ _ Hev). intros Hspec.
    apply Har; [done..|]. apply elem_of_app in Hspec as [Hin|Hin]; [done|].
    rewrite Forall_forall in Hev. by destruct (Hev _ Hin).
Qed.

End stores.

(** ** The main pass *)

Section main_pass.

Variable _is_negative_number : string -> bool.
Variable self : ArgumentParser.
Hypothesis keys_NoDup_all : NoDup (all_keys self).

Lemma stored_for_nil (temp : Argument) (st : parse_state) : stored_for temp [] st st.
Proof.
  split; [|by rewrite app_nil_r].
  eapply updated_ext; [|apply updated_refl]. intros values. by rewrite app_nil_r.
Qed.

Lemma stored_for_app (temp : Argument) (values1 values2 : list string)
    (st st1 st2 : parse_state) :
  stored_for temp values1 st st1 -> stored_for temp values2 st1 st2 ->
  stored_for temp (values1 ++ values2) st st2.
Proof.
  intros (Hu1 & Ht1 & Hv1 & Hp1 & Hun1 & Hpos1) (Hu2 & Ht2 & Hv2 & Hp2 & Hun2 & Hpos2).
  split; [|split; [|split; [|split; [|split]]]]; try congruence.
  - eapply updated_ext; [|eapply updated_trans; [exact Hu1|exact Hu2]].
    intros values. simpl. by rewrite app_assoc.
  - by rewrite Ht2, Ht1, fmap_app, app_assoc.
  - by apply Forall_app.
Qed.

Lemma store_follower_spec (temp : Argument) (value : string) (st st' : parse_state) :
  temp ∈ optional self ->
  store_follower self temp value st = Return st' ->
  stored_for temp [value] st st'.
Proof.
  intros Htemp H. unfold store_follower in H.
  apply bind_Return in H as (st1 & H1 & H). injection H as <-.
  apply store_value_spec in H1 as (Hvalid & Hupd & Hst1);
    [|done|apply elem_of_app; by right].
  rewrite Hst1. repeat split; simpl; auto.
Qed.

Lemma no_follower_spec (temp : Argument) (arg : string) (st st' : parse_state) :
  temp ∈ optional self ->
  no_follower self temp arg st = Return st' ->
  m_nargs temp ∈ ["?"; "*"] /\ exists values, stored_for temp values st st'.
Proof.
  intros Htemp H. unfold no_follower, handle_error in H.
  repeat case_bool_decide; try done.
  - split; [rewrite elem_of_cons; by left|]. eexists. by eapply store_follower_spec.
  - injection H as <-.
    split; [rewrite !elem_of_cons; by right; left|]. eexists. apply stored_for_nil.
Qed.

Lemma u32_succ_small (n m : N) : (n < m)%N -> (m < 2 ^ 32)%N -> u32_succ n = (n + 1)%N.
Proof. intros. unfold u32_succ. apply N.mod_small. lia. Qed.

Lemma followers_spec (temp : Argument) (arg : string) (rest : list string) (n : N)
    (st st' : parse_state) (rest' : list string) :
  temp ∈ optional self ->
  followers _is_negative_number self temp arg rest n st = Return (st', rest') ->
  exists values,
    stored_for temp values st st'
    /\ length rest' <= length rest
    /\ (n = 0%N -> m_nargs temp = EmptyString -> length values = 1)
    /\ (exact_nargs temp -> (n < m_num_args temp)%N ->
        (N.of_nat (length values) + n)%N = m_num_args temp)
    /\ (n = 0%N -> m_nargs temp = "+" -> 1 <= length values).
Proof.
  intros Htemp. revert n st. induction rest as [|next rest IH]; intros n st H; simpl in H.
  - destruct (n =? 0)%N eqn:En.
    + apply bind_Return in H as (st1 & H1 & H). injection H as <- <-.
      apply no_follower_spec in H1 as (Hnargs & values & Hst); [|done].
      exists values. split; [done|]. split; [done|].
      rewrite !elem_of_cons, elem_of_nil in Hnargs.
      split; [intros _ E; rewrite E in Hnargs; naive_solver|].
      split; [|intros _ E; rewrite E in Hnargs; naive_solver].
      intros (Hex & _) _. exfalso. apply Hex. rewrite !elem_of_cons. naive_solver.
    + apply N.eqb_neq in En.
      destruct (negb (m_num_args temp =? 0)%N && (n <? m_num_args temp)%N) eqn:Efew; [done|].
      injection H as <- <-. exists []. split; [apply stored_for_nil|]. split; [done|].
      split; [done|]. split; [|done].
      intros (_ & Hpos & _) Hlt. exfalso.
      apply andb_false_iff in Efew as [E|E].
      * apply negb_false_iff, N.eqb_eq in E. lia.
      * apply N.ltb_ge in E. lia.
  - destruct (is_value _is_negative_number self next) eqn:Evalue.
    + apply bind_Return in H as (st1 & H1 & H).
      apply store_follower_spec in H1; [|done].
      destruct (bool_decide (m_nargs temp = EmptyString)
                || negb (m_num_args temp =? 0)%N && (u32_succ n =? m_num_args temp)%N)
        eqn:Ebreak.
      * injection H as <- <-. exists [next]. split; [done|]. split; [simpl; lia|].
        split; [done|]. split; [|simpl; lia].
        intros (Hex & Hpos & Hlt) Hn. simpl.
        apply orb_true_iff in Ebreak as [E|E].
        -- apply bool_decide_eq_true in E. exfalso. apply Hex. rewrite E. by left.
        -- apply andb_true_iff in E as [_ E]. apply N.eqb_eq in E.
           rewrite (u32_succ_small n (m_num_args temp)) in E by done. lia.
      * apply orb_false_iff in Ebreak as [E1 E2]. apply bool_decide_eq_false in E1.
        apply IH in H as (values & Hst & Hlen & _ & Hexact & _).
        exists ([next] ++ values). split; [by eapply stored_for_app|].
        split; [simpl; lia|]. split; [done|]. split; [|simpl; lia].
        intros Hex Hn. pose proof Hex as (_ & Hpos & Hlt). simpl.
        rewrite (u32_succ_small n (m_num_args temp)) in * by done.
        apply andb_false_iff in E2 as [E2|E2].
        -- apply negb_false_iff, N.eqb_eq in E2. lia.
        -- apply N.eqb_neq in E2. specialize (Hexact Hex). lia.
    + destruct (n =? 0)%N eqn:En.
      * apply bind_Return in H as (st1 & H1 & H). injection H as <- <-.
        apply no_follower_spec in H1 as (Hnargs & values & Hst); [|done].
        exists values. split; [done|]. split; [done|].
        rewrite !elem_of_cons, elem_of_nil in Hnargs.
        split; [intros _ E; rewrite E in Hnargs; naive_solver|].
        split; [|intros _ E; rewrite E in Hnargs; naive_solver].
        intros (Hex & _) _. exfalso. apply Hex. rewrite !elem_of_cons. naive_solver.
      * apply N.eqb_neq in En.
        destruct (negb (m_num_args temp =? 0)%N && (n <? m_num_args temp)%N) eqn:Efew; [done|].
        injection H as <- <-. exists []. split; [apply stored_for_nil|]. split; [done|].
        split; [done|]. split; [|done].
        intros (_ & Hpos & _) Hlt. exfalso.
        apply andb_false_iff in Efew as [E|E].
        -- apply negb_false_iff, N.eqb_eq in E. lia.
        -- apply N.ltb_ge in E. lia.
Qed.


Lemma values_of_values (temp : Argument) (trace : list event) (values : list string) :
  values_of temp (trace ++ (Value temp <$> values)) = values_of temp trace ++ values.
Proof.
  unfold values_of. rewrite foldl_app. generalize (foldl (apply_event temp) [] trace).
  induction values as [|value values IH]; intros l; simpl; [by rewrite app_nil_r|].
  rewrite decide_True by done. by rewrite IH, <- app_assoc.
Qed.

Lemma Forall_event_of_values (temp : Argument) (values : list string) :
  m_action temp ∈ [store; append; extend] ->
  Forall (valid temp) values -> Forall (event_of temp) (Value temp <$> values).
Proof. induction 2; constructor; simpl; auto. Qed.

Lemma arity_one (temp : Argument) (value : string) :
  negb (bool_decide (m_nargs temp = EmptyString)) && (1 <? m_num_args temp)%N = false ->
  arity temp [value].
Proof.
  intros H. split; [done|]. split; [|simpl; lia].
  intros (Hex & Hpos & _). simpl.
  apply andb_false_iff in H as [H|H].
  - apply negb_false_iff, bool_decide_eq_true in H. exfalso. apply Hex. rewrite H. by left.
  - apply N.ltb_ge in H. lia.
Qed.

Lemma consumed_by_app (slot : nat) (trace1 trace2 : list event) :
  consumed_by slot (trace1 ++ trace2) = consumed_by slot trace1 ++ consumed_by slot trace2.
Proof. apply flat_map_app. Qed.

Lemma consumed_by_events (slot : nat) (arg : Argument) (events : list event) :
  Forall (event_of arg) events -> consumed_by slot events = [].
Proof.
  induction 1 as [|e events He Hev IH]; [done|].
  unfold consumed_by in *. simpl. rewrite IH. by destruct e.
Qed.

(** A step for an optional argument leaves the positional ones alone. *)
Lemma positional_kept_optional (temp : Argument) (g : list string -> list string)
    (events : list event) (st st' : parse_state) :
  temp ∈ optional self ->
  updated temp g (result st) (result st') ->
  trace st' = trace st ++ events ->
  Forall (event_of temp) events ->
  positional_kept self st st'.
Proof.
  intros Htemp Hupd Htr Hev. split.
  - intros arg k Harg Hk. rewrite Hupd.
    rewrite bool_decide_eq_false_2; [done|].
    intros Hk'. eapply keys_apart; eauto.
  - intros slot. by rewrite Htr, consumed_by_app, (consumed_by_events slot temp events Hev), app_nil_r.
Qed.

Lemma positional_kept_refl (st : parse_state) : positional_kept self st st.
Proof. by split. Qed.

Lemma positional_kept_trans (st st1 st2 : parse_state) :
  positional_kept self st st1 -> positional_kept self st1 st2 -> positional_kept self st st2.
Proof.
  intros [Hr1 Ht1] [Hr2 Ht2]. split.
  - intros arg k Harg Hk. by rewrite (Hr2 arg k), (Hr1 arg k).
  - intros slot. by rewrite Ht2, Ht1.
Qed.

Lemma optional_argument_spec (temp : Argument) (arg : string) (splitted rest : list string)
    (st st' : parse_state) (rest' : list string) :
  temp ∈ optional self ->
  invariant self st ->
  optional_argument _is_negative_number self temp arg splitted rest st = Return (st', rest') ->
  invariant self st' /\ length rest' <= length rest /\ same_positional st st'
  /\ positional_kept self st st'.
Proof.
  intros Htemp Hinv H. unfold optional_argument in H.
  assert (temp ∈ all_arguments self) as Htemp' by (apply elem_of_app; by right).
  assert (forall B (x : outcome B) y,
            (explicit ← vector_back splitted;
             handle_error self ("argument " +:+ arg +:+ ": ignored explicit argument '"
                                  +:+ explicit +:+ "'")) = x -> x = Return y -> False)
    as Hignored.
  { intros B x y <-. by destruct (vector_back splitted). }
  assert (forall st1 st2 vs,
            (if bool_decide (m_action temp = store)
             then result' ← for_each (at_values clear) (_get_argument_flags temp)
                                     (result (log (Spec temp) st));
                  Return (set_result result' (log (Spec temp) st))
             else Return (log (Spec temp) st)) = Return st1 ->
            m_action temp ∈ [store; append; extend] ->
            stored_for temp vs st1 st2 -> arity temp vs ->
            invariant self st2 /\ same_positional st st2
            /\ positional_kept self st st2) as Hstoring.
  { intros st1 st2 vs H1 Hact (Hupd & Htr & Hval & Hpv & Hun & Hpos) Har.
    set (g := fun old : list string =>
                (if bool_decide (m_action temp = store) then [] else old) ++ vs).
    assert (updated temp g (result st) (result st2)
            /\ trace st1 = trace st ++ [Spec temp]
            /\ positional_values st1 = positional_values st
            /\ unrecognized_args st1 = unrecognized_args st
            /\ pos st1 = pos st) as (Hupd' & Htr1 & Hpv1 & Hun1 & Hpos1).
    { unfold g. case_bool_decide.
      - apply bind_Return in H1 as (r' & Hr & H1). injection H1 as <-. simpl.
        split; [|done]. apply (clear_spec self keys_NoDup_all) in Hr; [|done].
        eapply updated_ext; [|eapply updated_trans; [exact Hr|exact Hupd]]. done.
      - injection H1 as <-. simpl. split; [|done].
        eapply updated_ext; [|eapply updated_trans; [apply updated_refl|exact Hupd]]. done. }
    assert (values_of temp (trace st ++ Spec temp :: (Value temp <$> vs))
            = g (values_of temp (trace st))) as Hvalues.
    { rewrite (app_assoc _ [_]) || rewrite cons_middle, app_assoc.
      rewrite values_of_values, values_of_snoc. simpl. rewrite decide_True by done.
      unfold g. rewrite !elem_of_cons, elem_of_nil in Hact.
      destruct Hact as [E|[E|[E|[]]]]; rewrite E; by simpl. }
    split.
    - eapply (invariant_optional self keys_NoDup_all temp g (Spec temp :: (Value temp <$> vs)));
        [done|done|done| | |done|].
      + rewrite Htr, Htr1, <- app_assoc. done.
      + constructor; [done|]. by apply Forall_event_of_values.
      + intros E _. unfold g. rewrite bool_decide_eq_true_2 by done. done.
    - split; [|eapply (positional_kept_optional temp g (Spec temp :: (Value temp <$> vs)));
                 [done|done| |constructor; [done|by apply Forall_event_of_values]]].
      + split; [congruence|]. split; [congruence|]. split; [congruence|].
        rewrite Htr, Htr1, !tokens_of_app.
        rewrite (tokens_of_events temp (Value temp <$> vs)); [|by apply Forall_event_of_values].
        simpl. by rewrite !app_nil_r.
      + rewrite Htr, Htr1, <- app_assoc. done. }
  assert (forall g events st2,
            updated temp g (result st) (result st2) ->
            trace st2 = trace st ++ Spec temp :: events ->
            Forall (event_of temp) events ->
            values_of temp (trace st ++ Spec temp :: events) = g (values_of temp (trace st)) ->
            m_action temp <> store ->
            positional_values st2 = positional_values st ->
            unrecognized_args st2 = unrecognized_args st ->
            pos st2 = pos st ->
            invariant self st2 /\ same_positional st st2
            /\ positional_kept self st st2) as Hconst.
  { intros g events st2 Hupd Htr Hev Hvalues Hact Hpv Hun Hpos. split.
    - eapply (invariant_optional self keys_NoDup_all temp g (Spec temp :: events)); eauto.
      + by constructor.
      + intros E. done.
    - split; [|eapply (positional_kept_optional temp g (Spec temp :: events));
                 [done|done|done|by constructor]].
      split; [done|]. split; [done|]. split; [done|].
      rewrite Htr, tokens_of_app.
      rewrite (tokens_of_events temp (Spec temp :: events)) by (by constructor).
      by rewrite app_nil_r. }
  destruct (m_action temp) eqn:Eaction.
  - (* store *)
    apply bind_Return in H as (st1 & H1 & H).
    destruct (length splitted =? 2) eqn:Esplit.
    + destruct (negb (bool_decide (m_nargs temp = EmptyString)) && (1 <? m_num_args temp)%N)
        eqn:Eargs; [done|].
      apply bind_Return in H as (value & Hvalue & H).
      destruct (bool_decide (value = EmptyString)); [done|].
      apply bind_Return in H as (st2 & H2 & H). injection H as <- <-.
      apply store_follower_spec in H2; [|done..].
      split; [|split; [done|split]]; eapply Hstoring; eauto using arity_one;
        rewrite elem_of_cons; by left.
    + apply followers_spec in H as (vs & Hst & Hlen & Ha1 & Ha2 & Ha3); [|done..].
      assert (arity temp vs) as Har.
      { split; [auto|]. split; [|auto].
        intros Hex. pose proof Hex as (_ & Hpos & _). specialize (Ha2 Hex Hpos). lia. }
      split; [|split; [done|split]]; eapply Hstoring; eauto; rewrite elem_of_cons; by left.
  - (* store_const *)
    destruct (length splitted =? 1); [|exfalso; by eapply Hignored].
    apply bind_Return in H as (st1 & H1 & H). injection H as <- <-.
    apply (store_const_value_spec self keys_NoDup_all) in H1 as (Hupd & Hst1); [|done].
    rewrite ?bool_decide_eq_false_2 by done.
    split; [|split; [done|split]];
      eapply (Hconst (push_back_if_empty (m_const temp)) []); eauto; try (rewrite Hst1; done).
    all: rewrite values_of_snoc; simpl; rewrite decide_True by done; by rewrite Eaction.
  - (* store_true *)
    destruct (length splitted =? 1); [|exfalso; by eapply Hignored].
    apply bind_Return in H as (st1 & H1 & H). injection H as <- <-.
    apply (store_const_value_spec self keys_NoDup_all) in H1 as (Hupd & Hst1); [|done].
    rewrite ?bool_decide_eq_true_2 by done.
    assert (exists events,
               Forall (event_of temp) events
               /\ run_callback temp st1
                  = mkState (result st1) (positional_values st1) (unrecognized_args st1)
                            (pos st1) (trace st1 ++ events)
               /\ values_of temp (trace st ++ Spec temp :: events)
                  = push_back_if_empty (m_const temp) (values_of temp (trace st)))
      as (events & Hev & Hrun & Hvalues).
    { unfold run_callback. destruct (m_callback temp) as [func|].
      - exists [Called func]. split; [by constructor|]. split; [done|].
        rewrite (app_assoc _ [_] [_]) || rewrite cons_middle, app_assoc.
        rewrite !values_of_snoc. simpl. rewrite decide_True by done. by rewrite Eaction.
      - exists []. split; [constructor|]. split; [by destruct st1; rewrite app_nil_r|].
        rewrite values_of_snoc. simpl. rewrite decide_True by done. by rewrite Eaction. }
    rewrite Hrun.
    split; [|split; [done|split]];
      eapply (Hconst (push_back_if_empty (m_const temp)) events); eauto;
      simpl; rewrite Hst1; simpl; try done.
    all: by rewrite <- app_assoc.
  - (* store_false *)
    destruct (length splitted =? 1); [|exfalso; by eapply Hignored].
    apply bind_Return in H as (st1 & H1 & H). injection H as <- <-.
    apply (store_const_value_spec self keys_NoDup_all) in H1 as (Hupd & Hst1); [|done].
    rewrite ?bool_decide_eq_false_2 by done.
    split; [|split; [done|split]];
      eapply (Hconst (push_back_if_empty (m_const temp)) []); eauto; try (rewrite Hst1; done).
    all: rewrite values_of_snoc; simpl; rewrite decide_True by done; by rewrite Eaction.
  - (* append *)
    apply bind_Return in H as (st1 & H1 & H).
    destruct (length splitted =? 2) eqn:Esplit.
    + destruct (negb (bool_decide (m_nargs temp = EmptyString)) && (1 <? m_num_args temp)%N)
        eqn:Eargs; [done|].
      apply bind_Return in H as (value & Hvalue & H).
      destruct (bool_decide (value = EmptyString)); [done|].
      apply bind_Return in H as (st2 & H2 & H). injection H as <- <-.
      apply store_follower_spec in H2; [|done..].
      split; [|split; [done|split]]; eapply Hstoring; eauto using arity_one;
        rewrite !elem_of_cons; by right; left.
    + apply followers_spec in H as (vs & Hst & Hlen & Ha1 & Ha2 & Ha3); [|done..].
      assert (arity temp vs) as Har.
      { split; [auto|]. split; [|auto].
        intros Hex. pose proof Hex as (_ & Hpos & _). specialize (Ha2 Hex Hpos). lia. }
      split; [|split; [done|split]]; eapply Hstoring; eauto; rewrite !elem_of_cons; by right; left.
  - (* append_const *)
    destruct (length splitted =? 1); [|exfalso; by eapply Hignored].
    apply bind_Return in H as (st1 & H1 & H). injection H as <- <-.
    apply append_const_value_spec in H1 as (Hupd & Hst1); [|done..].
    split; [|split; [done|split]];
      eapply (Hconst (push_back (m_const temp)) []); eauto; try (rewrite Hst1; done).
    all: rewrite values_of_snoc; simpl; rewrite decide_True by done; by rewrite Eaction.
  - (* count *)
    destruct (length splitted =? 1); [|exfalso; by eapply Hignored].
    apply bind_Return in H as (st1 & H1 & H). injection H as <- <-.
    apply (store_count_value_spec self keys_NoDup_all) in H1 as (Hupd & Hst1); [|done].
    split; [|split; [done|split]];
      eapply (Hconst (push_back EmptyString) []); eauto; try (rewrite Hst1; done).
    all: rewrite values_of_snoc; simpl; rewrite decide_True by done; by rewrite Eaction.
  - (* help *)
    destruct (length splitted =? 1); [done|exfalso; by eapply Hignored].
  - (* version *)
    destruct (length splitted =? 1); [|exfalso; by eapply Hignored].
    by destruct (bool_decide (m_version temp = EmptyString)).
  - (* extend *)
    apply bind_Return in H as (st1 & H1 & H).
    destruct (length splitted =? 2) eqn:Esplit.
    + destruct (negb (bool_decide (m_nargs temp = EmptyString)) && (1 <? m_num_args temp)%N)
        eqn:Eargs; [done|].
      apply bind_Return in H as (value & Hvalue & H).
      destruct (bool_decide (value = EmptyString)); [done|].
      apply bind_Return in H as (st2 & H2 & H). injection H as <- <-.
      apply store_follower_spec in H2; [|done..].
      split; [|split; [done|split]]; eapply Hstoring; eauto using arity_one;
        rewrite !elem_of_cons; by right; right; left.
    + apply followers_spec in H as (vs & Hst & Hlen & Ha1 & Ha2 & Ha3); [|done..].
      assert (arity temp vs) as Har.
      { split; [auto|]. split; [|auto].
        intros Hex. pose proof Hex as (_ & Hpos & _). specialize (Ha2 Hex Hpos). lia. }
      split; [|split; [done|split]]; eapply Hstoring; eauto;
        rewrite !elem_of_cons; by right; right; left.
Qed.


Lemma get_optional_arg_by_flag_Some (optional : list Argument) (key : string) (temp : Argument) :
  _get_optional_arg_by_flag optional key = Some temp -> temp ∈ optional /\ key ∈ m_flags temp.
Proof.
  intros [Hin Hkey]%find_some. split; [by apply list_elem_of_In|].
  by apply bool_decide_eq_true in Hkey.
Qed.

Lemma positional_run_length (values rest values' rest' : list string) :
  positional_run _is_negative_number self values rest = (values', rest') ->
  length rest' <= length rest.
Proof.
  revert values. induction rest as [|next rest IH]; intros values H; simpl in H.
  - injection H as <- <-. done.
  - destruct (is_value _is_negative_number self next).
    + apply IH in H. simpl. lia.
    + by injection H as <- <-.
Qed.

Lemma followers_length (temp : Argument) (arg : string) (rest : list string) (n : N)
    (st st' : parse_state) (rest' : list string) :
  followers _is_negative_number self temp arg rest n st = Return (st', rest') ->
  length rest' <= length rest.
Proof.
  revert n st. induction rest as [|next rest IH]; intros n st H; simpl in H.
  - destruct (n =? 0)%N.
    + apply bind_Return in H as (st1 & H1 & H). by injection H as <- <-.
    + destruct (negb (m_num_args temp =? 0)%N && (n <? m_num_args temp)%N); [done|].
      by injection H as <- <-.
  - destruct (is_value _is_negative_number self next).
    + apply bind_Return in H as (st1 & H1 & H).
      destruct (bool_decide (m_nargs temp = EmptyString)
                || negb (m_num_args temp =? 0)%N && (u32_succ n =? m_num_args temp)%N).
      * injection H as <- <-. simpl. lia.
      * apply IH in H. simpl. lia.
    + destruct (n =? 0)%N.
      * apply bind_Return in H as (st1 & H1 & H). by injection H as <- <-.
      * destruct (negb (m_num_args temp =? 0)%N && (n <? m_num_args temp)%N); [done|].
        by injection H as <- <-.
Qed.

Lemma optional_argument_length (temp : Argument) (arg : string) (splitted rest : list string)
    (st st' : parse_state) (rest' : list string) :
  optional_argument _is_negative_number self temp arg splitted rest st = Return (st', rest') ->
  length rest' <= length rest.
Proof.
  intros H. unfold optional_argument in H.
  assert (forall B (x : outcome B) y,
            (explicit ← vector_back splitted;
             handle_error self ("argument " +:+ arg +:+ ": ignored explicit argument '"
                                  +:+ explicit +:+ "'")) = x -> x = Return y -> False)
    as Hignored.
  { intros B x y <-. by destruct (vector_back splitted). }
  destruct (m_action temp);
    repeat match type of H with
           | (_ ≫= _) = Return _ => apply bind_Return in H as (? & ? & H)
           | (if ?c then _ else _) = Return _ => destruct c eqn:?
           | Return _ = Return _ => injection H as <- <-
           end;
    try done; try (exfalso; by eapply Hignored); try by eapply followers_length.
Qed.

(** The fuel of [main_pass] does not matter once it is the number of
    tokens. *)
Lemma main_pass_fuel (fuel : nat) (parsed_arguments : list string) (st : parse_state) :
  length parsed_arguments <= fuel ->
  main_pass _is_negative_number self fuel parsed_arguments st
  = main_pass _is_negative_number self (length parsed_arguments) parsed_arguments st.
Proof.
  remember (length parsed_arguments) as n eqn:En.
  revert fuel parsed_arguments st En.
  induction (lt_wf n) as [n _ IH]. intros fuel toks st -> Hfuel.
  destruct toks as [|token rest]; [by destruct fuel|].
  destruct fuel as [|fuel]; [simpl in Hfuel; lia|]. simpl in *.
  destruct (m_add_help self && _is_value_exists token (m_flags (m_help_argument self))); [done|].
  destruct (_get_optional_arg_by_flag _ _) as [temp|].
  - destruct (optional_argument _ _ _ _ _ _ _) as [[st1 rest1]| | |] eqn:E; simpl; try done.
    apply optional_argument_length in E.
    rewrite (IH (length rest1)) by lia. symmetry. apply IH; lia.
  - destruct (have_negative_options _is_negative_number self && _); [apply IH; lia|].
    unfold _store_positional_arguments.
    destruct (positional_run _ _ _ _) as [values rest1] eqn:E.
    apply positional_run_length in E.
    rewrite (IH (length rest1)) by lia. symmetry. apply IH; lia.
Qed.

Lemma main_pass_spec (fuel : nat) (parsed_arguments : list string) (st st' : parse_state) :
  invariant self st ->
  main_pass _is_negative_number self fuel parsed_arguments st = Return st' ->
  invariant self st' /\ pos st' = pos st /\ tokens_of (trace st') = tokens_of (trace st)
  /\ positional_kept self st st'.
Proof.
  revert parsed_arguments st. induction fuel as [|fuel IH]; intros toks st Hinv H.
  - destruct toks; injection H as <-; (split; [done|split; [done|split; [done|]]]);
      apply positional_kept_refl.
  - destruct toks as [|token rest];
      [injection H as <-; (split; [done|split; [done|split; [done|]]]);
       apply positional_kept_refl|].
    simpl in H.
    destruct (m_add_help self && _is_value_exists token (m_flags (m_help_argument self))); [done|].
    destruct (_get_optional_arg_by_flag _ _) as [temp|] eqn:Etemp.
    + apply bind_Return in H as ([st1 rest1] & H1 & H).
      apply get_optional_arg_by_flag_Some in Etemp as [Htemp _].
      apply optional_argument_spec in H1 as (Hinv1 & _ & (_ & _ & Hpos1 & Htok1) & Hkept1);
        [|done..].
      apply IH in H as (Hinv' & Hpos' & Htok' & Hkept'); [|done]. split; [done|].
      split; [congruence|]. split; [congruence|]. by eapply positional_kept_trans.
    + destruct (have_negative_options _is_negative_number self && _).
      * apply IH in H; [done|]. by destruct Hinv.
      * unfold _store_positional_arguments in H.
        destruct (positional_run _ _ _ _) as [values rest1].
        apply IH in H; [done|]. by destruct Hinv.
Qed.

End main_pass.

(** ** Positional partitioning *)

Section positional.

Variable self : ArgumentParser.
Hypothesis keys_NoDup_all : NoDup (all_keys self).

Lemma invariant_fields (st st' : parse_state) :
  result st' = result st -> trace st' = trace st -> invariant self st -> invariant self st'.
Proof. intros Hr Ht [H1 H2 H3 H4 H5]. split; rewrite ?Hr, ?Ht; auto. Qed.

Section group.

Variable arguments : list string.

Lemma consumed_refl (i : nat) (st : parse_state) : consumed self arguments i i st st.
Proof.
  split; [done|]. split; [|done].
  by rewrite Nat.sub_diag, take_0, app_nil_r.
Qed.

Lemma consumed_trans (i j k : nat) (st st1 st2 : parse_state) :
  consumed self arguments i j st st1 -> consumed self arguments j k st1 st2 -> consumed self arguments i k st st2.
Proof.
  intros (Hi1 & Ht1 & Hle1 & Hb1 & Hp1 & Hu1) (Hi2 & Ht2 & Hle2 & Hb2 & Hp2 & Hu2).
  split; [auto|]. split; [|split; [lia|split; [auto|split; congruence]]].
  rewrite Ht2, Ht1, <- app_assoc. f_equal.
  replace (drop j arguments) with (drop (j - i) (drop i arguments))
    by (rewrite drop_drop; f_equal; lia).
  rewrite take_take_drop. f_equal. lia.
Qed.

Lemma consumed_fields (i i' : nat) (st st' st'' : parse_state) :
  result st'' = result st' -> trace st'' = trace st' ->
  positional_values st'' = positional_values st' ->
  unrecognized_args st'' = unrecognized_args st' ->
  consumed self arguments i i' st st' -> consumed self arguments i i' st st''.
Proof.
  intros Hr Ht Hp Hu (Hi & Htok & Hrest).
  split; [intros H; by eapply invariant_fields; [..|apply Hi]|].
  rewrite Ht, Hp, Hu. done.
Qed.

Lemma take_token_spec (slot : nat) (arg : Argument) (i : nat) (st st' : parse_state) :
  arg ∈ positional self -> slot < length (positional self) ->
  take_token self slot arg arguments i st = Return st' ->
  consumed self arguments i (S i) st st' /\ pos st' = pos st.
Proof.
  intros Harg Hslot H. unfold take_token in H.
  apply bind_Return in H as (value & Hvalue & H).
  apply bind_Return in H as (st1 & H1 & H). injection H as <-.
  unfold vector_at in Hvalue. destruct (arguments !! i) as [v|] eqn:Ei; [|done].
  injection Hvalue as ->.
  apply store_value_spec in H1 as (Hvalid & Hupd & Hst1);
    [|done|apply elem_of_app; by left].
  assert (trace st1 = trace st) as Htr by (by rewrite Hst1).
  split; [|by rewrite Hst1].
  split; [|split; [|split; [lia|split; [|by rewrite Hst1]]]].
  - intros Hinv.
    eapply (invariant_positional self keys_NoDup_all arg (push_back value) [Token slot value]);
      [done|done|done| | |].
    + simpl. by rewrite Htr.
    + by constructor.
    + intros _ values Hvalues. apply Forall_app. split; [done|]. constructor; auto.
  - simpl. rewrite tokens_of_app, Htr. f_equal.
    replace (S i - i) with 1 by lia.
    by rewrite (drop_S _ value _ Ei).
  - intros _. by apply lookup_lt_Some in Ei.
Qed.

Lemma take_tokens_spec (slot : nat) (arg : Argument) (num_args i : nat)
    (st st' : parse_state) (i' : nat) :
  arg ∈ positional self -> slot < length (positional self) ->
  take_tokens self slot arg arguments num_args i st = Return (i', st') ->
  i' = i + num_args /\ consumed self arguments i i' st st' /\ pos st' = pos st.
Proof.
  intros Harg Hslot. revert i st. induction num_args as [|n IH]; intros i st H; simpl in H.
  - injection H as <- <-. split; [lia|]. split; [apply consumed_refl|done].
  - apply bind_Return in H as (st1 & H1 & H).
    apply take_token_spec in H1 as [H1 Hpos1]; [|done..].
    apply IH in H as (-> & H & Hpos). split; [lia|]. split; [|congruence].
    by eapply consumed_trans.
Qed.

Lemma store_default_value_consumed (arg : Argument) (i : nat) (st st' : parse_state) :
  arg ∈ positional self ->
  _store_default_value self arg st = Return st' ->
  consumed self arguments i i st st' /\ pos st' = pos st.
Proof.
  intros Harg H.
  apply store_default_value_spec in H as (Hupd & Hst');
    [|done|apply elem_of_app; by left].
  split; [|by rewrite Hst'].
  split; [|split; [|split; [lia|split; [done|by rewrite Hst']]]].
  - intros Hinv.
    eapply (invariant_positional self keys_NoDup_all arg _ []); eauto.
    + rewrite Hst'. simpl. by rewrite app_nil_r.
    + intros _ values Hvalues. case_bool_decide; [|done].
      destruct values; [|done]. constructor; auto.
  - rewrite Hst'. simpl. by rewrite Nat.sub_diag, take_0, app_nil_r.
Qed.

Lemma not_storing (arg : Argument) (l : list Action) :
  m_action arg ∈ l -> (forall a, a ∈ l -> a ∉ [store; append; extend]) ->
  m_action arg ∈ [store; append; extend] -> False.
Proof. intros Hin Hl Hs. by eapply Hl. Qed.

Lemma is_positional_arg_stored_spec (arg : Argument) (i : nat) (st st' : parse_state)
    (stored : bool) :
  arg ∈ positional self ->
  _is_positional_arg_stored self arg st = Return (stored, st') ->
  consumed self arguments i i st st' /\ pos st' = pos st
  /\ (m_action arg ∈ [store; append; extend] -> stored = false).
Proof.
  intros Harg H. unfold _is_positional_arg_stored in H.
  assert (arg ∈ all_arguments self) as Harg' by (apply elem_of_app; by left).
  assert (forall g st1,
            updated arg g (result st) (result st1) -> st1 = set_result (result st1) st ->
            m_action arg ∉ [store; append; extend] ->
            consumed self arguments i i st st1 /\ pos st1 = pos st) as Hstored.
  { intros g st1 Hupd Hst1 Hact. split; [|by rewrite Hst1].
    split; [|split; [|split; [lia|split; [done|by rewrite Hst1]]]].
    - intros Hinv. eapply (invariant_positional self keys_NoDup_all arg g []); eauto.
      + rewrite Hst1. simpl. by rewrite app_nil_r.
      + done.
    - rewrite Hst1. simpl. by rewrite Nat.sub_diag, take_0, app_nil_r. }
  destruct (action_in (m_action arg) [store_const; store_true; store_false]) eqn:E1.
  { apply bind_Return in H as (st1 & H1 & H). injection H as <- <-.
    apply action_in_true in E1.
    assert (m_action arg ∉ [store; append; extend]) as Hact.
    { rewrite !elem_of_cons, elem_of_nil in *. intros [E|[E|[E|[]]]]; rewrite E in E1; naive_solver. }
    apply (store_const_value_spec self keys_NoDup_all) in H1 as (Hupd & Hst1); [|done].
    destruct (Hstored _ _ Hupd Hst1 Hact). done. }
  case_bool_decide as E2.
  { apply bind_Return in H as (st1 & H1 & H). injection H as <- <-.
    assert (m_action arg ∉ [store; append; extend]) as Hact.
    { rewrite E2, !elem_of_cons, elem_of_nil. naive_solver. }
    apply (append_const_value_spec self keys_NoDup_all) in H1 as (Hupd & Hst1); [|done].
    destruct (Hstored _ _ Hupd Hst1 Hact). done. }
  case_bool_decide as E3.
  { apply bind_Return in H as (st1 & H1 & H). injection H as <- <-.
    assert (m_action arg ∉ [store; append; extend]) as Hact.
    { rewrite E3, !elem_of_cons, elem_of_nil. naive_solver. }
    apply (store_count_value_spec self keys_NoDup_all) in H1 as (Hupd & Hst1); [|done].
    destruct (Hstored _ _ Hupd Hst1 Hact). done. }
  injection H as <- <-. split; [apply consumed_refl|done].
Qed.


Lemma min_amount_not_storing (arg : Argument) :
  m_action arg ∉ [store; append; extend] -> min_amount arg = 0.
Proof. intros H%action_in_false. unfold min_amount. by rewrite H. Qed.

Lemma greedy_not_storing (arg : Argument) :
  m_action arg ∉ [store; append; extend] -> greedy arg = false.
Proof. intros H%action_in_false. unfold greedy. by rewrite H. Qed.

Lemma one_not_storing (arg : Argument) :
  m_action arg ∉ [store; append; extend] -> one arg = false.
Proof. intros H%action_in_false. unfold one. by rewrite H. Qed.

Lemma scan_window_spec (slots : list Argument) (size finish0 m0 o0 : nat) (b0 : bool)
    (finish m o : nat) (b : bool) :
  scan_window slots size finish0 m0 o0 b0 = (finish, m, o, b) ->
  m0 <= size ->
  exists n,
    finish = finish0 + n /\ n <= length slots
    /\ m = m0 + sum_list (min_amount <$> take n slots) /\ m <= size
    /\ o = o0 + length (List.filter one (take n slots))
    /\ (b = true -> b0 = true \/ Exists (fun arg => greedy arg = true) (take n slots)
                    \/ size < m + 1)
    /\ (b = false -> b0 = false /\ Forall (fun arg => greedy arg = false) (take n slots)).
Proof.
  revert finish0 m0 o0 b0. induction slots as [|arg slots IH]; intros finish0 m0 o0 b0 H Hm0.
  - injection H as <- <- <- <-. exists 0. simpl. repeat split; auto with lia.
  - simpl in H.
    destruct (action_in (m_action arg) [store; append; extend]) eqn:Eact; simpl in H.
    2:{ apply IH in H as (n & -> & Hn & -> & Hm & -> & Hb1 & Hb2); [|done].
        apply action_in_false in Eact.
        exists (S n). csimpl.
        rewrite (min_amount_not_storing arg), (one_not_storing arg) by done. csimpl.
        split; [lia|]. split; [lia|]. split; [done|]. split; [done|]. split; [done|].
        split.
        - intros Hb. destruct (Hb1 Hb) as [?|[?|?]];
            [by left|right; left; apply Exists_cons; by right|by right; right].
        - intros Hb. destruct (Hb2 Hb). split; [done|]. constructor; [|done].
          by apply greedy_not_storing. }
    set (amount := if bool_decide (m_nargs arg = EmptyString) then (1, o0, b0)
                   else if bool_decide (m_nargs arg = "+") then (1, o0, true)
                   else if bool_decide (m_nargs arg = "?") then (0, S o0, b0)
                   else if bool_decide (m_nargs arg = "*") then (0, o0, true)
                   else (N.to_nat (m_num_args arg), o0, b0)) in H.
    assert (amount.1.1 = min_amount arg
            /\ amount.1.2 = o0 + (if one arg then 1 else 0)
            /\ amount.2 = b0 || greedy arg
            /\ (greedy arg = true -> bool_decide (m_nargs arg = "*") = false ->
                amount.1.1 = 1)) as (Hmin & Hone & Hgreedy & Hplus).
    { unfold amount, min_amount, one, greedy. rewrite Eact. simpl.
      repeat case_bool_decide; simpl; try congruence;
        repeat split; auto with lia; try by destruct b0. }
    destruct amount as [[min_amount' one_args] more_args]. simpl in *.
    destruct (size <? m0 + min_amount') eqn:Ebreak.
    + injection H as <- <- <- <-. apply Nat.ltb_lt in Ebreak.
      assert (one arg = false) as Eone.
      { unfold one, min_amount in *. rewrite Eact in *. simpl in *.
        repeat case_bool_decide; simpl in *; try done; try congruence; lia. }
      rewrite Eone in Hone.
      exists 0. simpl. split; [lia|]. split; [lia|]. split; [lia|]. split; [done|].
      split; [lia|]. split.
      * intros ->. symmetry in Hgreedy. apply orb_true_iff in Hgreedy as [?|Hg]; [by left|].
        right; right.
        assert (bool_decide (m_nargs arg = "*") = false) as Hstar.
        { unfold min_amount in *. rewrite Eact in *. simpl in *.
          repeat case_bool_decide; simpl in *; try done; try congruence; lia. }
        specialize (Hplus Hg Hstar). lia.
      * intros ->. symmetry in Hgreedy. apply orb_false_iff in Hgreedy as [? ?]. by split.
    + apply Nat.ltb_ge in Ebreak.
      apply IH in H as (n & -> & Hn & -> & Hm & -> & Hb1 & Hb2); [|done].
      exists (S n). csimpl. rewrite Hmin.
      split; [lia|]. split; [lia|]. split; [lia|]. split; [lia|].
      split; [rewrite Hone; destruct (one arg); simpl; lia|].
      rewrite Hmin in *. split.
      * intros Hb. destruct (Hb1 Hb) as [Hb'|[?|?]].
        -- rewrite Hgreedy in Hb'. apply orb_true_iff in Hb' as [?|?]; [by left|].
           right; left. apply Exists_cons. by left.
        -- right; left. apply Exists_cons. by right.
        -- right; right. lia.
      * intros Hb. destruct (Hb2 Hb) as [Hb' ?]. rewrite Hgreedy in Hb'.
        apply orb_false_iff in Hb' as [? ?]. split; [done|]. by constructor.
Qed.

(** The four loops over the window. *)

Lemma unless_stored_spec {L : Type} (arg : Argument) (locals : L) (i : nat)
    (st : parse_state) (otherwise : parse_state -> outcome (L * parse_state))
    (locals' : L) (st' : parse_state) :
  arg ∈ positional self ->
  unless_stored self arg locals st otherwise = Return (locals', st') ->
  ((m_action arg ∉ [store; append; extend]) /\ locals' = locals
   /\ consumed self arguments i i st st' /\ pos st' = pos st)
  \/ exists st1, consumed self arguments i i st st1 /\ pos st1 = pos st
                 /\ otherwise st1 = Return (locals', st').
Proof.
  intros Harg H. unfold unless_stored in H.
  apply bind_Return in H as ([stored st1] & H1 & H).
  apply (is_positional_arg_stored_spec arg i) in H1 as (Hc & Hpos & Hstored); [|done].
  destruct stored.
  - injection H as <- <-. left. split; [|done]. intros Hact. by specialize (Hstored Hact).
  - right. by exists st1.
Qed.

Lemma exact_body_spec (slot : nat) (arg : Argument) (i : nat) (st : parse_state)
    (i' : nat) (st' : parse_state) :
  arg ∈ positional self -> slot < length (positional self) ->
  exact_body self arguments slot arg i st = Return (i', st') ->
  consumed self arguments i i' st st' /\ pos st' = pos st /\ i + min_amount arg <= i'.
Proof.
  intros Harg Hslot H. unfold exact_body in H.
  apply (unless_stored_spec arg i i) in H as [(Hact & -> & Hc & Hpos)|(st1 & Hc & Hpos & H)];
    [rewrite min_amount_not_storing by done; split; [done|split; [done|lia]]| |done].
  unfold min_amount. destruct (negb (action_in _ _)); simpl.
  all: repeat case_bool_decide; simpl in H; subst;
    repeat match type of H with
           | (_ ≫= _) = Return _ =>
               let st2 := fresh "st" in
               let E := fresh "E" in
               apply bind_Return in H as (st2 & E & H)
           | Return _ = Return _ => injection H as <- <-
           end;
    try match goal with
        | E : take_token _ _ _ _ _ _ = Return _ |- _ =>
            apply take_token_spec in E as [E ?]; [|done..]
        | E : _store_default_value _ _ _ = Return _ |- _ =>
            apply (store_default_value_consumed arg i) in E as [E ?]; [|done]
        end;
    try (apply take_tokens_spec in H as (-> & H & ?); [|done..]);
    (split; [by eapply consumed_trans|]); (split; [congruence|lia]).
Qed.


Ltac body_cases H arg i :=
  repeat case_bool_decide; try congruence; simpl in H;
  repeat match type of H with
         | (_ ≫= _) = Return _ =>
             let st2 := fresh "st" in
             let E := fresh "E" in
             apply bind_Return in H as (st2 & E & H)
         | (let '(_, _) := ?p in _) = Return _ => destruct p
         | (if ?c then _ else _) = Return _ => destruct c eqn:?
         end;
  repeat match goal with
         | E : take_token _ _ _ _ _ _ = Return _ |- _ =>
             apply take_token_spec in E as [E ?]; [|done..]
         | E : _store_default_value _ _ _ = Return _ |- _ =>
             apply (store_default_value_consumed arg i) in E as [E ?]; [|done]
         | E : take_tokens _ _ _ _ _ _ _ = Return _ |- _ =>
             apply take_tokens_spec in E as (? & E & ?); [|done..]
         end;
  simplify_eq.

Lemma greedy_body_spec (slot : nat) (arg : Argument) (i over : nat) (st : parse_state)
    (i' over' : nat) (st' : parse_state) :
  arg ∈ positional self -> slot < length (positional self) ->
  greedy_body self arguments slot arg (i, over) st = Return (i', over', st') ->
  consumed self arguments i i' st st' /\ pos st' = pos st /\ over' <= over
  /\ i + min_amount arg + (over - over') <= i'
  /\ (greedy arg = true -> over' = 0).
Proof.
  intros Harg Hslot H. unfold greedy_body in H.
  apply (unless_stored_spec arg (i, over) i) in H
    as [(Hact & [= <- <-] & Hc & Hpos)|(st1 & Hc & Hpos & H)];
    [rewrite min_amount_not_storing, greedy_not_storing by done;
     split; [done|split; [done|split; [lia|split; [lia|done]]]]| |done].
  unfold min_amount, greedy. destruct (action_in _ _); simpl.
  all: body_cases H arg i.
  all: try match goal with E : (0 <? _) = _ |- _ =>
             first [apply Nat.ltb_lt in E | apply Nat.ltb_ge in E] end.
  all: split;
    [repeat (first [eassumption | eapply consumed_trans; [eassumption|]]);
     try apply consumed_refl|].
  all: split; [congruence|]; split; [lia|]; split; [lia|]; intros; try done; lia.
Qed.


Lemma one_body_spec (one_args slot : nat) (arg : Argument) (i over : nat) (st : parse_state)
    (i' over' : nat) (st' : parse_state) :
  arg ∈ positional self -> slot < length (positional self) ->
  one_body self arguments one_args slot arg (i, over) st = Return (i', over', st') ->
  consumed self arguments i i' st st' /\ pos st' = pos st /\ over <= over'
  /\ (greedy arg = false -> i + min_amount arg + (over' - over) <= i')
  /\ (one arg = true -> over < one_args -> over' = S over).
Proof.
  intros Harg Hslot H. unfold one_body in H.
  apply (unless_stored_spec arg (i, over) i) in H
    as [(Hact & [= <- <-] & Hc & Hpos)|(st1 & Hc & Hpos & H)];
    [rewrite min_amount_not_storing, one_not_storing by done;
     split; [done|split; [done|split; [lia|split; [lia|done]]]]| |done].
  unfold min_amount, greedy, one. destruct (action_in _ _); simpl.
  all: body_cases H arg i.
  all: try match goal with E : (_ <? _) = _ |- _ =>
             first [apply Nat.ltb_lt in E | apply Nat.ltb_ge in E] end.
  all: split;
    [repeat (first [eassumption | eapply consumed_trans; [eassumption|]]);
     try apply consumed_refl|].
  all: split; [congruence|]; split; [lia|]; split; intros; try done; lia.
Qed.

Lemma rest_body_spec (slot : nat) (arg : Argument) (i : nat) (st : parse_state)
    (i' : nat) (st' : parse_state) :
  arg ∈ positional self -> slot < length (positional self) ->
  rest_body self arguments slot arg i st = Return (i', st') ->
  consumed self arguments i i' st st' /\ pos st' = pos st.
Proof.
  intros Harg Hslot H. unfold rest_body in H.
  apply (unless_stored_spec arg i i) in H as [(Hact & -> & Hc & Hpos)|(st1 & Hc & Hpos & H)];
    [done| |done].
  body_cases H arg i.
  all: split;
    [repeat (first [eassumption | eapply consumed_trans; [eassumption|]]);
     try apply consumed_refl|congruence].
Qed.

(** An invariant of the turns of [for_slots], stated on the slots still to
    come. *)
Lemma for_slots_invariant {L : Type}
    (body : nat -> Argument -> L -> parse_state -> outcome (L * parse_state))
    (I : list Argument -> L -> parse_state -> Prop) :
  (forall arg slots locals st locals' st',
     I (arg :: slots) locals st -> body (pos st) arg locals st = Return (locals', st') ->
     I slots locals' (set_pos (S (pos st')) st')) ->
  forall slots locals st locals' st',
    I slots locals st -> for_slots body slots locals st = Return (locals', st') ->
    I [] locals' st'.
Proof.
  intros Hbody slots. induction slots as [|arg slots IH]; intros locals st locals' st' HI H;
    simpl in H.
  - by injection H as <- <-.
  - apply bind_Return in H as ([locals1 st1] & H1 & H).
    eapply IH; [|exact H]. by eapply Hbody.
Qed.

Lemma window_cons (arg : Argument) (slots : list Argument) (st st' : parse_state) :
  window self (arg :: slots) st -> pos st' = pos st ->
  arg ∈ positional self /\ pos st < length (positional self)
  /\ window self slots (set_pos (S (pos st')) st').
Proof.
  intros [[Harg Hslots]%Forall_cons Hlen] Hpos. simpl in Hlen.
  split; [done|]. split; [lia|]. split; [done|]. simpl. lia.
Qed.

Lemma consumed_set_pos (i i' n : nat) (st st' : parse_state) :
  consumed self arguments i i' st st' -> consumed self arguments i i' st (set_pos n st').
Proof. by apply consumed_fields. Qed.

Lemma exact_loop_spec (slots : list Argument) (i : nat) (st : parse_state)
    (i' : nat) (st' : parse_state) :
  window self slots st ->
  for_slots (exact_body self arguments) slots i st = Return (i', st') ->
  consumed self arguments i i' st st' /\ pos st' = pos st + length slots
  /\ i + sum_list (min_amount <$> slots) <= i'.
Proof.
  intros Hw H.
  pose (I := fun (rest : list Argument) (j : nat) (st1 : parse_state) =>
               window self rest st1 /\ consumed self arguments i j st st1
               /\ pos st1 + length rest = pos st + length slots
               /\ i + sum_list (min_amount <$> slots) <= j + sum_list (min_amount <$> rest)).
  assert (I [] i' st') as (_ & Hc & Hpos & Hsum).
  { eapply (for_slots_invariant _ I); [|split; [exact Hw|split; [apply consumed_refl|done]]|exact H].
    clear Hw H. intros arg rest j st1 j' st2 (Hw & Hc & Hpos & Hsum) Hbody.
    apply exact_body_spec in Hbody as (Hc' & Hpos' & Hmin);
      [|by destruct Hw as [[? ?]%Forall_cons ?]
       |destruct Hw as [_ Hlen]; simpl in Hlen; lia].
    destruct (window_cons _ _ _ _ Hw Hpos') as (_ & _ & Hw').
    split; [done|]. split; [apply consumed_set_pos; by eapply consumed_trans|].
    csimpl in *. split; lia. }
  csimpl in *. split; [done|]. split; lia.
Qed.

Lemma greedy_loop_spec (slots : list Argument) (i over : nat) (st : parse_state)
    (i' over' : nat) (st' : parse_state) :
  window self slots st ->
  for_slots (greedy_body self arguments) slots (i, over) st = Return (i', over', st') ->
  consumed self arguments i i' st st' /\ pos st' = pos st + length slots
  /\ over' <= over
  /\ i + sum_list (min_amount <$> slots) + (over - over') <= i'
  /\ (Exists (fun arg => greedy arg = true) slots -> over' = 0).
Proof.
  intros Hw H.
  pose (I := fun (rest : list Argument) (locals : nat * nat) (st1 : parse_state) =>
               window self rest st1 /\ consumed self arguments i locals.1 st st1
               /\ pos st1 + length rest = pos st + length slots
               /\ locals.2 <= over
               /\ i + sum_list (min_amount <$> slots) + (over - locals.2)
                  <= locals.1 + sum_list (min_amount <$> rest)
               /\ (Exists (fun arg => greedy arg = true) slots ->
                   locals.2 = 0 \/ Exists (fun arg => greedy arg = true) rest)).
  assert (I [] (i', over') st') as (_ & Hc & Hpos & Hover & Hsum & Hgreedy).
  { eapply (for_slots_invariant _ I); [| |exact H].
    - clear Hw H. intros arg rest [j o] st1 [j' o'] st2 (Hw & Hc & Hpos & Hover & Hsum & Hg) Hbody.
      cbn [fst snd] in *.
      apply greedy_body_spec in Hbody as (Hc' & Hpos' & Ho & Hmin & Hg');
        [|by destruct Hw as [[? ?]%Forall_cons ?]
         |destruct Hw as [_ Hlen]; simpl in Hlen; lia].
      destruct (window_cons _ _ _ _ Hw Hpos') as (_ & _ & Hw').
      split; [done|]. split; [apply consumed_set_pos; by eapply consumed_trans|].
      csimpl in *. split; [lia|]. split; [lia|]. split; [lia|].
      intros Hex. destruct (Hg Hex) as [->|[Hhd|Htl]%Exists_cons]; [left; lia| |by right].
      left. by apply Hg'.
    - split; [exact Hw|]. split; [apply consumed_refl|]. cbn [fst snd].
      split; [done|]. split; [done|]. split; [lia|]. by right. }
  cbn [fst snd] in *. csimpl in *. split; [done|]. split; [lia|]. split; [done|]. split; [lia|].
  intros Hex. destruct (Hgreedy Hex) as [?|Hnil]; [done|]. by apply Exists_nil in Hnil.
Qed.

Lemma filter_one_cons (arg : Argument) (slots : list Argument) :
  length (List.filter one (arg :: slots))
  = (if one arg then 1 else 0) + length (List.filter one slots).
Proof. simpl. by destruct (one arg). Qed.

Lemma one_loop_spec (one_args : nat) (slots : list Argument) (i over : nat)
    (st : parse_state) (i' over' : nat) (st' : parse_state) :
  window self slots st ->
  Forall (fun arg => greedy arg = false) slots ->
  for_slots (one_body self arguments one_args) slots (i, over) st = Return (i', over', st') ->
  consumed self arguments i i' st st' /\ pos st' = pos st + length slots
  /\ over <= over'
  /\ i + sum_list (min_amount <$> slots) + (over' - over) <= i'
  /\ one_args `min` (over + length (List.filter one slots)) <= over'.
Proof.
  intros Hw Hng H.
  pose (I := fun (rest : list Argument) (locals : nat * nat) (st1 : parse_state) =>
               window self rest st1 /\ consumed self arguments i locals.1 st st1
               /\ pos st1 + length rest = pos st + length slots
               /\ Forall (fun arg => greedy arg = false) rest
               /\ over <= locals.2
               /\ i + sum_list (min_amount <$> slots) + (locals.2 - over)
                  <= locals.1 + sum_list (min_amount <$> rest)
               /\ one_args `min` (over + length (List.filter one slots))
                  <= locals.2 `max` (one_args `min` (locals.2 + length (List.filter one rest)))).
  assert (I [] (i', over') st') as (_ & Hc & Hpos & _ & Hover & Hsum & Hone).
  { eapply (for_slots_invariant _ I); [| |exact H].
    - clear Hw H Hng. intros arg rest [j o] st1 [j' o'] st2
        (Hw & Hc & Hpos & [Hng Hngs]%Forall_cons & Hover & Hsum & Hone) Hbody.
      cbn [fst snd] in *.
      apply one_body_spec in Hbody as (Hc' & Hpos' & Ho & Hmin & Hone');
        [|by destruct Hw as [[? ?]%Forall_cons ?]
         |destruct Hw as [_ Hlen]; simpl in Hlen; lia].
      destruct (window_cons _ _ _ _ Hw Hpos') as (_ & _ & Hw').
      specialize (Hmin Hng).
      split; [done|]. split; [apply consumed_set_pos; by eapply consumed_trans|].
      rewrite filter_one_cons in Hone.
      csimpl in *. split; [lia|]. split; [done|]. split; [lia|]. split; [lia|].
      destruct (one arg).
      + destruct (decide (o < one_args)) as [Hlt|Hge].
        * rewrite (Hone' eq_refl Hlt). lia.
        * lia.
      + lia.
    - split; [exact Hw|]. split; [apply consumed_refl|]. cbn [fst snd].
      split; [done|]. split; [done|]. split; [done|]. split; lia. }
  cbn [fst snd] in *. csimpl in *. split; [done|]. split; [lia|]. split; [done|]. split; lia.
Qed.

Lemma rest_loop_spec (slots : list Argument) (i : nat) (st : parse_state)
    (i' : nat) (st' : parse_state) :
  window self slots st ->
  for_slots (rest_body self arguments) slots i st = Return (i', st') ->
  consumed self arguments i i' st st' /\ pos st' = pos st + length slots.
Proof.
  intros Hw H.
  pose (I := fun (rest : list Argument) (j : nat) (st1 : parse_state) =>
               window self rest st1 /\ consumed self arguments i j st st1
               /\ pos st1 + length rest = pos st + length slots).
  assert (I [] i' st') as (_ & Hc & Hpos).
  { eapply (for_slots_invariant _ I); [|split; [exact Hw|split; [apply consumed_refl|done]]|exact H].
    clear Hw H. intros arg rest j st1 j' st2 (Hw & Hc & Hpos) Hbody.
    apply rest_body_spec in Hbody as (Hc' & Hpos');
      [|by destruct Hw as [[? ?]%Forall_cons ?]
       |destruct Hw as [_ Hlen]; simpl in Hlen; lia].
    destruct (window_cons _ _ _ _ Hw Hpos') as (_ & _ & Hw').
    split; [done|]. split; [apply consumed_set_pos; by eapply consumed_trans|].
    csimpl in *. lia. }
  cbn [fst snd] in *. csimpl in *. split; [done|lia].
Qed.


Lemma window_take_drop (n : nat) (st : parse_state) :
  pos st <= length (positional self) ->
  window self (take n (drop (pos st) (positional self))) st.
Proof.
  intros Hpos. split.
  - apply Forall_forall. intros arg Harg.
    by apply subseteq_take, subseteq_drop in Harg.
  - rewrite length_take, length_drop. lia.
Qed.

(** [_match_args_partial] stores a prefix of the group for positional slots
    and leaves the rest of the group unrecognized. *)
Lemma match_args_partial_spec (st st' : parse_state) :
  _match_args_partial self arguments st = Return st' ->
  (invariant self st -> invariant self st')
  /\ positional_values st' = positional_values st
  /\ exists i,
       i <= length arguments
       /\ tokens_of (trace st') = tokens_of (trace st) ++ take i arguments
       /\ unrecognized_args st' = unrecognized_args st ++ drop i arguments.
Proof.
  intros H. unfold _match_args_partial in H.
  assert (forall st1, st1 = unrecognize arguments st ->
            (invariant self st -> invariant self st1)
            /\ positional_values st1 = positional_values st
            /\ exists i, i <= length arguments
                 /\ tokens_of (trace st1) = tokens_of (trace st) ++ take i arguments
                 /\ unrecognized_args st1 = unrecognized_args st ++ drop i arguments) as Hnone.
  { intros st1 ->. split; [by apply invariant_fields|]. split; [done|].
    exists 0. simpl. split; [lia|]. by rewrite app_nil_r. }
  assert (forall i' st1,
            consumed self arguments 0 i' st st1 -> length arguments <= i' ->
            (invariant self st -> invariant self st1)
            /\ positional_values st1 = positional_values st
            /\ exists i, i <= length arguments
                 /\ tokens_of (trace st1) = tokens_of (trace st) ++ take i arguments
                 /\ unrecognized_args st1 = unrecognized_args st ++ drop i arguments) as Hall.
  { intros i' st1 (Hinv & Htok & _ & Hle & Hpv & Hun) Hi'.
    specialize (Hle (Nat.le_0_l _)). assert (i' = length arguments) as -> by lia.
    split; [done|]. split; [done|]. exists (length arguments). split; [done|].
    rewrite Htok, Hun, drop_all, app_nil_r, Nat.sub_0_r. done. }
  destruct (length (positional self) <=? pos st) eqn:Epos; [injection H as <-; by apply Hnone|].
  apply Nat.leb_gt in Epos.
  destruct (scan_window _ _ _ _ _ _) as [[[finish m] o] b] eqn:Escan.
  apply scan_window_spec in Escan as (n & -> & Hn & Hm & Hmle & Ho & Hb1 & Hb2); [|lia].
  replace (pos st + n - pos st) with n in H by lia.
  simpl in Hm, Ho.
  pose proof (window_take_drop n st ltac:(lia)) as Hw.
  destruct (pos st + n =? pos st); [injection H as <-; by apply Hnone|].
  destruct (m =? length arguments) eqn:Em.
  { apply Nat.eqb_eq in Em.
    apply bind_Return in H as ([i' st1] & H1 & H). injection H as <-.
    apply exact_loop_spec in H1 as (Hc & _ & Hsum); [|done].
    eapply Hall; [exact Hc|lia]. }
  apply Nat.eqb_neq in Em.
  destruct b.
  { apply bind_Return in H as ([[i' over'] st1] & H1 & H). injection H as <-.
    apply greedy_loop_spec in H1 as (Hc & _ & Hover & Hsum & Hgreedy); [|done].
    destruct (Hb1 eq_refl) as [?|[Hex|?]]; [done| |lia].
    rewrite (Hgreedy Hex) in Hsum.
    eapply Hall; [exact Hc|lia]. }
  destruct (length arguments <=? m + o) eqn:Eone.
  { apply Nat.leb_le in Eone.
    apply bind_Return in H as ([[i' over'] st1] & H1 & H). injection H as <-.
    destruct (Hb2 eq_refl) as [_ Hng].
    apply one_loop_spec in H1 as (Hc & _ & Hover & Hsum & Hone); [|done..].
    eapply Hall; [exact Hc|lia]. }
  apply bind_Return in H as ([i' st1] & H1 & H). injection H as <-.
  apply rest_loop_spec in H1 as ((Hinv & Htok & _ & Hle & Hpv & Hun) & _); [|done].
  specialize (Hle (Nat.le_0_l _)).
  split; [intros Hi; by apply invariant_fields with st1, Hinv|]. split; [done|].
  exists i'. split; [done|]. simpl. rewrite Htok, Hun, Nat.sub_0_r. done.
Qed.

End group.

(** All the groups: when nothing is left unrecognized, the tokens stored
    for positional slots are the tokens of the groups, in order. *)
Lemma match_groups_spec (groups : list (list string)) (st st' : parse_state) :
  for_each (_match_args_partial self) groups st = Return st' ->
  (invariant self st -> invariant self st')
  /\ positional_values st' = positional_values st
  /\ (unrecognized_args st' = [] ->
      unrecognized_args st = []
      /\ tokens_of (trace st') = tokens_of (trace st) ++ concat groups).
Proof.
  revert st. induction groups as [|arguments groups IH]; intros st H; simpl in H.
  - injection H as <-. split; [done|]. split; [done|]. intros ?. by rewrite app_nil_r.
  - apply bind_Return in H as (st1 & H1 & H).
    apply match_args_partial_spec in H1 as (Hinv1 & Hpv1 & i & Hi & Htok1 & Hun1).
    apply IH in H as (Hinv & Hpv & Hun).
    split; [auto|]. split; [congruence|]. intros Hnil.
    destruct (Hun Hnil) as [Hnil1 Htok]. rewrite Hun1 in Hnil1.
    apply app_eq_nil in Hnil1 as [Hnil0 Hdrop]. split; [done|].
    assert (i = length arguments) as ->.
    { apply (f_equal length) in Hdrop. rewrite length_drop in Hdrop. simpl in Hdrop. lia. }
    rewrite Htok, Htok1, firstn_all, <- app_assoc. done.
Qed.

End positional.

(** ** What the positional slots hold *)

Section slots.

Variable self : ArgumentParser.
Hypothesis keys_NoDup_all : NoDup (all_keys self).

Lemma slot_owner (slot slot' : nat) (arg arg' : Argument) (k : string) :
  positional self !! slot = Some arg -> positional self !! slot' = Some arg' ->
  k ∈ _get_argument_flags arg -> k ∈ _get_argument_flags arg' -> slot = slot'.
Proof.
  assert (NoDup (flat_map _get_argument_flags (positional self))) as Hnd.
  { unfold all_keys, all_arguments in keys_NoDup_all.
    rewrite flat_map_app in keys_NoDup_all. by apply NoDup_app in keys_NoDup_all as [? _]. }
  revert slot slot' Hnd.
  induction (positional self) as [|a l IH]; intros slot slot' Hnd Hs Hs' Hk Hk'; [done|].
  simpl in Hnd. apply NoDup_app in Hnd as (_ & Hapart & Hnd).
  destruct slot as [|slot], slot' as [|slot']; simpl in Hs, Hs'.
  - done.
  - injection Hs as ->. exfalso. apply (Hapart k Hk).
    apply elem_of_flat_map. exists arg'. split; [by eapply list_elem_of_lookup_2|done].
  - injection Hs' as ->. exfalso. apply (Hapart k Hk').
    apply elem_of_flat_map. exists arg. split; [by eapply list_elem_of_lookup_2|done].
  - f_equal. by eapply IH.
Qed.

Lemma consumed_by_same (slot : nat) (tokens : list string) :
  consumed_by slot (Token slot <$> tokens) = tokens.
Proof.
  unfold consumed_by. induction tokens as [|token tokens IH]; [done|].
  simpl. rewrite decide_True by done. simpl. by f_equal.
Qed.

Lemma consumed_by_other (slot slot' : nat) (tokens : list string) :
  slot' <> slot -> consumed_by slot (Token slot' <$> tokens) = [].
Proof.
  intros Hne. unfold consumed_by. induction tokens as [|token tokens IH]; [done|].
  simpl. by rewrite decide_False.
Qed.

Lemma slots_filled_fields (st st' : parse_state) :
  result st' = result st -> trace st' = trace st -> pos st' = pos st ->
  slots_filled self st -> slots_filled self st'.
Proof. intros Hr Ht Hp H slot arg k. rewrite Hr, Ht, Hp. apply H. Qed.

Lemma slots_filled_kept (st st' : parse_state) :
  positional_kept self st st' -> pos st' = pos st ->
  slots_filled self st -> slots_filled self st'.
Proof.
  intros [Hr Ht] Hp H slot arg k Hslot Hk.
  rewrite (Hr arg k), Ht, Hp; [by apply H| |done]. by eapply list_elem_of_lookup_2.
Qed.

(** *** The steps for one slot *)

Lemma pushes_nil (arg : Argument) (slot : nat) (st : parse_state) : pushes arg slot [] st st.
Proof.
  split; [|by rewrite app_nil_r].
  eapply updated_ext; [|apply updated_refl]. intros values. by rewrite app_nil_r.
Qed.

Lemma pushes_app (arg : Argument) (slot : nat) (tokens1 tokens2 : list string)
    (st st1 st2 : parse_state) :
  pushes arg slot tokens1 st st1 -> pushes arg slot tokens2 st1 st2 ->
  pushes arg slot (tokens1 ++ tokens2) st st2.
Proof.
  intros (Hu1 & Ht1 & Hp1) (Hu2 & Ht2 & Hp2). split; [|split; [|congruence]].
  - eapply updated_ext; [|eapply updated_trans; [exact Hu1|exact Hu2]].
    intros values. simpl. by rewrite app_assoc.
  - by rewrite Ht2, Ht1, fmap_app, app_assoc.
Qed.

Lemma pushes_filled (arg : Argument) (slot : nat) (tokens : list string)
    (st st' : parse_state) :
  pushes arg slot tokens st st' -> filled self arg slot st st'.
Proof. intros H. exists tokens, (fun old => old ++ tokens). split; [done|]. by left. Qed.

Lemma filled_refl (arg : Argument) (slot : nat) (st : parse_state) : filled self arg slot st st.
Proof. apply (pushes_filled arg slot []), pushes_nil. Qed.

Lemma take_token_pushes (slot : nat) (arg : Argument) (arguments : list string) (i : nat)
    (st st' : parse_state) :
  arg ∈ positional self ->
  take_token self slot arg arguments i st = Return st' ->
  exists value, pushes arg slot [value] st st'.
Proof.
  intros Harg H. unfold take_token in H.
  apply bind_Return in H as (value & _ & H).
  apply bind_Return in H as (st1 & H1 & H). injection H as <-.
  apply store_value_spec in H1 as (_ & Hupd & Hst1); [|done|apply elem_of_app; by left].
  exists value. split; [done|]. simpl. by rewrite Hst1.
Qed.

Lemma take_tokens_pushes (slot : nat) (arg : Argument) (arguments : list string)
    (num_args i : nat) (st st' : parse_state) (i' : nat) :
  arg ∈ positional self ->
  take_tokens self slot arg arguments num_args i st = Return (i', st') ->
  exists tokens, pushes arg slot tokens st st'.
Proof.
  intros Harg. revert i st. induction num_args as [|n IH]; intros i st H; simpl in H.
  - injection H as <- <-. exists []. apply pushes_nil.
  - apply bind_Return in H as (st1 & H1 & H).
    apply take_token_pushes in H1 as (value & H1); [|done].
    apply IH in H as (tokens & H). exists ([value] ++ tokens). by eapply pushes_app.
Qed.

Lemma store_default_value_filled (slot : nat) (arg : Argument) (st st' : parse_state) :
  arg ∈ positional self ->
  _store_default_value self arg st = Return st' -> filled self arg slot st st'.
Proof.
  intros Harg H.
  apply store_default_value_spec in H as (Hupd & Hst'); [|done|apply elem_of_app; by left].
  exists [], (if bool_decide (m_action arg = store)
              then push_back_if_empty (_default_arg_value self arg)
              else fun values => values).
  split; [split; [done|]; rewrite Hst'; simpl; by rewrite app_nil_r|].
  case_bool_decide; [|by left]. right. split; [done|]. by left.
Qed.

Lemma is_positional_arg_stored_filled (slot : nat) (arg : Argument) (st st' : parse_state)
    (stored : bool) :
  arg ∈ positional self ->
  _is_positional_arg_stored self arg st = Return (stored, st') ->
  if stored then filled self arg slot st st' else st' = st.
Proof.
  intros Harg H. unfold _is_positional_arg_stored in H.
  assert (arg ∈ all_arguments self) as Harg' by (apply elem_of_app; by left).
  assert (forall g st1,
            updated arg g (result st) (result st1) -> st1 = set_result (result st1) st ->
            held self arg [] (g []) -> filled self arg slot st st1) as Hstored.
  { intros g st1 Hupd Hst1 Hheld. exists [], g. split; [|done].
    split; [done|]. rewrite Hst1. simpl. by rewrite app_nil_r. }
  destruct (action_in (m_action arg) [store_const; store_true; store_false]) eqn:E1.
  { apply bind_Return in H as (st1 & H1 & H). injection H as <- <-.
    apply action_in_true in E1.
    apply (store_const_value_spec self keys_NoDup_all) in H1 as (Hupd & Hst1); [|done].
    eapply Hstored; [done..|]. right. split; [done|]. right. left. split; [|done].
    rewrite !elem_of_cons in E1. rewrite !elem_of_cons. tauto. }
  case_bool_decide as E2.
  { apply bind_Return in H as (st1 & H1 & H). injection H as <- <-.
    apply (append_const_value_spec self keys_NoDup_all) in H1 as (Hupd & Hst1); [|done].
    eapply Hstored; [done..|]. right. split; [done|]. right. left. split; [|done].
    rewrite E2, !elem_of_cons. tauto. }
  case_bool_decide as E3.
  { apply bind_Return in H as (st1 & H1 & H). injection H as <- <-.
    apply (store_count_value_spec self keys_NoDup_all) in H1 as (Hupd & Hst1); [|done].
    eapply Hstored; [done..|]. right. split; [done|]. right. by right. }
  by injection H as <- <-.
Qed.

Lemma unless_stored_filled {L : Type} (slot : nat) (arg : Argument) (locals : L)
    (st : parse_state) (otherwise : parse_state -> outcome (L * parse_state))
    (locals' : L) (st' : parse_state) :
  arg ∈ positional self ->
  (otherwise st = Return (locals', st') -> filled self arg slot st st') ->
  unless_stored self arg locals st otherwise = Return (locals', st') ->
  filled self arg slot st st'.
Proof.
  intros Harg Hother H. unfold unless_stored in H.
  apply bind_Return in H as ([stored st1] & H1 & H).
  apply (is_positional_arg_stored_filled slot) in H1; [|done].
  destruct stored; [by injection H as <- <-|]. subst st1. auto.
Qed.

Section group.

Variable arguments : list string.

Lemma token_filled (slot : nat) (arg : Argument) (i : nat) (st st' : parse_state) :
  arg ∈ positional self ->
  take_token self slot arg arguments i st = Return st' -> filled self arg slot st st'.
Proof.
  intros Harg H. apply take_token_pushes in H as (value & H); [|done].
  by eapply pushes_filled.
Qed.

Lemma tokens_filled (slot : nat) (arg : Argument) (num_args i : nat) (st st' : parse_state)
    (i' : nat) :
  arg ∈ positional self ->
  take_tokens self slot arg arguments num_args i st = Return (i', st') ->
  filled self arg slot st st'.
Proof.
  intros Harg H. apply take_tokens_pushes in H as (tokens & H); [|done].
  by eapply pushes_filled.
Qed.

Lemma exact_body_filled (slot : nat) (arg : Argument) (i : nat) (st : parse_state)
    (i' : nat) (st' : parse_state) :
  arg ∈ positional self ->
  exact_body self arguments slot arg i st = Return (i', st') -> filled self arg slot st st'.
Proof.
  intros Harg. unfold exact_body. apply unless_stored_filled; [done|]. intros H.
  destruct (bool_decide (m_nargs arg = EmptyString) || bool_decide (m_nargs arg = "+")).
  { apply bind_Return in H as (st1 & H1 & H). injection H as <- <-. by eapply token_filled. }
  destruct (bool_decide (m_nargs arg = "?") || bool_decide (m_nargs arg = "*")).
  { apply bind_Return in H as (st1 & H1 & H). injection H as <- <-.
    by eapply store_default_value_filled. }
  by eapply tokens_filled.
Qed.

Lemma greedy_body_filled (slot : nat) (arg : Argument) (locals : nat * nat)
    (st : parse_state) (locals' : nat * nat) (st' : parse_state) :
  arg ∈ positional self ->
  greedy_body self arguments slot arg locals st = Return (locals', st') ->
  filled self arg slot st st'.
Proof.
  intros Harg. unfold greedy_body. destruct locals as [i over_args].
  apply unless_stored_filled; [done|]. intros H.
  destruct (bool_decide (m_nargs arg = EmptyString)).
  { apply bind_Return in H as (st1 & H1 & H). injection H as <- <-. by eapply token_filled. }
  destruct (bool_decide (m_nargs arg = "+")).
  { apply bind_Return in H as (st1 & H1 & H).
    apply bind_Return in H as ([i1 st2] & H2 & H). injection H as <- <-.
    apply take_token_pushes in H1 as (value & H1); [|done].
    apply take_tokens_pushes in H2 as (tokens & H2); [|done].
    eapply pushes_filled. by eapply pushes_app. }
  destruct (bool_decide (m_nargs arg = "?")).
  { apply bind_Return in H as (st1 & H1 & H). injection H as <- <-.
    by eapply store_default_value_filled. }
  destruct (bool_decide (m_nargs arg = "*")).
  { destruct (0 <? over_args).
    - apply bind_Return in H as ([i1 st1] & H1 & H). injection H as <- <-.
      by eapply tokens_filled.
    - apply bind_Return in H as (st1 & H1 & H). injection H as <- <-.
      by eapply store_default_value_filled. }
  apply bind_Return in H as ([i1 st1] & H1 & H). injection H as <- <-.
  by eapply tokens_filled.
Qed.

Lemma one_body_filled (one_args slot : nat) (arg : Argument) (locals : nat * nat)
    (st : parse_state) (locals' : nat * nat) (st' : parse_state) :
  arg ∈ positional self ->
  one_body self arguments one_args slot arg locals st = Return (locals', st') ->
  filled self arg slot st st'.
Proof.
  intros Harg. unfold one_body. destruct locals as [i over_args].
  apply unless_stored_filled; [done|]. intros H.
  destruct (bool_decide (m_nargs arg = EmptyString)).
  { apply bind_Return in H as (st1 & H1 & H). injection H as <- <-. by eapply token_filled. }
  destruct (bool_decide (m_nargs arg = "?")).
  { destruct (over_args <? one_args).
    - apply bind_Return in H as (st1 & H1 & H). injection H as <- <-. by eapply token_filled.
    - apply bind_Return in H as (st1 & H1 & H). injection H as <- <-.
      by eapply store_default_value_filled. }
  apply bind_Return in H as ([i1 st1] & H1 & H). injection H as <- <-.
  by eapply tokens_filled.
Qed.

Lemma rest_body_filled (slot : nat) (arg : Argument) (i : nat) (st : parse_state)
    (i' : nat) (st' : parse_state) :
  arg ∈ positional self ->
  rest_body self arguments slot arg i st = Return (i', st') -> filled self arg slot st st'.
Proof.
  intros Harg. unfold rest_body. apply unless_stored_filled; [done|]. intros H.
  destruct (bool_decide (m_nargs arg = EmptyString)).
  { apply bind_Return in H as (st1 & H1 & H). injection H as <- <-. by eapply token_filled. }
  by eapply tokens_filled.
Qed.

End group.

Lemma required_body_filled (slot : nat) (arg : Argument) (args : string) (st : parse_state)
    (args' : string) (st' : parse_state) :
  arg ∈ positional self ->
  required_body self slot arg args st = Return (args', st') -> filled self arg slot st st'.
Proof.
  intros Harg H. unfold required_body in H.
  assert (forall st1 x,
            (front_flag ← vector_front (m_flags arg);
             Return ((if bool_decide (args = EmptyString) then args else args +:+ ", ")
                       +:+ front_flag, st1)) = Return (x, st') -> st1 = st') as Hname.
  { intros st1 x Hx. apply bind_Return in Hx as (f & _ & Hx). by injection Hx. }
  case_bool_decide as Eargs.
  - revert H. apply unless_stored_filled; [done|]. intros H.
    destruct (bool_decide (m_nargs arg = "?") || bool_decide (m_nargs arg = "*")).
    + apply bind_Return in H as (st2 & H2 & H). injection H as <- <-.
      by eapply store_default_value_filled.
    + apply Hname in H as <-. apply filled_refl.
  - apply Hname in H as <-. apply filled_refl.
Qed.

(** *** The loops over the slots *)

(** A slot that was empty holds, after its turn, what [held] says of the
    tokens stored for it; the other slots are as they were. *)
Lemma filled_slots (arg : Argument) (st st' : parse_state) :
  positional self !! pos st = Some arg ->
  filled self arg (pos st) st st' ->
  slots_filled self st -> slots_filled self (set_pos (S (pos st')) st').
Proof.
  intros Harg (tokens & g & (Hupd & Htr & Hpos) & Hheld) H slot arg' k Hslot Hk.
  destruct (H slot arg' k Hslot Hk) as (values & Hvalues & Hlt & Hge).
  simpl. rewrite Hupd, Htr, consumed_by_app, Hpos.
  destruct (decide (slot = pos st)) as [->|Hne].
  - assert (arg' = arg) as -> by congruence.
    rewrite bool_decide_eq_true_2 by done.
    destruct (Hge (Nat.le_refl _)) as [-> Hnone].
    rewrite Hvalues, Hnone, consumed_by_same. simpl.
    exists (g []). split; [done|]. split; [done|lia].
  - rewrite bool_decide_eq_false_2.
    2:{ intros Hk'. apply Hne. by eapply slot_owner. }
    rewrite consumed_by_other, app_nil_r by done.
    exists values. split; [done|]. split; [intros ?; apply Hlt; lia|intros ?; apply Hge; lia].
Qed.

Lemma for_slots_filled {L : Type}
    (body : nat -> Argument -> L -> parse_state -> outcome (L * parse_state)) :
  (forall slot arg locals st locals' st',
     arg ∈ positional self -> body slot arg locals st = Return (locals', st') ->
     filled self arg slot st st') ->
  forall slots locals st locals' st',
    (forall i arg, slots !! i = Some arg -> positional self !! (pos st + i) = Some arg) ->
    for_slots body slots locals st = Return (locals', st') ->
    slots_filled self st ->
    slots_filled self st' /\ pos st' = pos st + length slots.
Proof.
  intros Hbody slots. induction slots as [|arg slots IH];
    intros locals st locals' st' Hslots H Hst; simpl in H.
  - injection H as <- <-. split; [done|simpl; lia].
  - apply bind_Return in H as ([locals1 st1] & H1 & H).
    pose proof (Hslots 0 arg eq_refl) as Harg. rewrite Nat.add_0_r in Harg.
    apply Hbody in H1; [|by eapply list_elem_of_lookup_2].
    pose proof H1 as (tokens & g & (_ & _ & Hpos) & _).
    apply IH in H as [H Hpos'].
    + split; [done|]. rewrite Hpos'. simpl. lia.
    + intros i arg' Hi. simpl. rewrite Hpos.
      rewrite <- Nat.add_succ_r. by apply Hslots.
    + by apply (filled_slots arg st st1).
Qed.

Lemma lookup_take_drop (slots : list Argument) (n p i : nat) (arg : Argument) :
  take n (drop p slots) !! i = Some arg -> slots !! (p + i) = Some arg.
Proof.
  intros H. destruct (decide (i < n)) as [Hi|Hi].
  - rewrite lookup_take_lt in H by done. by rewrite lookup_drop in H.
  - rewrite lookup_take_ge in H by lia. done.
Qed.

Lemma match_args_partial_filled (arguments : list string) (st st' : parse_state) :
  _match_args_partial self arguments st = Return st' ->
  slots_filled self st -> slots_filled self st'.
Proof.
  intros H Hst. unfold _match_args_partial in H.
  destruct (length (positional self) <=? pos st); [by injection H as <-|].
  destruct (scan_window _ _ _ _ _ _) as [[[finish m] o] b].
  assert (forall i arg,
            take (finish - pos st) (drop (pos st) (positional self)) !! i = Some arg ->
            positional self !! (pos st + i) = Some arg) as Hslots
    by (intros i arg; apply lookup_take_drop).
  destruct (finish =? pos st); [by injection H as <-|].
  destruct (m =? length arguments).
  { apply bind_Return in H as ([i' st1] & H1 & H). injection H as <-.
    eapply (for_slots_filled (exact_body self arguments)) in H1 as [H1 _]; eauto.
    intros. by eapply exact_body_filled. }
  destruct b.
  { apply bind_Return in H as ([[i' over'] st1] & H1 & H). injection H as <-.
    eapply (for_slots_filled (greedy_body self arguments)) in H1 as [H1 _]; eauto.
    intros. by eapply greedy_body_filled. }
  destruct (length arguments <=? m + o).
  { apply bind_Return in H as ([[i' over'] st1] & H1 & H). injection H as <-.
    eapply (for_slots_filled (one_body self arguments o)) in H1 as [H1 _]; eauto.
    intros. by eapply one_body_filled. }
  apply bind_Return in H as ([i' st1] & H1 & H). injection H as <-.
  eapply (for_slots_filled (rest_body self arguments)) in H1 as [H1 _]; eauto.
  intros. by eapply rest_body_filled.
Qed.

Lemma match_groups_filled (groups : list (list string)) (st st' : parse_state) :
  for_each (_match_args_partial self) groups st = Return st' ->
  slots_filled self st -> slots_filled self st'.
Proof.
  revert st. induction groups as [|arguments groups IH]; intros st H Hst; simpl in H.
  - by injection H as <-.
  - apply bind_Return in H as (st1 & H1 & H).
    eapply IH; [exact H|]. by eapply match_args_partial_filled.
Qed.

(** After the loop over the slots that are left, every slot has had its
    turn. *)
Lemma check_required_filled (st st' : parse_state) :
  check_required self st = Return st' ->
  slots_filled self st ->
  slots_filled self st' /\ length (positional self) <= pos st'.
Proof.
  intros H Hst. unfold check_required in H.
  apply bind_Return in H as (required & _ & H).
  destruct (negb (bool_decide (required = [])) || (pos st <? length (positional self)))
    eqn:Eleft.
  - apply bind_Return in H as ([args st1] & H1 & H).
    destruct (bool_decide (_ = EmptyString)); [|done]. injection H as <-.
    eapply (for_slots_filled (required_body self)) in H1 as [H1 Hpos]; eauto.
    + split; [done|]. rewrite Hpos, length_drop. lia.
    + intros. by eapply required_body_filled.
    + intros i arg. by rewrite lookup_drop.
  - injection H as <-. split; [done|].
    apply orb_false_iff in Eleft as [_ Eleft]. by apply Nat.ltb_ge in Eleft.
Qed.

End slots.

(** ** The whole of [resolve] *)

Section resolve.

Variable _is_negative_number : string -> bool.
Variable read_lines : string -> option (list string).
Variable self : ArgumentParser.

Lemma required_body_spec (Hkeys : NoDup (all_keys self)) (slot : nat) (arg : Argument)
    (args : string) (st : parse_state) (args' : string) (st' : parse_state) :
  arg ∈ positional self ->
  required_body self slot arg args st = Return (args', st') ->
  consumed self [] 0 0 st st' /\ pos st' = pos st.
Proof.
  intros Harg H. unfold required_body in H.
  assert (forall st1 x,
            (front_flag ← vector_front (m_flags arg);
             Return ((if bool_decide (args = EmptyString) then args else args +:+ ", ")
                       +:+ front_flag, st1)) = Return (x, st') -> st1 = st') as Hname.
  { intros st1 x Hx. apply bind_Return in Hx as (f & _ & Hx). by injection Hx. }
  case_bool_decide as Eargs.
  - apply (unless_stored_spec self Hkeys [] arg args 0) in H
      as [(Hact & -> & Hc & Hpos)|(st1 & Hc & Hpos & H)]; [done| |done].
    destruct (bool_decide (m_nargs arg = "?") || bool_decide (m_nargs arg = "*")).
    + apply bind_Return in H as (st2 & H2 & H). injection H as <- <-.
      apply (store_default_value_consumed self Hkeys [] arg 0) in H2 as [H2 Hpos2]; [|done].
      split; [by eapply consumed_trans|congruence].
    + apply Hname in H as <-. done.
  - apply Hname in H as <-. split; [apply consumed_refl|done].
Qed.

Lemma check_required_spec (Hkeys : NoDup (all_keys self)) (st st' : parse_state) :
  check_required self st = Return st' ->
  (invariant self st -> invariant self st')
  /\ tokens_of (trace st') = tokens_of (trace st)
  /\ positional_values st' = positional_values st
  /\ unrecognized_args st' = unrecognized_args st.
Proof.
  intros H. unfold check_required in H.
  apply bind_Return in H as (required & _ & H).
  destruct (negb (bool_decide (required = [])) || (pos st <? length (positional self)));
    [|by injection H as <-].
  apply bind_Return in H as ([args st1] & H1 & H).
  destruct (bool_decide (_ = EmptyString)); [|done]. injection H as <-.
  pose (I := fun (rest : list Argument) (_ : string) (st2 : parse_state) =>
               Forall (fun arg => arg ∈ positional self) rest
               /\ consumed self [] 0 0 st st2).
  assert (I [] args st1) as (_ & Hinv & Htok & _ & _ & Hpv & Hun).
  { eapply (for_slots_invariant _ I); [| |exact H1].
    - clear H1. intros arg rest args1 st2 args2 st3 ([Harg Hrest]%Forall_cons & Hc) Hbody.
      apply required_body_spec in Hbody as [Hc' _]; [|done..].
      split; [done|]. apply consumed_set_pos. by eapply (consumed_trans self [] 0 0 0).
    - split; [|apply consumed_refl].
      apply Forall_forall. intros arg Harg. by apply subseteq_drop in Harg. }
  simpl in Htok. rewrite app_nil_r in Htok. done.
Qed.

Lemma check_unrecognized_spec (st st' : parse_state) :
  check_unrecognized self st = Return st' -> st' = st /\ unrecognized_args st = [].
Proof.
  unfold check_unrecognized. case_bool_decide; [|done]. by intros [= <-].
Qed.

Lemma invariant_initial (r0 : gmap string ArgumentValue) :
  created self r0 -> invariant self (initial r0).
Proof.
  intros Hr0. split; simpl.
  - intros arg k Harg Hk. eapply created_lookup; eauto. apply elem_of_app; by right.
  - intros arg k Harg Hk. exists []. split; [|done].
    eapply created_lookup; eauto. apply elem_of_app; by left.
  - by intros arg value ?%elem_of_nil.
  - by intros slot value ?%elem_of_nil.
  - by intros arg _ _ ?%elem_of_nil.
Qed.

(** What holds of the state [parse_known_args] has reached when it enters
    its last loop. *)
Theorem resolve_spec (parsed_arguments : list string) (st : parse_state) :
  resolve _is_negative_number read_lines self parsed_arguments = Return st ->
  (exists r0, created self r0)
  /\ invariant self st
  /\ unrecognized_args st = []
  /\ tokens_of (trace st) = concat (positional_values st).
Proof.
  intros H. unfold resolve in H.
  apply bind_Return in H as (tokens & _ & H).
  apply bind_Return in H as (? & _ & H).
  apply bind_Return in H as (? & _ & H).
  apply bind_Return in H as (r1 & Hr1 & H).
  apply bind_Return in H as (r0 & Hr0 & H).
  apply bind_Return in H as (tokens' & _ & H).
  apply bind_Return in H as (st1 & H1 & H).
  apply bind_Return in H as (st2 & H2 & H).
  apply bind_Return in H as (st3 & H3 & H).
  apply check_unrecognized_spec in H as [-> Hun3].
  assert (created self r0) as Hcreated by (by exists r1).
  pose proof (created_NoDup self r0 Hcreated) as Hkeys.
  apply main_pass_spec in H1 as (Hinv1 & Hpos1 & Htok1 & Hkept1);
    [|done|by apply invariant_initial].
  apply match_groups_spec in H2 as (Hinv2 & Hpv2 & Hun2); [|done].
  apply check_required_spec in H3 as (Hinv3 & Htok3 & Hpv3 & Hun3'); [|done].
  rewrite Hun3' in Hun3. destruct (Hun2 Hun3) as [_ Htok2].
  split; [by exists r0|]. split; [auto|]. split; [congruence|].
  rewrite Htok3, Htok2, Htok1, Hpv3, Hpv2. done.
Qed.

(** When [resolve] returns, every positional slot has had its turn: its
    entries hold what [held] says of the tokens stored for it. *)
Lemma resolve_slots (parsed_arguments : list string) (st : parse_state) :
  resolve _is_negative_number read_lines self parsed_arguments = Return st ->
  forall slot arg k,
    positional self !! slot = Some arg -> k ∈ _get_argument_flags arg ->
    exists values,
      result st !! k = Some (m_action arg, values)
      /\ held self arg (consumed_by slot (trace st)) values.
Proof.
  intros H. unfold resolve in H.
  apply bind_Return in H as (tokens & _ & H).
  apply bind_Return in H as (? & _ & H).
  apply bind_Return in H as (? & _ & H).
  apply bind_Return in H as (r1 & Hr1 & H).
  apply bind_Return in H as (r0 & Hr0 & H).
  apply bind_Return in H as (tokens' & _ & H).
  apply bind_Return in H as (st1 & H1 & H).
  apply bind_Return in H as (st2 & H2 & H).
  apply bind_Return in H as (st3 & H3 & H).
  apply check_unrecognized_spec in H as [-> _].
  assert (created self r0) as Hcreated by (by exists r1).
  pose proof (created_NoDup self r0 Hcreated) as Hkeys.
  assert (slots_filled self (initial r0)) as H0.
  { intros slot arg k Hslot Hk. exists []. split; [|split; [simpl; lia|done]].
    eapply created_lookup; eauto. apply elem_of_app. left.
    by eapply list_elem_of_lookup_2. }
  apply main_pass_spec in H1 as (_ & Hpos1 & _ & Hkept1);
    [|done|by apply invariant_initial].
  apply (slots_filled_kept self _ _ Hkept1 Hpos1) in H0.
  apply (match_groups_filled self Hkeys _ _ _ H2) in H0.
  apply (check_required_filled self Hkeys _ _ H3) in H0 as [H0 Hpos3].
  intros slot arg k Hslot Hk.
  destruct (H0 slot arg k Hslot Hk) as (values & Hvalues & Hlt & _).
  exists values. split; [done|]. apply Hlt.
  apply lookup_lt_Some in Hslot. lia.
Qed.

End resolve.

(** ** The last loop of parse_known_args *)

Section finalization.

Variable self : ArgumentParser.

Lemma lookup_materialize_defaults (result : gmap string ArgumentValue) (key : string) :
  materialize_defaults self result !! key = materialize self key <$> result !! key.
Proof.
  unfold materialize_defaults. rewrite map_lookup_imap. by destruct (result !! key).
Qed.

Lemma find_the {A : Type} (P : A -> bool) (l : list A) (a : A) :
  a ∈ l -> P a = true -> (forall b, b ∈ l -> P b = true -> b = a) -> List.find P l = Some a.
Proof.
  induction l as [|x l IH]; intros Ha HP Huniq; [by apply elem_of_nil in Ha|].
  simpl. destruct (P x) eqn:Ex.
  - f_equal. apply Huniq; [by left|done].
  - apply IH; [|done|].
    + apply elem_of_cons in Ha as [->|Ha]; [congruence|done].
    + intros b Hb. apply Huniq. by right.
Qed.

(** The argument the last loop finds for a key of [arg], when no other
    argument declares the key as a flag. *)
Lemma get_optional_arg_by_dest_own (arg : Argument) (k : string) :
  NoDup (all_keys self) -> arg ∈ optional self -> flags_unshared self arg ->
  k ∈ _get_argument_flags arg ->
  _get_optional_arg_by_dest (optional self) k = Some arg.
Proof.
  intros Hnd Harg Hun Hk. apply find_the; [done| |].
  - unfold _get_argument_flags in Hk. case_bool_decide as Hdest.
    + rewrite (bool_decide_eq_true_2 (k ∈ m_flags arg)) by done. apply orb_true_r.
    + apply list_elem_of_singleton in Hk as ->.
      by rewrite (bool_decide_eq_true_2 (m_dest arg = m_dest arg)) by done.
  - intros other Hother Hfound. destruct (decide (other = arg)) as [|Hne]; [done|].
    exfalso. apply orb_true_iff in Hfound as [Hfound|Hfound].
    + apply andb_true_iff in Hfound as [Hdest Hkey].
      apply negb_true_iff, bool_decide_eq_false in Hdest.
      apply bool_decide_eq_true in Hkey.
      apply Hne. eapply (key_owner self other arg k); [done| | | |done].
      * apply elem_of_app; by right.
      * apply elem_of_app; by right.
      * unfold _get_argument_flags. rewrite bool_decide_eq_false_2 by done.
        rewrite Hkey. by left.
    + apply bool_decide_eq_true in Hfound. by eapply Hun.
Qed.

Lemma get_optional_arg_by_dest_Some (optional : list Argument) (key : string) (arg : Argument) :
  _get_optional_arg_by_dest optional key = Some arg -> arg ∈ optional.
Proof. intros [Hin _]%find_some. by apply list_elem_of_In. Qed.

(** A value of a sequence the trace accounts for was stored by
    [_store_value], when the action stores values. *)
Lemma values_of_stored (arg : Argument) (trace : list event) (value : string) :
  m_action arg ∈ [store; append; extend] ->
  value ∈ values_of arg trace -> Value arg value ∈ trace.
Proof.
  intros Hact. induction trace as [|e trace IH] using rev_ind; [by intros ?%elem_of_nil|].
  rewrite values_of_snoc, elem_of_app. intros Hin.
  destruct e as [arg'|arg' value'| |]; simpl in Hin; auto.
  - destruct (decide (arg' = arg)) as [->|]; [|auto].
    rewrite !elem_of_cons, elem_of_nil in Hact.
    destruct Hact as [E|[E|[E|[]]]]; rewrite E in Hin; auto.
    by apply elem_of_nil in Hin.
  - destruct (decide (arg' = arg)) as [->|]; [|auto].
    apply elem_of_app in Hin as [Hin|Hin]; [auto|].
    apply list_elem_of_singleton in Hin as ->. right. by left.
Qed.

(** The values stored for [arg] since it was matched last. *)
Lemma values_of_last (arg : Argument) (before after : list event) :
  m_action arg = store -> Spec arg ∉ after ->
  values_of arg (before ++ Spec arg :: after) = stored_values arg after.
Proof.
  intros Hact Hlast. unfold values_of. rewrite foldl_app. simpl.
  rewrite decide_True by done. rewrite Hact.
  change (foldl (apply_event arg) [] after = [] ++ stored_values arg after).
  generalize (@nil string) as values. revert Hlast.
  induction after as [|e after IH]; intros Hlast values; simpl; [by rewrite app_nil_r|].
  apply not_elem_of_cons in Hlast as [He Hlast]. rewrite (IH Hlast).
  destruct e as [arg'|arg' value'| |]; simpl; try done.
  - rewrite decide_False by congruence. done.
  - destruct (decide (arg' = arg)); [|done]. by rewrite <- app_assoc.
Qed.

(** What the trace accounts for when the action is [store_const],
    [store_true] or [store_false]: the const value, once the argument has been
    matched. *)
Lemma values_of_const (arg : Argument) (trace : list event) :
  m_action arg ∈ [store_const; store_true; store_false] ->
  (forall value, Value arg value ∉ trace) ->
  values_of arg trace = if bool_decide (Spec arg ∈ trace) then [m_const arg] else [].
Proof.
  intros Hact. induction trace as [|e trace IH] using rev_ind; intros Hno.
  - rewrite bool_decide_eq_false_2; [done|]. by intros ?%elem_of_nil.
  - rewrite values_of_snoc, IH.
    2:{ intros value Hin. apply (Hno value). apply elem_of_app. by left. }
    assert (e <> Spec arg ->
            bool_decide (Spec arg ∈ trace ++ [e]) = bool_decide (Spec arg ∈ trace)) as Hsame.
    { intros He. apply bool_decide_ext. rewrite elem_of_app, list_elem_of_singleton.
      split; [|auto]. intros [?|?]; [done|congruence]. }
    destruct e as [arg'|arg' value'| |]; simpl.
    + destruct (decide (arg' = arg)) as [->|Hne].
      * rewrite (bool_decide_eq_true_2 (Spec arg ∈ trace ++ [Spec arg])).
        2:{ apply elem_of_app. right. by left. }
        rewrite !elem_of_cons, elem_of_nil in Hact.
        destruct Hact as [E|[E|[E|[]]]]; rewrite E;
          by destruct (bool_decide (Spec arg ∈ trace)).
      * rewrite Hsame by congruence. done.
    + destruct (decide (arg' = arg)) as [->|Hne].
      * exfalso. apply (Hno value'). apply elem_of_app. right. by left.
      * by rewrite Hsame.
    + by rewrite Hsame.
    + by rewrite Hsame.
Qed.

Lemma sum_list_fmap_cons {A : Type} (f : A -> nat) (x : A) (l : list A) :
  sum_list (f <$> x :: l) = f x + sum_list (f <$> l).
Proof. done. Qed.

Lemma sum_list_fmap_zero {A : Type} (f : A -> nat) (l : list A) :
  (forall x, f x = 0) -> sum_list (f <$> l) = 0.
Proof.
  intros Hf. induction l as [|x l IH]; [done|]. by rewrite sum_list_fmap_cons, Hf, IH.
Qed.

Lemma consumed_by_cons (slot : nat) (e : event) (trace : list event) :
  consumed_by slot (e :: trace) = consumed_by slot [e] ++ consumed_by slot trace.
Proof. unfold consumed_by. simpl. by rewrite app_nil_r. Qed.

Lemma consumed_by_one (slot : nat) (value : string) (start len : nat) :
  sum_list ((fun slot' => length (consumed_by slot' [Token slot value])) <$> seq start len)
  = if bool_decide (start <= slot < start + len) then 1 else 0.
Proof.
  revert start. induction len as [|len IH]; intros start.
  - simpl. rewrite bool_decide_eq_false_2; [done|lia].
  - rewrite <- cons_seq, sum_list_fmap_cons, IH. unfold consumed_by. simpl.
    destruct (decide (slot = start)) as [->|Hne]; simpl.
    + rewrite bool_decide_eq_false_2 by lia. rewrite bool_decide_eq_true_2 by lia. done.
    + apply (f_equal (fun b : bool => if b then 1 else 0)).
      apply bool_decide_ext. lia.
Qed.

(** The tokens of the slots add up to the tokens stored. *)
Lemma consumed_by_sum (n : nat) (trace : list event) :
  (forall slot value, Token slot value ∈ trace -> slot < n) ->
  sum_list ((fun slot => length (consumed_by slot trace)) <$> seq 0 n)
  = length (tokens_of trace).
Proof.
  induction trace as [|e trace IH]; intros Hslots.
  - by apply sum_list_fmap_zero.
  - assert (forall slot value, Token slot value ∈ trace -> slot < n) as Hslots'.
    { intros slot value Hin. eapply Hslots. right. exact Hin. }
    specialize (IH Hslots').
    assert (forall l : list nat,
              sum_list ((fun slot => length (consumed_by slot (e :: trace))) <$> l)
              = sum_list ((fun slot => length (consumed_by slot [e])) <$> l)
                + sum_list ((fun slot => length (consumed_by slot trace)) <$> l)) as Hsplit.
    { intros l. induction l as [|x l IHl]; [done|].
      rewrite !sum_list_fmap_cons, IHl, consumed_by_cons, length_app. lia. }
    rewrite Hsplit, IH. change (e :: trace) with ([e] ++ trace).
    rewrite tokens_of_app, length_app. f_equal.
    destruct e as [| |slot value|].
    1,2,4: by apply sum_list_fmap_zero.
    rewrite consumed_by_one. rewrite bool_decide_eq_true_2; [done|].
    split; [lia|]. eapply Hslots. by left.
Qed.

End finalization.

(** ** Abbreviations *)

Section abbreviations.

Variable self : ArgumentParser.
Variable arg : string.

Lemma abbreviations_keys (l : list Argument) (acc : bool * string * list string) :
  (foldl (abbreviations_step arg) acc l).2 = acc.2 ++ flat_map (pushed arg) l.
Proof.
  revert acc. induction l as [|opt l IH]; intros [[b args] keys]; simpl.
  - by rewrite app_nil_r.
  - rewrite IH. unfold pushed at 2.
    destruct (abbreviation arg (m_flags opt)) as [[[added key] flag]|]; simpl; [|done].
    by rewrite <- app_assoc.
Qed.

(** Where no two-character flag is a prefix of the token, the loop over the
    flags of an argument finds the first flag the token is a prefix of. *)
Lemma abbreviation_first (flags : list string) :
  List.filter (fun flag => (String.length flag =? 2) && _starts_with arg flag) flags = [] ->
  abbreviation arg flags
  = match List.filter (fun flag => _starts_with flag arg) flags with
    | [] => None
    | flag :: _ => Some (true, flag, flag)
    end.
Proof.
  induction flags as [|flag flags IH]; simpl; [done|].
  destruct ((String.length flag =? 2) && _starts_with arg flag); [done|].
  intros H. destruct (_starts_with flag arg); [done|]. auto.
Qed.

Lemma abbreviations_unique (l : list Argument) (b : bool) (args : string) (keys : list string) :
  List.filter (fun flag => (String.length flag =? 2) && _starts_with arg flag)
              (flat_map m_flags l) = [] ->
  length (List.filter (fun flag => _starts_with flag arg) (flat_map m_flags l)) <= 1 ->
  exists args',
    foldl (abbreviations_step arg) (b, args, keys) l
    = (b || negb (bool_decide
                    (List.filter (fun flag => _starts_with flag arg) (flat_map m_flags l) = [])),
       args',
       keys ++ List.filter (fun flag => _starts_with flag arg) (flat_map m_flags l)).
Proof.
  revert b args keys. induction l as [|opt l IH]; intros b args keys; simpl.
  - intros _ _. exists args. by rewrite orb_false_r, app_nil_r.
  - rewrite !List.filter_app. intros [Hshort Hshort']%app_eq_nil. rewrite length_app. intros Hlen.
    rewrite (abbreviation_first _ Hshort).
    destruct (List.filter (fun flag => _starts_with flag arg) (m_flags opt))
      as [|flag [|flag' more]] eqn:E; simpl in Hlen; [| |lia].
    + apply IH; [done|lia].
    + destruct (List.filter (fun flag => _starts_with flag arg) (flat_map m_flags l))
        as [|x more] eqn:E'; [|simpl in Hlen; lia].
      destruct (IH (b || true) ((if bool_decide (args = EmptyString) then args
                                else args +:+ ",") +:+ " " +:+ flag)
                  (keys ++ [flag]) Hshort') as (args' & ->); [simpl; lia|].
      exists args'. simpl. by rewrite !orb_true_r, app_nil_r.
Qed.

(** The loop over the flags of an argument finds its candidate. *)
Lemma abbreviation_candidate (opt : Argument) :
  abbreviation arg (m_flags opt)
  = match candidate arg opt with
    | Some flag =>
        Some (_starts_with flag arg, if _starts_with flag arg then flag else arg, flag)
    | None => None
    end.
Proof.
  unfold candidate. induction (m_flags opt) as [|flag flags IH]; simpl; [done|].
  destruct (_starts_with flag arg) eqn:E; simpl; [by rewrite E|].
  destruct ((String.length flag =? 2) && _starts_with arg flag); [by rewrite E|done].
Qed.

Lemma listing_from (args : string) (flags : list string) :
  args <> EmptyString ->
  foldl (fun args flag =>
           (if bool_decide (args = EmptyString) then args else args +:+ ",") +:+ " " +:+ flag)
        args flags
  = match flags with
    | [] => args
    | _ => args +:+ "," +:+ listing flags
    end.
Proof.
  revert args. induction flags as [|flag flags IH]; intros args Hargs; [done|].
  simpl foldl. rewrite (bool_decide_eq_false_2 (args = EmptyString)) by done.
  rewrite IH by (by apply append_not_empty, append_not_empty).
  unfold listing. destruct flags as [|next flags]; cbn [fmap list_fmap String.concat];
    by rewrite ?append_assoc.
Qed.

Lemma listing_spec (flags : list string) :
  foldl (fun args flag =>
           (if bool_decide (args = EmptyString) then args else args +:+ ",") +:+ " " +:+ flag)
        EmptyString flags
  = listing flags.
Proof.
  destruct flags as [|flag flags]; [done|]. simpl foldl.
  rewrite append_nil_l, listing_from by done.
  unfold listing. by destruct flags.
Qed.

(** [args] and the number of [keys] after the loop over the arguments. *)
Lemma abbreviations_candidates (l : list Argument) (acc : bool * string * list string) :
  (foldl (abbreviations_step arg) acc l).1.2
  = foldl (fun args flag =>
             (if bool_decide (args = EmptyString) then args else args +:+ ",")
               +:+ " " +:+ flag)
          acc.1.2 (omap (candidate arg) l)
  /\ length (foldl (abbreviations_step arg) acc l).2
     = length acc.2 + length (omap (candidate arg) l).
Proof.
  revert acc. induction l as [|opt l IH]; intros [[b args] keys]; simpl; [split; [done|lia]|].
  rewrite abbreviation_candidate.
  destruct (candidate arg opt) as [flag|]; simpl; [|apply IH].
  destruct (IH (b || _starts_with flag arg,
                (if bool_decide (args = EmptyString) then args else args +:+ ",")
                  +:+ " " +:+ flag,
                keys ++ [if _starts_with flag arg then flag else arg])) as [-> ->].
  split; [done|]. simpl. rewrite length_app. simpl.
  change (@list_omap Argument string (candidate arg) l) with (omap (candidate arg) l). lia.
Qed.

End abbreviations.

Lemma abbreviations_fold (self : ArgumentParser) (arg : string) :
  abbreviations self arg = foldl (abbreviations_step arg) (false, EmptyString, []) (optional self).
Proof.
  unfold abbreviations. generalize (false, EmptyString, @nil string).
  induction (optional self) as [|opt l IH]; intros [[b args] keys]; [done|]. simpl. apply IH.
Qed.

(** Two candidates or more: the ambiguity is reported, with the candidates
    listed. *)
Lemma check_abbreviation_ambiguous (_is_negative_number : string -> bool)
    (self : ArgumentParser) (result : gmap string ArgumentValue) (arg : string) :
  m_allow_abbrev self = true ->
  checked _is_negative_number self result arg = true ->
  2 <= length (candidates self arg) ->
  _check_abbreviation _is_negative_number self result arg
  = Throw (std_logic_error (m_prog self +:+ ": error: " +:+ "ambiguous option: '"
                              +:+ arg +:+ "' could match" +:+ listing (candidates self arg))).
Proof.
  intros Hallow Hchecked Hmany. unfold checked in Hchecked. unfold _check_abbreviation.
  rewrite Hchecked, Hallow, abbreviations_fold.
  destruct (abbreviations_candidates arg (optional self) (false, EmptyString, []))
    as [Hargs Hkeys].
  destruct (foldl _ _ (optional self)) as [[is_flag_added args] keys].
  simpl in Hargs, Hkeys. rewrite listing_spec in Hargs. subst args.
  rewrite (proj2 (Nat.ltb_lt 1 (length keys))); [done|].
  rewrite Hkeys. unfold candidates in Hmany. lia.
Qed.

(** A key of the result is not looked at. *)
Lemma check_abbreviation_key (_is_negative_number : string -> bool)
    (self : ArgumentParser) (result : gmap string ArgumentValue) (arg : string) :
  result !! arg <> None ->
  _check_abbreviation _is_negative_number self result arg = Return [arg].
Proof.
  intros Hkey. unfold _check_abbreviation.
  rewrite (bool_decide_eq_false_2 (result !! arg = None)) by done.
  by rewrite andb_false_r.
Qed.

Lemma omap_two {A B : Type} (f : A -> option B) (l : list A) (i j : nat) (a b : A) :
  l !! i = Some a -> l !! j = Some b -> i <> j -> is_Some (f a) -> is_Some (f b) ->
  2 <= length (omap f l).
Proof.
  assert (forall x l, length (omap f (x :: l))
                      = match f x with Some _ => 1 | None => 0 end + length (omap f l)) as Hcons.
  { intros x l'.
    change (omap f (x :: l'))
      with (match f x with Some y => y :: omap f l' | None => omap f l' end).
    by destruct (f x). }
  assert (forall (l : list A) i a, l !! i = Some a -> is_Some (f a) -> 1 <= length (omap f l))
    as Hone.
  { clear -Hcons. intros l. induction l as [|x l IH]; intros i a Hi [y Hy]; [by destruct i|].
    rewrite Hcons. destruct i as [|i]; simpl in Hi.
    - injection Hi as ->. rewrite Hy. lia.
    - specialize (IH i a Hi (ex_intro _ y Hy)). lia. }
  revert i j. induction l as [|x l IH]; intros i j Hi Hj Hne Ha Hb; [by destruct i|].
  rewrite Hcons. destruct i as [|i], j as [|j]; simpl in Hi, Hj; [done| | |].
  - injection Hi as ->. destruct Ha as [y ->]. specialize (Hone l j b Hj Hb). lia.
  - injection Hj as ->. destruct Hb as [y ->]. specialize (Hone l i a Hi Ha). lia.
  - assert (i <> j) as Hne' by congruence. specialize (IH i j Hi Hj Hne' Ha Hb). lia.
Qed.

Lemma candidate_extension (arg : string) (opt : Argument) :
  existsb (fun flag => _starts_with flag arg) (m_flags opt) = true ->
  is_Some (candidate arg opt).
Proof.
  unfold candidate. induction (m_flags opt) as [|flag flags IH]; simpl; [done|].
  destruct (_starts_with flag arg); simpl; [by eexists|]. intros H.
  destruct ((String.length flag =? 2) && _starts_with arg flag); [by eexists|]. auto.
Qed.

(** ** What a parse throws *)

Section raises.

Variable _is_negative_number : string -> bool.
Variable read_lines : string -> option (list string).
Variable self : ArgumentParser.

Lemma raises_Return {A : Type} (a : A) : raises self (Return a).
Proof. by intros e. Qed.

Lemma raises_Exit {A : Type} (status : N) : raises self (@Exit A status).
Proof. by intros e. Qed.

Lemma raises_Undefined {A : Type} : raises self (@Undefined A).
Proof. by intros e. Qed.

Lemma raises_bind {A B : Type} (m : outcome A) (f : A -> outcome B) :
  raises self m -> (forall a, m = Return a -> raises self (f a)) -> raises self (m ≫= f).
Proof.
  intros Hm Hf e. destruct m as [a|e'| |]; simpl; try done.
  - by apply Hf.
  - intros [= <-]. by apply Hm.
Qed.

Lemma raises_handle_error {A : Type} (problem : string) :
  user_problem problem -> raises self (@handle_error self A problem).
Proof. intros H e [= <-]. simpl. by exists problem. Qed.

Lemma raises_for_each {A S : Type} (body : A -> S -> outcome S) (l : list A) (s : S) :
  (forall x s, raises self (body x s)) -> raises self (for_each body l s).
Proof.
  intros Hbody. revert s. induction l as [|x l IH]; intros s; simpl.
  - apply raises_Return.
  - apply raises_bind; [apply Hbody|]. intros s' _. apply IH.
Qed.

Lemma raises_vector_front {A : Type} (vec : list A) : raises self (vector_front vec).
Proof. by destruct vec. Qed.

Lemma raises_vector_back {A : Type} (vec : list A) : raises self (vector_back vec).
Proof. unfold vector_back. by destruct (last vec). Qed.

Lemma raises_vector_at {A : Type} (vec : list A) (i : nat) : raises self (vector_at vec i).
Proof. unfold vector_at. destruct (vec !! i); [done|]. intros e [= <-]. by left. Qed.

Lemma raises_at_values (g : list string -> list string) (flag : string)
    (result : gmap string ArgumentValue) :
  raises self (at_values g flag result).
Proof. unfold at_values. destruct (result !! flag); [done|]. intros e [= <-]. by right. Qed.

Lemma raises_append_to_back (flags : list string) (str : string) :
  raises self (append_to_back flags str).
Proof. unfold append_to_back. by destruct (last flags). Qed.

Create HintDb raises discriminated.

#[local] Hint Resolve raises_Return raises_Exit raises_Undefined raises_vector_front
  raises_vector_back raises_vector_at raises_at_values raises_append_to_back : raises.
#[local] Hint Constructors user_problem : raises.

(** One step through a body: a bind, a loop, a branch, or a leaf. *)
Ltac raises_step :=
  match goal with
  | |- raises _ (_ ≫= _) => apply raises_bind; [|intros ? _]
  | |- raises _ (for_each _ _ _) => apply raises_for_each; intros
  | |- raises _ (handle_error _ _) => apply raises_handle_error; auto with raises
  | |- raises _ (if ?b then _ else _) => destruct b
  | |- raises _ (match ?x with _ => _ end) => destruct x
  | |- raises _ (let '(_, _) := ?x in _) => destruct x
  | |- raises _ _ => solve [auto with raises]
  end.

Ltac raises_body := repeat raises_step.

Lemma raises_expand_files (parsed_arguments : list string) :
  raises self (expand_files read_lines self parsed_arguments).
Proof.
  unfold expand_files, convert_arg_line_to_args. raises_body.
Qed.

Lemma raises_validate_arguments (arguments : list Argument) :
  raises self (_validate_arguments arguments).
Proof.
  unfold _validate_arguments. raises_body. by intros e [= <-].
Qed.

Lemma raises_validate_argument_value (arg : Argument) (value : string) :
  raises self (_validate_argument_value self arg value).
Proof. unfold _validate_argument_value. raises_body. Qed.

Lemma raises_create_result (arguments : list Argument) (result : gmap string ArgumentValue) :
  raises self (_create_result arguments result).
Proof.
  unfold _create_result. raises_body. intros e [= <-]. simpl. by eexists.
Qed.

Lemma raises_store_value (arg : Argument) (value : string) (st : parse_state) :
  raises self (_store_value self arg value st).
Proof. unfold _store_value. pose proof raises_validate_argument_value. raises_body. Qed.

Lemma raises_store_default_value (arg : Argument) (st : parse_state) :
  raises self (_store_default_value self arg st).
Proof. unfold _store_default_value. raises_body. Qed.

Lemma raises_store_const_value (arg : Argument) (st : parse_state) :
  raises self (_store_const_value arg st).
Proof. unfold _store_const_value. raises_body. Qed.

Lemma raises_append_const_value (arg : Argument) (st : parse_state) :
  raises self (_append_const_value self arg st).
Proof. unfold _append_const_value. raises_body. Qed.

Lemma raises_store_count_value (arg : Argument) (st : parse_state) :
  raises self (_store_count_value arg st).
Proof. unfold _store_count_value. raises_body. Qed.

#[local] Hint Resolve raises_expand_files raises_validate_arguments
  raises_validate_argument_value raises_create_result raises_store_value
  raises_store_default_value raises_store_const_value raises_append_const_value
  raises_store_count_value : raises.

Lemma raises_is_positional_arg_stored (arg : Argument) (st : parse_state) :
  raises self (_is_positional_arg_stored self arg st).
Proof. unfold _is_positional_arg_stored. raises_body. Qed.

Lemma raises_take_token (slot : nat) (arg : Argument) (arguments : list string) (i : nat)
    (st : parse_state) :
  raises self (take_token self slot arg arguments i st).
Proof. unfold take_token. raises_body. Qed.

#[local] Hint Resolve raises_is_positional_arg_stored raises_take_token : raises.

Lemma raises_take_tokens (slot : nat) (arg : Argument) (arguments : list string)
    (num_args i : nat) (st : parse_state) :
  raises self (take_tokens self slot arg arguments num_args i st).
Proof.
  revert i st. induction num_args as [|num_args IH]; intros i st; simpl; raises_body.
Qed.

#[local] Hint Resolve raises_take_tokens : raises.

Lemma raises_for_slots {L : Type}
    (body : nat -> Argument -> L -> parse_state -> outcome (L * parse_state))
    (slots : list Argument) (locals : L) (st : parse_state) :
  (forall slot arg locals st, raises self (body slot arg locals st)) ->
  raises self (for_slots body slots locals st).
Proof.
  intros Hbody. revert locals st.
  induction slots as [|arg slots IH]; intros locals st; simpl; [apply raises_Return|].
  apply raises_bind; [apply Hbody|]. intros [locals' st'] _. apply IH.
Qed.

Lemma raises_unless_stored {L : Type} (arg : Argument) (locals : L) (st : parse_state)
    (otherwise : parse_state -> outcome (L * parse_state)) :
  (forall st, raises self (otherwise st)) ->
  raises self (unless_stored self arg locals st otherwise).
Proof. intros H. unfold unless_stored. raises_body. Qed.

Lemma raises_match_args_partial (arguments : list string) (st : parse_state) :
  raises self (_match_args_partial self arguments st).
Proof.
  unfold _match_args_partial. raises_body.
  all: apply raises_for_slots; intros slot arg locals st';
    unfold exact_body, greedy_body, one_body, rest_body;
    repeat match goal with |- context [let '(_, _) := ?x in _] => destruct x end;
    apply raises_unless_stored; intros; raises_body.
Qed.

Lemma raises_separate_loop (arg name_i : string) (i : nat) (flags : list string) :
  raises self (separate_loop self arg name_i i flags).
Proof.
  revert i flags. induction name_i as [|c tail IH]; intros i flags; simpl; raises_body.
Qed.

#[local] Hint Resolve raises_match_args_partial raises_separate_loop : raises.

Lemma raises_separate_arg_abbrev (arg name : string) :
  raises self (_separate_arg_abbrev self arg name).
Proof. unfold _separate_arg_abbrev. raises_body. Qed.

#[local] Hint Resolve raises_separate_arg_abbrev : raises.

Lemma raises_check_abbreviations (result : gmap string ArgumentValue) (arguments : list string) :
  raises self (_check_abbreviations _is_negative_number self result arguments).
Proof. unfold _check_abbreviations, _check_abbreviation. raises_body. Qed.

Lemma raises_store_follower (temp : Argument) (value : string) (st : parse_state) :
  raises self (store_follower self temp value st).
Proof. unfold store_follower. raises_body. Qed.

#[local] Hint Resolve raises_check_abbreviations raises_store_follower : raises.

Lemma raises_no_follower (temp : Argument) (arg : string) (st : parse_state) :
  raises self (no_follower self temp arg st).
Proof. unfold no_follower. raises_body. Qed.

#[local] Hint Resolve raises_no_follower : raises.

Lemma raises_followers (temp : Argument) (arg : string) (rest : list string) (n : N)
    (st : parse_state) :
  raises self (followers _is_negative_number self temp arg rest n st).
Proof.
  revert n st. induction rest as [|next rest IH]; intros n st; simpl; raises_body.
Qed.

#[local] Hint Resolve raises_followers : raises.

Lemma raises_optional_argument (temp : Argument) (arg : string) (splitted rest : list string)
    (st : parse_state) :
  raises self (optional_argument _is_negative_number self temp arg splitted rest st).
Proof.
  unfold optional_argument. raises_body. by intros e [= <-].
Qed.

#[local] Hint Resolve raises_optional_argument : raises.

Lemma raises_main_pass (fuel : nat) (parsed_arguments : list string) (st : parse_state) :
  raises self (main_pass _is_negative_number self fuel parsed_arguments st).
Proof.
  revert parsed_arguments st.
  induction fuel as [|fuel IH]; intros parsed_arguments st; simpl; raises_body.
Qed.

Lemma raises_some_empty (flags : list string) (result : gmap string ArgumentValue) :
  raises self (some_empty flags result).
Proof.
  induction flags as [|flag flags IH]; simpl; raises_body. intros e [= <-]. by right.
Qed.

#[local] Hint Resolve raises_main_pass raises_some_empty : raises.

Lemma raises_check_required (st : parse_state) : raises self (check_required self st).
Proof.
  unfold check_required, required_args. raises_body.
  apply raises_for_slots. intros slot arg args st'. unfold required_body.
  raises_body; apply raises_unless_stored; intros; raises_body.
Qed.

Lemma raises_check_unrecognized (st : parse_state) : raises self (check_unrecognized self st).
Proof. unfold check_unrecognized. raises_body. Qed.

#[local] Hint Resolve raises_check_required raises_check_unrecognized : raises.


End raises.

(** ** The builder methods *)

(** What [action(store_true)] and [action(store_false)] leave in the
    argument; neither throws. *)
Lemma action_store_true (self : Argument) :
  exists self', Argument.action store_true self = Built self'
    /\ m_action self' = store_true /\ m_default self' = "0" /\ m_const self' = "1"
    /\ m_nargs self' = "0" /\ m_num_args self' = 0%N /\ m_choices self' = [].
Proof. unfold Argument.action. eexists. split; [reflexivity|]. by repeat case_bool_decide. Qed.

Lemma action_store_false (self : Argument) :
  exists self', Argument.action store_false self = Built self'
    /\ m_action self' = store_false /\ m_default self' = "1" /\ m_const self' = "0"
    /\ m_nargs self' = "0" /\ m_num_args self' = 0%N /\ m_choices self' = [].
Proof. unfold Argument.action. eexists. split; [reflexivity|]. by repeat case_bool_decide. Qed.

(** ** What a parse that returns has stored *)

Lemma parse_known_args_resolve (_is_negative_number : string -> bool)
    (read_lines : string -> option (list string)) (self : ArgumentParser)
    (parsed_arguments : list string) (st : parse_state) :
  resolve _is_negative_number read_lines self parsed_arguments = Return st ->
  parse_known_args _is_negative_number read_lines self parsed_arguments
  = Return (Namespace.mkNamespace (materialize_defaults self (result st)) (m_prefix_chars self)).
Proof. intros H. unfold parse_known_args. by rewrite H. Qed.

(** * Properties of the parser *)

(** C1 (as the code has it): after a parse that returns, a value held for an
    argument with choices, whose action stores values, is one of the choices
    once its quotes are removed, or it is a default the parse put there:
    that of the argument, or that of the optional argument the last loop
    finds for the key.  Defaults are not validated. *)
Theorem stored_value_in_choices_or_default (_is_negative_number : string -> bool)
    (read_lines : string -> option (list string)) (self : ArgumentParser)
    (parsed_arguments : list string) (ns : Namespace) (arg : Argument) (key : string)
    (action : Action) (values : list string) (value : string) :
  parse_known_args _is_negative_number read_lines self parsed_arguments = Return ns ->
  arg ∈ all_arguments self ->
  m_choices arg <> [] ->
  m_action arg ∈ [store; append; extend] ->
  key ∈ _get_argument_flags arg ->
  Namespace.m_arguments ns !! key = Some (action, values) ->
  value ∈ values ->
  _remove_quotes value ∈ m_choices arg
  \/ value = _default_arg_value self arg
  \/ exists other, _get_optional_arg_by_dest (optional self) key = Some other
                   /\ value = _default_arg_value self other.
Proof.
  intros H Harg Hchoices Hact Hkey Hlookup Hvalue.
  apply bind_Return in H as (st & Hst & H). injection H as <-. simpl in Hlookup.
  apply resolve_spec in Hst as (_ & [Hopt Hpos Hval _ _] & _).
  rewrite lookup_materialize_defaults in Hlookup.
  assert (forall held,
            result st !! key = Some (m_action arg, held) ->
            (forall v, v ∈ held ->
                       _remove_quotes v ∈ m_choices arg \/ v = _default_arg_value self arg) ->
            _remove_quotes value ∈ m_choices arg
            \/ value = _default_arg_value self arg
            \/ exists other, _get_optional_arg_by_dest (optional self) key = Some other
                             /\ value = _default_arg_value self other) as Hfinal.
  { intros held Hheld Hall. rewrite Hheld in Hlookup. simpl in Hlookup.
    unfold materialize in Hlookup. simpl in Hlookup.
    destruct (bool_decide (held = []) && negb (bool_decide (m_action arg = count))) eqn:Eempty.
    - apply andb_true_iff in Eempty as [->%bool_decide_eq_true _].
      destruct (_get_optional_arg_by_dest (optional self) key) as [other|] eqn:Eother.
      + destruct (bool_decide (_default_arg_value self other = EmptyString)).
        * injection Hlookup as <- <-. by apply elem_of_nil in Hvalue.
        * injection Hlookup as <- <-. apply list_elem_of_singleton in Hvalue.
          right. right. by exists other.
      + injection Hlookup as <- <-. by apply elem_of_nil in Hvalue.
    - injection Hlookup as <- <-. destruct (Hall _ Hvalue); auto. }
  apply elem_of_app in Harg as [Harg|Harg].
  - destruct (Hpos _ _ Harg Hkey) as (held & Hheld & Hall).
    apply (Hfinal held Hheld). intros v Hv.
    specialize (Hall Hact). rewrite Forall_forall in Hall.
    destruct (Hall _ Hv) as [[Hnone|Hin]|Hdefault]; [done|by left|by right].
  - apply (Hfinal _ (Hopt _ _ Harg Hkey)). intros v Hv.
    apply values_of_stored in Hv; [|done].
    destruct (Hval _ _ Hv) as [[Hnone|Hin] _]; [done|by left].
Qed.

Lemma stored_value_in_choices_or_default_witness :
  let self := parser_of schema_level in
  let arg := default (Argument_new [] EmptyString Optional) (last (optional self)) in
  exists ns,
    parse_known_args negative_decimal no_file self ["--level"; "low"] = Return ns
    /\ arg ∈ all_arguments self
    /\ m_choices arg = ["low"; "med"; "high"]
    /\ Namespace.m_arguments ns !! "--level" = Some (store, ["low"])
    /\ (_remove_quotes "low" ∈ m_choices arg
        \/ "low" = _default_arg_value self arg
        \/ exists other, _get_optional_arg_by_dest (optional self) "--level" = Some other
                         /\ "low" = _default_arg_value self other).
Proof.
  intros self arg. eexists. split; [vm_compute; reflexivity|].
  split; [vm_compute; right; left|]. split; [reflexivity|]. split; [vm_compute; reflexivity|].
  eapply (stored_value_in_choices_or_default negative_decimal no_file self
            ["--level"; "low"] _ arg "--level" store ["low"] "low").
  - vm_compute. reflexivity.
  - vm_compute. right. left.
  - vm_compute. discriminate.
  - vm_compute. left.
  - vm_compute. left.
  - vm_compute. reflexivity.
  - left.
Defined.

(** C1 fails as it is stated: [--level] with choices [low], [med], [high]
    and default [none] holds [none] after a parse of no token. *)
Lemma default_outside_choices :
  stored_at "--level" (run schema_level []) = Return (Some (store, ["none"]))
  /\ (parser ← schema_level; Return (m_choices <$> optional parser))
     = Return [[]; ["low"; "med"; "high"]]
  /\ _is_value_exists (_remove_quotes "none") ["low"; "med"; "high"] = false.
Proof. repeat split; vm_compute; reflexivity. Qed.

(** C2: when the parse returns, the tokens the positional slots consumed,
    counted slot by slot, are as many as the tokens accumulated into the
    positional groups; the tokens consumed are the tokens of the groups, in
    their order, so none is dropped and none is consumed twice.  And what a
    slot consumed is what the Namespace holds for it: under every key of the
    slot's argument the entry holds the tokens the slot consumed, in their
    order; when the slot consumed none, the entry is what the last loop of
    [parse_known_args] makes of no value, or of the one value that
    [_store_default_value], [_store_const_value], [_append_const_value] or
    [_store_count_value] has pushed. *)
Theorem positional_tokens_partitioned (_is_negative_number : string -> bool)
    (read_lines : string -> option (list string)) (self : ArgumentParser)
    (parsed_arguments : list string) (st : parse_state) :
  resolve _is_negative_number read_lines self parsed_arguments = Return st ->
  sum_list ((fun slot => length (consumed_by slot (trace st)))
              <$> seq 0 (length (positional self)))
  = length (concat (positional_values st))
  /\ tokens_of (trace st) = concat (positional_values st)
  /\ forall slot arg key,
       positional self !! slot = Some arg -> key ∈ _get_argument_flags arg ->
       exists values,
         held self arg (consumed_by slot (trace st)) values
         /\ stored_at key
              (parse_known_args _is_negative_number read_lines self parsed_arguments)
            = Return (Some (materialize self key (m_action arg, values)))
         /\ (consumed_by slot (trace st) <> [] ->
             stored_at key
               (parse_known_args _is_negative_number read_lines self parsed_arguments)
             = Return (Some (m_action arg, consumed_by slot (trace st)))).
Proof.
  intros H. rewrite (parse_known_args_resolve _ _ _ _ _ H). simpl.
  pose proof (resolve_slots _ _ _ _ _ H) as Hslots.
  apply resolve_spec in H as (_ & Hinv & _ & Htokens).
  split; [|split; [done|]].
  - rewrite <- Htokens. apply consumed_by_sum. apply (inv_tokens _ _ Hinv).
  - intros slot arg key Hslot Hkey.
    destruct (Hslots slot arg key Hslot Hkey) as (values & Hvalues & Hheld).
    exists values. split; [done|].
    rewrite lookup_materialize_defaults, Hvalues. simpl. split; [done|].
    intros Hsome. destruct Hheld as [->|[Hnone _]]; [|done].
    unfold materialize. simpl.
    by rewrite (bool_decide_eq_false_2 (consumed_by slot (trace st) = [])) by done.
Qed.

Lemma positional_tokens_partitioned_witness :
  let self := parser_of schema_triple in
  let tokens := ["1"; "2"; "3"; "4"] in
  let st := state_of (resolve negative_decimal no_file self tokens) in
  resolve negative_decimal no_file self tokens = Return st
  /\ positional_values st = [["1"; "2"; "3"; "4"]]
  /\ ((fun slot => consumed_by slot (trace st)) <$> [0; 1; 2]) = [["1"]; ["2"; "3"]; ["4"]]
  /\ sum_list ((fun slot => length (consumed_by slot (trace st)))
                 <$> seq 0 (length (positional self)))
     = length (concat (positional_values st))
  /\ tokens_of (trace st) = concat (positional_values st)
  /\ stored_at "b" (parse_known_args negative_decimal no_file self tokens)
     = Return (Some (store, ["2"; "3"])).
Proof.
  intros self tokens st. split; [vm_compute; reflexivity|]. split; [vm_compute; reflexivity|].
  split; [vm_compute; reflexivity|].
  destruct (positional_tokens_partitioned negative_decimal no_file self tokens st)
    as (Hsum & Htokens & Hslots); [vm_compute; reflexivity|].
  split; [exact Hsum|]. split; [exact Htokens|].
  destruct (Hslots 1 (default (Argument_new [] EmptyString Positional) (positional self !! 1))
              "b") as (values & _ & _ & Hheld).
  - vm_compute. reflexivity.
  - vm_compute. left.
  - etransitivity; [apply Hheld; vm_compute; discriminate|vm_compute; reflexivity].
Defined.

(** C3 (as the code has it), with abbreviations allowed.  For a token that
    [_check_abbreviations] looks at (not empty, no key of the result, begins
    with a prefix character, and not read as a negative number unless a
    declared flag is one): when the token is a prefix of one declared
    optional flag and no declared two-character flag is a prefix of the
    token, the flag is put in its place; when two or more arguments are
    candidates, each by the first of its flags that the token is a prefix of
    or that has two characters and is a prefix of the token, the parse fails
    with the ambiguity error that lists these flags.  A token that is a flag
    of a declared optional argument without a destination is kept as it is,
    whatever longer flags are declared. *)
Theorem abbreviation_resolved (_is_negative_number : string -> bool) (self : ArgumentParser)
    (result : gmap string ArgumentValue) (arg : string) :
  m_allow_abbrev self = true ->
  (checked _is_negative_number self result arg = true ->
   forall flag, extensions self arg = [flag] -> short_prefixes self arg = [] ->
     _check_abbreviation _is_negative_number self result arg = Return [flag])
  /\ (checked _is_negative_number self result arg = true ->
      2 <= length (candidates self arg) ->
      _check_abbreviation _is_negative_number self result arg
      = Throw (std_logic_error (m_prog self +:+ ": error: " +:+ "ambiguous option: '"
                                  +:+ arg +:+ "' could match"
                                  +:+ listing (candidates self arg))))
  /\ (created self result ->
      forall opt, opt ∈ optional self -> m_dest opt = EmptyString -> arg ∈ m_flags opt ->
        _check_abbreviation _is_negative_number self result arg = Return [arg]).
Proof.
  intros Hallow. split; [|split].
  - unfold checked, _check_abbreviation. intros -> flag Hone Hshort.
    rewrite Hallow, abbreviations_fold.
    unfold extensions in Hone. unfold short_prefixes in Hshort.
    destruct (abbreviations_unique arg (optional self) false EmptyString [])
      as (args' & ->); [done|by rewrite Hone|].
    rewrite Hone. simpl. done.
  - by apply check_abbreviation_ambiguous.
  - intros Hcreated opt Hopt Hdest Hflag. apply check_abbreviation_key.
    rewrite (created_lookup self result opt arg); [done|done| |].
    + apply elem_of_app. by right.
    + unfold _get_argument_flags. by rewrite bool_decide_eq_true_2.
Qed.

Lemma abbreviation_resolved_witness :
  let self := parser_of schema_level in
  let result := result_of (skeleton self) in
  let pair := parser_of schema_pair in
  m_allow_abbrev self = true
  /\ _check_abbreviation negative_decimal self result "--lev" = Return ["--level"]
  /\ _check_abbreviation negative_decimal pair (result_of (skeleton pair)) "--fo"
     = Throw (std_logic_error
                "prog: error: ambiguous option: '--fo' could match --foo, --foobar")
  /\ _check_abbreviation negative_decimal self result "--level" = Return ["--level"].
Proof.
  intros self result pair. split; [reflexivity|]. split; [|split].
  - apply (proj1 (abbreviation_resolved negative_decimal self result "--lev" eq_refl));
      vm_compute; reflexivity.
  - etransitivity.
    + apply (proj1 (proj2 (abbreviation_resolved negative_decimal pair
                             (result_of (skeleton pair)) "--fo" eq_refl))).
      * vm_compute. reflexivity.
      * vm_compute. lia.
    + vm_compute. reflexivity.
  - apply (proj2 (proj2 (abbreviation_resolved negative_decimal self result "--level" eq_refl))
             ltac:(eexists; split; vm_compute; reflexivity)
             (default (Argument_new [] EmptyString Optional) (optional self !! 1))).
    + vm_compute. right. left.
    + vm_compute. reflexivity.
    + vm_compute. left.
Defined.

(** C3 fails as it is stated, in four ways.  ["--fo"] is a prefix of the two
    flags [--foo] and [--foobar] of one argument: it is replaced by [--foo]
    and the parse returns.  ["-fo"] is a prefix of one declared flag only,
    [-foo], and no key: the two-character flag [-f] is a candidate too and
    the parse fails.  ["-1"] is a prefix of one declared flag only, [-1x]: it
    is read as a negative number and kept.  ["--foo"] is a declared flag, of
    an argument with a destination: it is reported ambiguous. *)
Lemma abbreviation_counterexamples :
  ((parser ← schema_foo; Return (extensions parser "--fo")) = Return ["--foo"; "--foobar"]
   /\ (parser ← schema_foo; result ← skeleton parser;
       _check_abbreviation negative_decimal parser result "--fo") = Return ["--foo"]
   /\ stored_at "--foo" (run schema_foo ["--fo"; "v"]) = Return (Some (store, ["v"])))
  /\ ((parser ← schema_short; Return (extensions parser "-fo", short_prefixes parser "-fo"))
      = Return (["-foo"], ["-f"])
      /\ (parser ← schema_short; result ← skeleton parser; Return (result !! "-fo"))
         = Return None
      /\ run schema_short ["-fo"; "v"]
         = Throw (std_logic_error
                    "prog: error: ambiguous option: '-fo' could match -foo, -f"))
  /\ ((parser ← schema_digit; Return (extensions parser "-1")) = Return ["-1x"]
      /\ (parser ← schema_digit; result ← skeleton parser; Return (result !! "-1"))
         = Return None
      /\ (parser ← schema_digit; result ← skeleton parser;
          _check_abbreviation negative_decimal parser result "-1") = Return ["-1"])
  /\ ((parser ← schema_dest;
       Return ((fun arg => (m_flags arg, m_dest arg)) <$> optional parser))
      = Return [(["-h"; "--help"], EmptyString); (["--foo"], "bar");
                (["--foobar"], EmptyString)]
      /\ run schema_dest ["--foo"; "v"]
         = Throw (std_logic_error
                    "prog: error: ambiguous option: '--foo' could match --foo, --foobar")).
Proof. repeat split; vm_compute; reflexivity. Qed.

(** C4: [-x] with nargs [?], const [C] and default [D] holds [D] when it is
    not given, [C] when it is given alone and [V] when it is given [V];
    whatever the stream takes for a negative number and whatever the files
    are. *)
Theorem optional_const_default (_is_negative_number : string -> bool)
    (read_lines : string -> option (list string)) :
  values_at "x" (run_with _is_negative_number read_lines schema_x []) = Return ["D"]
  /\ values_at "x" (run_with _is_negative_number read_lines schema_x ["-x"]) = Return ["C"]
  /\ values_at "x" (run_with _is_negative_number read_lines schema_x ["-x"; "V"])
     = Return ["V"].
Proof. repeat split; vm_compute; reflexivity. Qed.

(** C5 (as the code has it): after a parse that returns, an optional argument
    with action [store] that was matched, and whose flags no other argument
    declares, holds under each of its keys the values stored since it was
    matched last, what was there before having been cleared; when that is no
    value ([*] without followers) it holds the default, if there is one.  The
    values stored since the last match are one for the implicit arity, [n]
    for [nargs(n)] and at least one for [+]. *)
Theorem store_holds_last_specification (_is_negative_number : string -> bool)
    (read_lines : string -> option (list string)) (self : ArgumentParser)
    (parsed_arguments : list string) (st : parse_state) (arg : Argument) (key : string)
    (before after : list event) :
  resolve _is_negative_number read_lines self parsed_arguments = Return st ->
  arg ∈ optional self ->
  m_action arg = store ->
  flags_unshared self arg ->
  key ∈ _get_argument_flags arg ->
  trace st = before ++ Spec arg :: after ->
  Spec arg ∉ after ->
  arity arg (stored_values arg after)
  /\ stored_at key (parse_known_args _is_negative_number read_lines self parsed_arguments)
     = Return (Some (store,
                     if bool_decide (stored_values arg after = []) then
                       if bool_decide (_default_arg_value self arg = EmptyString) then []
                       else [_default_arg_value self arg]
                     else stored_values arg after)).
Proof.
  intros H Harg Hact Hun Hkey Htrace Hlast.
  rewrite (parse_known_args_resolve _ _ _ _ _ H). simpl.
  apply resolve_spec in H as ((r0 & Hr0%created_NoDup) & [Hopt _ _ _ Har] & _).
  assert (values_of arg (trace st) = stored_values arg after) as Hvalues
    by (rewrite Htrace; by apply values_of_last).
  split.
  - rewrite <- Hvalues. apply Har; [done..|]. rewrite Htrace.
    apply elem_of_app. right. by left.
  - rewrite lookup_materialize_defaults, (Hopt _ _ Harg Hkey), Hvalues, Hact. simpl.
    unfold materialize. simpl.
    rewrite (get_optional_arg_by_dest_own self arg key) by done.
    destruct (bool_decide (stored_values arg after = [])) eqn:Eempty; simpl; [|done].
    apply bool_decide_eq_true in Eempty. rewrite Eempty.
    by destruct (bool_decide (_default_arg_value self arg = EmptyString)).
Qed.

Lemma store_holds_last_specification_witness :
  let self := parser_of schema_x in
  let arg := default (Argument_new [] EmptyString Optional) (last (optional self)) in
  let st := state_of (resolve negative_decimal no_file self ["-x"; "A"; "-x"; "B"]) in
  arity arg (stored_values arg [Value arg "B"])
  /\ stored_at "-x" (parse_known_args negative_decimal no_file self ["-x"; "A"; "-x"; "B"])
     = Return (Some (store,
                     if bool_decide (stored_values arg [Value arg "B"] = []) then
                       if bool_decide (_default_arg_value self arg = EmptyString) then []
                       else [_default_arg_value self arg]
                     else stored_values arg [Value arg "B"])).
Proof.
  intros self arg st.
  apply (store_holds_last_specification negative_decimal no_file self
           ["-x"; "A"; "-x"; "B"] st arg "-x" [Spec arg; Value arg "A"] [Value arg "B"]).
  - vm_compute. reflexivity.
  - vm_compute. right. left.
  - reflexivity.
  - intros other Hother Hne k Hk Hflag.
    assert (k = "-x") as -> by (vm_compute in Hk; by apply list_elem_of_singleton in Hk).
    vm_compute in Hother.
    apply elem_of_cons in Hother as [->|Hother].
    + vm_compute in Hflag.
      apply elem_of_cons in Hflag as [Hflag|Hflag]; [discriminate|].
      by apply list_elem_of_singleton in Hflag.
    + apply list_elem_of_singleton in Hother. by apply Hne.
  - vm_compute. left.
  - vm_compute. reflexivity.
  - intros Hin. apply list_elem_of_singleton in Hin. discriminate.
Defined.

(** C5 fails as it is stated: [--foo] with nargs [*] and default [D], given
    without a value, holds [D]; the specification stored no value. *)
Lemma star_without_values_holds_default :
  stored_at "--foo" (run schema_star ["--foo"]) = Return (Some (store, ["D"]))
  /\ (parser ← schema_star;
      st ← resolve negative_decimal no_file parser ["--foo"];
      Return (length (trace st),
              flat_map (fun arg => stored_values arg (trace st)) (optional parser)))
     = Return (1, []).
Proof. split; vm_compute; reflexivity. Qed.

(** C6 (as the code has it): [action(store_true)] leaves default ["0"],
    const ["1"] and arity 0 in the argument, [action(store_false)] default
    ["1"], const ["0"] and arity 0, and neither throws.  After a parse that
    returns, an optional argument with one of the two actions, a default and
    flags no other argument declares holds one value under each of its keys:
    its const if it was matched, its default otherwise. *)
Theorem flag_fields_and_value :
  (forall self : Argument,
     exists self', Argument.action store_true self = Built self'
       /\ m_action self' = store_true /\ m_default self' = "0" /\ m_const self' = "1"
       /\ m_nargs self' = "0" /\ m_num_args self' = 0%N)
  /\ (forall self : Argument,
        exists self', Argument.action store_false self = Built self'
          /\ m_action self' = store_false /\ m_default self' = "1" /\ m_const self' = "0"
          /\ m_nargs self' = "0" /\ m_num_args self' = 0%N)
  /\ (forall (_is_negative_number : string -> bool)
             (read_lines : string -> option (list string)) (self : ArgumentParser)
             (parsed_arguments : list string) (st : parse_state) (arg : Argument)
             (key : string),
        resolve _is_negative_number read_lines self parsed_arguments = Return st ->
        arg ∈ optional self ->
        m_action arg ∈ [store_true; store_false] ->
        m_default arg <> EmptyString ->
        flags_unshared self arg ->
        key ∈ _get_argument_flags arg ->
        stored_at key (parse_known_args _is_negative_number read_lines self parsed_arguments)
        = Return (Some (m_action arg,
                        [if bool_decide (Spec arg ∈ trace st)
                         then m_const arg else m_default arg]))).
Proof.
  split; [|split].
  - intros self. destruct (action_store_true self) as (self' & ? & ? & ? & ? & ? & ? & _).
    by exists self'.
  - intros self. destruct (action_store_false self) as (self' & ? & ? & ? & ? & ? & ? & _).
    by exists self'.
  - intros neg files self toks st arg key H Harg Hact Hdefault Hun Hkey.
    rewrite (parse_known_args_resolve _ _ _ _ _ H). simpl.
    apply resolve_spec in H as ((r0 & Hr0%created_NoDup) & [Hopt _ Hval _ _] & _).
    rewrite lookup_materialize_defaults, (Hopt _ _ Harg Hkey). simpl.
    rewrite values_of_const.
    + unfold materialize. simpl.
      rewrite (get_optional_arg_by_dest_own self arg key) by done.
      unfold _default_arg_value. rewrite (bool_decide_eq_false_2 (m_default arg = EmptyString)) by done.
      rewrite (bool_decide_eq_false_2 (m_default arg = EmptyString)) by done.
      destruct (bool_decide (Spec arg ∈ trace st)); simpl; [done|].
      rewrite !elem_of_cons, elem_of_nil in Hact.
      destruct Hact as [E|[E|[]]]; by rewrite E.
    + rewrite !elem_of_cons, elem_of_nil in Hact. rewrite !elem_of_cons.
      destruct Hact as [E|[E|[]]]; auto.
    + intros value Hin. destruct (Hval _ _ Hin) as [_ Hstoring].
      apply action_in_true in Hstoring.
      rewrite !elem_of_cons, elem_of_nil in Hact.
      destruct Hact as [E|[E|[]]]; by rewrite E in Hstoring.
Qed.

Lemma flag_fields_and_value_witness :
  let self := parser_of schema_abc in
  let arg := default (Argument_new [] EmptyString Optional) (last (optional self)) in
  let st := state_of (resolve negative_decimal no_file self ["-c"]) in
  (m_action arg, m_default arg, m_const arg) = (store_true, "0", "1")
  /\ bool_decide (Spec arg ∈ trace st) = true
  /\ stored_at "-c" (parse_known_args negative_decimal no_file self ["-c"])
     = Return (Some (m_action arg,
                     [if bool_decide (Spec arg ∈ trace st) then m_const arg else m_default arg])).
Proof.
  intros self arg st. split; [reflexivity|]. split; [vm_compute; reflexivity|].
  apply (proj2 (proj2 flag_fields_and_value) negative_decimal no_file self ["-c"] st arg "-c").
  - vm_compute. reflexivity.
  - vm_compute. do 3 right. left.
  - left.
  - discriminate.
  - intros other Hother Hne k Hk Hflag.
    assert (k = "-c") as -> by (vm_compute in Hk; by apply list_elem_of_singleton in Hk).
    vm_compute in Hother.
    repeat (apply elem_of_cons in Hother as [->|Hother];
            [vm_compute in Hflag;
             repeat (apply elem_of_cons in Hflag as [Hflag|Hflag]; [discriminate|]);
             by apply elem_of_nil in Hflag|]).
    apply elem_of_cons in Hother as [->|Hother]; [by apply Hne|].
    by apply elem_of_nil in Hother.
  - vm_compute. left.
Defined.

(** C6 fails as it is stated: a positional argument with action
    [store_true] holds its const ["1"], not its default ["0"], after a parse
    of no token. *)
Lemma positional_flag_holds_const :
  stored_at "flag" (run schema_flag []) = Return (Some (store_true, ["1"]))
  /\ (parser ← schema_flag;
      Return ((fun arg => (m_default arg, m_const arg)) <$> positional parser))
     = Return [("0", "1")].
Proof. split; vm_compute; reflexivity. Qed.

(** C7: ["-abc"] is expanded to [-a], [-b], [-c], and each of the three
    [store_true] arguments holds ["1"]. *)
Theorem bundle_abc :
  (parser ← schema_abc; result ← skeleton parser;
   _check_abbreviations negative_decimal parser result ["-abc"]) = Return ["-a"; "-b"; "-c"]
  /\ values_at "a" (run schema_abc ["-abc"]) = Return ["1"]
  /\ values_at "b" (run schema_abc ["-abc"]) = Return ["1"]
  /\ values_at "c" (run schema_abc ["-abc"]) = Return ["1"].
Proof. repeat split; vm_compute; reflexivity. Qed.

(** C8 fails on the code: with [exit_on_error] off, [prefix_chars] [-+] and
    the flags [-a] and [+a] declared, the token [-az] is a bundle with a
    character that is no flag.  The loop of [_separate_arg_abbrev] has pushed
    two flags for [a], so its test [flags.size() == i] takes [z] for found
    and reads the action through the null [argument]: nothing is thrown to
    the caller, the behaviour is undefined.  With [-a] alone the same token
    is reported by an exception of [handle_error]. *)
Theorem unrecognized_bundle_undefined :
  (parser ← schema_bundle;
   Return ((fun arg => (m_flags arg, m_action arg)) <$> optional parser,
           m_prefix_chars parser, m_exit_on_error parser))
  = Return ([(["-h"; "--help"], store_true); (["-a"], store_true); (["+a"], store_true)],
            "-+", false)
  /\ (parser ← schema_bundle; result ← skeleton parser;
      _check_abbreviation negative_decimal parser result "-az") = Undefined
  /\ run_args schema_bundle ["-az"] = Undefined
  /\ run_args schema_single ["-az"]
     = Throw (std_logic_error "prog: error: argument -a: ignored explicit argument 'z'").
Proof. repeat split; vm_compute; reflexivity. Qed.



(** The seven problems of the tokens on one schema, as they reach the caller. *)
Example user_problems_raised :
  run_args schema_errors ["@missing"]
  = Throw (std_logic_error "prog: error: [Errno 2] No such file or directory: 'missing'")
  /\ run_args schema_errors ["--level"; "x"; "n"]
     = Throw (std_logic_error
                "prog: error: argument --level: invalid choice: 'x' (choose from 'low', 'med', 'high')")
  /\ run_args schema_errors ["--fo"; "n"]
     = Throw (std_logic_error
                "prog: error: ambiguous option: '--fo' could match --foo, --foobar")
  /\ run_args schema_errors ["n"; "--level"]
     = Throw (std_logic_error "prog: error: argument --level: expected one argument")
  /\ run_args schema_errors ["n"; "-v=1"]
     = Throw (std_logic_error "prog: error: argument -v: ignored explicit argument '1'")
  /\ run_args schema_errors []
     = Throw (std_logic_error "prog: error: the following arguments are required: name")
  /\ run_args schema_errors ["n"; "extra"]
     = Throw (std_logic_error "prog: error: unrecognized arguments: extra").
Proof. repeat split; vm_compute; reflexivity. Qed.

(** C9 on a schema where a flag of the argument is also a flag of an argument
    with a destination: after a parse of no token, [-a] holds the default of
    the argument and [-b] the default of the other one. *)
Theorem shared_flag_holds_other_default :
  (parser ← schema_shared; Return ((fun arg => (m_flags arg, m_dest arg, m_default arg))
                                      <$> optional parser))
  = Return [(["-h"; "--help"], EmptyString, "0"); (["-b"], "x", "Z");
            (["-a"; "-b"], EmptyString, "D")]
  /\ stored_at "-a" (run schema_shared []) = Return (Some (store, ["D"]))
  /\ stored_at "-b" (run schema_shared []) = Return (Some (store, ["Z"])).
Proof. repeat split; vm_compute; reflexivity. Qed.

(** C10: [default_value] on an argument whose action is [store_true] or
    [store_false] returns, and returns the argument as it was, whatever the
    value: no field changes. *)
Theorem default_value_of_flag (value : string) (self : Argument) :
  m_action self ∈ [store_true; store_false] ->
  Argument.default_value value self = Built self.
Proof.
  intros H%action_in_true. unfold Argument.default_value. by rewrite H.
Qed.

Lemma default_value_of_flag_witness :
  let self := self_of (Argument.action store_true (Argument_new ["-v"] "v" Optional)) in
  m_action self ∈ [store_true; store_false]
  /\ m_default self = "0"
  /\ Argument.default_value "yes" self = Built self.
Proof.
  split; [by left|]. split; [reflexivity|].
  apply (default_value_of_flag "yes"). by left.
Defined.

(** * Further properties *)

(** All the keys of an optional argument hold the same action and the same
    values after a parse that returns, when no other argument declares one
    of its flags. *)
Theorem keys_hold_same_values (_is_negative_number : string -> bool)
    (read_lines : string -> option (list string)) (self : ArgumentParser)
    (parsed_arguments : list string) (ns : Namespace) (arg : Argument) (key key' : string) :
  parse_known_args _is_negative_number read_lines self parsed_arguments = Return ns ->
  arg ∈ optional self ->
  flags_unshared self arg ->
  key ∈ _get_argument_flags arg ->
  key' ∈ _get_argument_flags arg ->
  Namespace.m_arguments ns !! key = Namespace.m_arguments ns !! key'
  /\ is_Some (Namespace.m_arguments ns !! key).
Proof.
  intros H Harg Hun Hkey Hkey'.
  apply bind_Return in H as (st & Hst & H). injection H as <-. simpl.
  apply resolve_spec in Hst as ((r0 & Hr0%created_NoDup) & [Hopt _ _ _ _] & _).
  rewrite !lookup_materialize_defaults, !(Hopt _ _ Harg) by done. simpl.
  unfold materialize. rewrite !(get_optional_arg_by_dest_own self arg) by done.
  split; [done|]. by eexists.
Qed.

Lemma keys_hold_same_values_witness :
  let self := parser_of schema_foo in
  let arg := default (Argument_new [] EmptyString Optional) (last (optional self)) in
  exists ns,
    parse_known_args negative_decimal no_file self ["--foo"; "v"] = Return ns
    /\ Namespace.m_arguments ns !! "--foo" = Some (store, ["v"])
    /\ Namespace.m_arguments ns !! "--foo" = Namespace.m_arguments ns !! "--foobar"
    /\ is_Some (Namespace.m_arguments ns !! "--foo").
Proof.
  intros self arg. eexists. split; [vm_compute; reflexivity|].
  split; [vm_compute; reflexivity|].
  eapply (keys_hold_same_values negative_decimal no_file self ["--foo"; "v"] _ arg).
  - vm_compute. reflexivity.
  - vm_compute. right. left.
  - intros other Hother Hne k Hk Hflag.
    vm_compute in Hother.
    apply elem_of_cons in Hother as [->|Hother].
    + vm_compute in Hk, Hflag.
      apply elem_of_cons in Hk as [->|Hk];
        [|apply list_elem_of_singleton in Hk as ->];
        repeat (apply elem_of_cons in Hflag as [Hflag|Hflag]; [discriminate|]);
        by apply elem_of_nil in Hflag.
    + apply list_elem_of_singleton in Hother. by apply Hne.
  - vm_compute. left.
  - vm_compute. right. left.
Defined.

(** The loop over the followers of a matched optional argument whose
    [num_args] is 0 and whose [nargs] is not empty ([?], [*], [+]) stores
    every following token that is a value, up to the first token that is
    none, fewer than [2^32] of them: [?] takes them all, not one at most. *)
Theorem optional_one_takes_all_followers (_is_negative_number : string -> bool)
    (self : ArgumentParser) (temp : Argument) (arg : string) (values rest : list string)
    (n : N) (st : parse_state) :
  m_nargs temp <> EmptyString -> m_num_args temp = 0%N ->
  values <> [] ->
  Forall (fun next => is_value _is_negative_number self next = true) values ->
  (N.of_nat (length values) + n < 2 ^ 32)%N ->
  match rest with
  | [] => True
  | next :: _ => is_value _is_negative_number self next = false
  end ->
  followers _is_negative_number self temp arg (values ++ rest) n st
  = (st' ← for_each (store_follower self temp) values st; Return (st', rest)).
Proof.
  intros Hnargs Hnum Hvalues Hall Hlen Hrest.
  assert (forall n st, n <> 0%N ->
            followers _is_negative_number self temp arg rest n st = Return (st, rest))
    as Hend.
  { intros n' st' Hn'. destruct rest as [|next rest']; simpl.
    - rewrite (proj2 (N.eqb_neq n' 0)) by done. by rewrite Hnum.
    - rewrite Hrest, (proj2 (N.eqb_neq n' 0)) by done. by rewrite Hnum. }
  revert n st Hlen Hvalues.
  induction Hall as [|value values Hvalue Hall IH]; intros n st Hlen Hvalues; [done|].
  simpl. rewrite Hvalue.
  destruct (store_follower self temp value st) as [st1| | |]; simpl; [|done..].
  rewrite (bool_decide_eq_false_2 (m_nargs temp = EmptyString)) by done.
  rewrite Hnum. simpl.
  assert (u32_succ n = (n + 1)%N) as Hsucc.
  { unfold u32_succ. apply N.mod_small. simpl in Hlen. lia. }
  destruct values as [|value' values'].
  - simpl. apply Hend. rewrite Hsucc. lia.
  - apply IH; [|done]. rewrite Hsucc. simpl in *. lia.
Qed.

Lemma optional_one_takes_all_followers_witness :
  let self := parser_of schema_x in
  let temp := default (Argument_new [] EmptyString Optional) (optional self !! 1) in
  let st := initial (result_of (skeleton self)) in
  (m_flags temp, m_nargs temp, m_num_args temp) = (["-x"], "?", 0%N)
  /\ followers negative_decimal self temp "-x" (["V"; "W"] ++ ["-h"]) 0 st
     = (st' ← for_each (store_follower self temp) ["V"; "W"] st; Return (st', ["-h"]))
  /\ values_at "x" (run schema_x ["-x"; "V"; "W"]) = Return ["V"; "W"].
Proof.
  intros self temp st. split; [vm_compute; reflexivity|]. split; [|vm_compute; reflexivity].
  apply (optional_one_takes_all_followers negative_decimal self temp "-x" ["V"; "W"] ["-h"]
           0 st).
  - vm_compute. discriminate.
  - vm_compute. reflexivity.
  - discriminate.
  - repeat constructor.
  - vm_compute. reflexivity.
  - vm_compute. reflexivity.
Defined.

(** With abbreviations allowed, a token that is a flag of a declared
    optional argument and that [_check_abbreviations] looks at is reported
    ambiguous as soon as another optional argument has a flag that begins
    with it.  The token is looked at although it is a declared flag when it
    is no key of the result: its argument has a destination. *)
Theorem exact_flag_with_dest_ambiguous (_is_negative_number : string -> bool)
    (self : ArgumentParser) (result : gmap string ArgumentValue) (flag : string)
    (i j : nat) (opt other : Argument) :
  m_allow_abbrev self = true ->
  created self result ->
  checked _is_negative_number self result flag = true ->
  optional self !! i = Some opt -> optional self !! j = Some other -> i <> j ->
  flag ∈ m_flags opt ->
  existsb (fun flag' => _starts_with flag' flag) (m_flags other) = true ->
  m_dest opt <> EmptyString
  /\ _check_abbreviation _is_negative_number self result flag
     = Throw (std_logic_error (m_prog self +:+ ": error: " +:+ "ambiguous option: '"
                                 +:+ flag +:+ "' could match"
                                 +:+ listing (candidates self flag))).
Proof.
  intros Hallow Hcreated Hchecked Hi Hj Hne Hflag Hother. split.
  - intros Hdest.
    assert (result !! flag = Some (m_action opt, [])) as Hlookup.
    { apply (created_lookup self result opt flag); [done| |].
      - apply elem_of_app. right. by eapply list_elem_of_lookup_2.
      - unfold _get_argument_flags. by rewrite bool_decide_eq_true_2. }
    unfold checked in Hchecked.
    apply andb_true_iff in Hchecked as [Hchecked _].
    apply andb_true_iff in Hchecked as [Hchecked _].
    apply andb_true_iff in Hchecked as [_ Hnone].
    apply bool_decide_eq_true in Hnone. congruence.
  - apply check_abbreviation_ambiguous; [done..|].
    apply (omap_two _ _ i j opt other); [done..| |by apply candidate_extension].
    apply candidate_extension. apply existsb_exists. exists flag.
    split; [by apply list_elem_of_In|apply starts_with_refl].
Qed.

Lemma exact_flag_with_dest_ambiguous_witness :
  let self := parser_of schema_dest in
  let result := result_of (skeleton self) in
  (((fun arg => (m_flags arg, m_dest arg)) <$> optional self)
   = [(["-h"; "--help"], EmptyString); (["--foo"], "bar"); (["--foobar"], EmptyString)])
  /\ _check_abbreviation negative_decimal self result "--foo"
     = Throw (std_logic_error
                "prog: error: ambiguous option: '--foo' could match --foo, --foobar")
  /\ run schema_dest ["--foo"; "v"]
     = Throw (std_logic_error
                "prog: error: ambiguous option: '--foo' could match --foo, --foobar").
Proof.
  intros self result. split; [vm_compute; reflexivity|]. split; [|vm_compute; reflexivity].
  etransitivity.
  - apply (proj2 (exact_flag_with_dest_ambiguous negative_decimal self result "--foo" 1 2
                    (default (Argument_new [] EmptyString Optional) (optional self !! 1))
                    (default (Argument_new [] EmptyString Optional) (optional self !! 2))
                    eq_refl ltac:(eexists; split; vm_compute; reflexivity)
                    ltac:(vm_compute; reflexivity) ltac:(vm_compute; reflexivity)
                    ltac:(vm_compute; reflexivity) ltac:(lia)
                    ltac:(vm_compute; left) ltac:(vm_compute; reflexivity))).
  - vm_compute. reflexivity.
Defined.

(** * The helpers of namespace detail *)

Lemma isspace_zero : isspace zero = false.
Proof. reflexivity. Qed.

Lemma ltrim_spec (s : string) :
  exists l, s = l +:+ _ltrim s /\ all_space l = true /\ isspace (front (_ltrim s)) = false.
Proof.
  induction s as [|c s (l & Hs & Hl & Hfront)]; simpl.
  - by exists EmptyString.
  - destruct (isspace c) eqn:Ec.
    + exists (String c l). simpl. rewrite Ec, Hl, append_cons. by rewrite <- Hs.
    + by exists EmptyString.
Qed.

Lemma rtrim_spec (s : string) :
  exists r, s = _rtrim s +:+ r /\ all_space r = true
            /\ isspace (back (_rtrim s)) = false
            /\ front (_rtrim s) = (if bool_decide (_rtrim s = EmptyString) then zero else front s).
Proof.
  induction s as [|c s (r & Hs & Hr & Hback & Hfront)]; simpl.
  - by exists EmptyString.
  - destruct (_rtrim s) as [|c' t] eqn:Et.
    + rewrite append_nil_l in Hs. subst r. destruct (isspace c) eqn:Ec.
      * exists (String c s). simpl. by rewrite Ec, Hr.
      * exists s. by rewrite Hr.
    + exists r. rewrite append_cons, <- Hs. simpl in *. done.
Qed.

Lemma ltrim_id (s : string) : isspace (front s) = false -> _ltrim s = s.
Proof. destruct s as [|c s]; simpl; [done|]. by intros ->. Qed.

Lemma rtrim_id (s : string) : isspace (back s) = false -> _rtrim s = s.
Proof.
  induction s as [|c s IH]; simpl; [done|].
  destruct s as [|c' s'].
  - simpl. by intros ->.
  - intros H. rewrite (IH H). done.
Qed.

(** [_trim_copy] takes the white space off both ends and nothing else: what
    it returns neither begins nor ends with white space, and trimming it
    again changes nothing. *)
Theorem trim_copy_spec (s : string) :
  (exists l r, s = l +:+ _trim_copy s +:+ r /\ all_space l = true /\ all_space r = true)
  /\ (_trim_copy s <> EmptyString ->
      isspace (front (_trim_copy s)) = false /\ isspace (back (_trim_copy s)) = false)
  /\ _trim_copy (_trim_copy s) = _trim_copy s.
Proof.
  unfold _trim_copy.
  destruct (ltrim_spec s) as (l & Hs & Hl & Hfront).
  destruct (rtrim_spec (_ltrim s)) as (r & Ht & Hr & Hback & Hfront').
  assert (isspace (front (_rtrim (_ltrim s))) = false) as Hf.
  { rewrite Hfront'. by case_bool_decide. }
  split; [|split].
  - exists l, r. by rewrite <- Ht.
  - done.
  - rewrite (ltrim_id _ Hf). by apply rtrim_id.
Qed.

(** [_split_equal] cuts at the first ['=']: one part when there is none,
    else the text before it, which has none, and the text after it. *)
Theorem split_equal_spec (s : string) :
  (_is_string_contains_char s "=" = false /\ _split_equal s = [s])
  \/ exists before after,
       _split_equal s = [before; after]
       /\ s = before +:+ "=" +:+ after
       /\ _is_string_contains_char before "=" = false.
Proof.
  unfold _split_equal.
  induction s as [|c s IH]; simpl; [by left|].
  case_bool_decide as Hc; simpl.
  - right. exists EmptyString, s. subst c. simpl. split; [|done].
    by destruct s.
  - destruct IH as [[Hno Hs]|(before & after & Hs & Heq & Hno)].
    + left. split; [done|]. destruct (find "=" s); [done|]. done.
    + right. exists (String c before), after.
      destruct (find "=" s) as [pos|]; [|done]. simpl.
      injection Hs as Hb Ha. rewrite Hb.
      split; [|split].
      * f_equal. f_equal. by rewrite Nat.add_1_r in *.
      * rewrite append_cons. by rewrite <- Heq.
      * simpl. rewrite Hno. by rewrite bool_decide_eq_false_2.
Qed.

Lemma back_snoc (s : string) (c : ascii) : back (s +:+ String c EmptyString) = c.
Proof.
  induction s as [|c' s IH]; [done|]. rewrite append_cons. simpl.
  destruct (s +:+ String c EmptyString) eqn:E; [by destruct s|done].
Qed.

Lemma length_append (s1 s2 : string) :
  String.length (s1 +:+ s2) = String.length s1 + String.length s2.
Proof. induction s1 as [|c s1 IH]; [done|]. rewrite append_cons. simpl. by rewrite IH. Qed.

Lemma substring_append (s t : string) : substring 0 (String.length s) (s +:+ t) = s.
Proof.
  induction s as [|c s IH]; [by destruct t|]. rewrite append_cons. simpl. by rewrite IH.
Qed.

(** A string that is not empty is what comes before its last character,
    and that character. *)
Lemma back_split (s : string) :
  s <> EmptyString ->
  s = substring 0 (String.length s - 1) s +:+ String (back s) EmptyString.
Proof.
  induction s as [|c s IH]; [done|]. intros _.
  destruct s as [|c' s']; [done|].
  change (back (String c (String c' s'))) with (back (String c' s')).
  replace (String.length (String c (String c' s')) - 1)
    with (S (String.length (String c' s') - 1)) by (simpl; lia).
  cbn [substring].
  rewrite append_cons. f_equal. by apply IH.
Qed.

(** [_remove_quotes] takes one pair of matching quotes off a quoted string
    and gives the text between them; any other string it leaves as it is. *)
Theorem remove_quotes_spec :
  (forall s, _remove_quotes (String quote (s +:+ String quote EmptyString)) = s)
  /\ (forall s, _remove_quotes (String dquote (s +:+ String dquote EmptyString)) = s)
  /\ (forall s,
        _remove_quotes s = s
        \/ exists q text,
             (q = quote \/ q = dquote)
             /\ s = String q (text +:+ String q EmptyString)
             /\ _remove_quotes s = text).
Proof.
  assert (forall q s, q = quote \/ q = dquote ->
            _remove_quotes (String q (s +:+ String q EmptyString)) = s) as Hquoted.
  { intros q s Hq. unfold _remove_quotes.
    assert (back (String q (s +:+ String q EmptyString)) = q) as Hback.
    { change (String q (s +:+ String q EmptyString))
        with (String q s +:+ String q EmptyString). apply back_snoc. }
    rewrite Hback. simpl front. simpl String.length. rewrite length_append. simpl.
    rewrite (bool_decide_eq_true_2 (q = q)) by done.
    assert (bool_decide (q = quote) || bool_decide (q = dquote) = true) as ->.
    { destruct Hq as [->| ->]; [done|]. by rewrite orb_true_r. }
    replace (String.length s + 1 - 1) with (String.length s) by lia.
    rewrite (proj2 (Nat.ltb_lt 1 (S (String.length s + 1)))) by lia. simpl.
    apply substring_append. }
  split; [intros s; apply Hquoted; by left|].
  split; [intros s; apply Hquoted; by right|].
  intros s. unfold _remove_quotes.
  destruct (1 <? String.length s) eqn:Elen; [|by left]. simpl.
  case_bool_decide as Hsame; [|by left]. simpl.
  destruct (bool_decide (front s = quote) || bool_decide (front s = dquote)) eqn:Eq;
    [|by left].
  right. apply Nat.ltb_lt in Elen.
  destruct s as [|q s]; [simpl in Elen; lia|]. simpl in Hsame, Eq, Elen.
  assert (s <> EmptyString) as Hs by (destruct s; [simpl in Elen; lia|done]).
  assert (back s = q) as Hback by (destruct s; [done|]; by rewrite Hsame).
  exists q, (substring 0 (String.length s - 1) s). split; [|split].
  - apply orb_true_iff in Eq as [Eq|Eq]; apply bool_decide_eq_true in Eq; auto.
  - f_equal. rewrite <- Hback. by apply back_split.
  - simpl. done.
Qed.

Lemma erase_leading_spec (prefix : ascii) (s : string) :
  exists n, s = fill n prefix +:+ erase_leading prefix s
            /\ (erase_leading prefix s = EmptyString
                \/ front (erase_leading prefix s) <> prefix).
Proof.
  induction s as [|c s (n & Hs & Hfront)]; simpl.
  - exists 0. split; [done|]. by left.
  - case_bool_decide as Hc.
    + exists (S n). subst c. simpl. rewrite append_cons. by rewrite <- Hs.
    + exists 0. split; [done|]. by right.
Qed.

(** [_flag_name] takes off the run of the first character that a flag begins
    with: what is left does not begin with that character. *)
Theorem flag_name_spec (str : string) :
  exists n, str = fill n (front str) +:+ _flag_name str
            /\ (_flag_name str = EmptyString \/ front (_flag_name str) <> front str).
Proof. apply erase_leading_spec. Qed.

Lemma vector_string_to_string_from (separator quotes res : string) (vec : list string) :
  res <> EmptyString ->
  foldl (fun res el =>
           (if bool_decide (res = EmptyString) then res else res +:+ separator)
             +:+ quotes +:+ el +:+ quotes) res vec
  = match vec with
    | [] => res
    | _ => res +:+ separator
             +:+ String.concat separator ((fun el => quotes +:+ el +:+ quotes) <$> vec)
    end.
Proof.
  revert res. induction vec as [|el vec IH]; intros res Hres; [done|].
  simpl foldl. rewrite (bool_decide_eq_false_2 (res = EmptyString)) by done.
  rewrite IH by (by apply append_not_empty, append_not_empty).
  destruct vec as [|next vec]; cbn [fmap list_fmap String.concat];
    by rewrite !append_assoc.
Qed.

(** [_vector_string_to_string] joins the quoted elements with the separator,
    when the first of them is not empty once quoted; an empty string at the
    front gets no separator after it. *)
Theorem vector_string_to_string_concat (vec : list string) (separator quotes : string) :
  (forall el, head vec = Some el -> quotes +:+ el +:+ quotes <> EmptyString) ->
  _vector_string_to_string vec separator quotes
  = String.concat separator ((fun el => quotes +:+ el +:+ quotes) <$> vec).
Proof.
  intros Hhead. unfold _vector_string_to_string.
  destruct vec as [|el vec]; [done|]. simpl foldl.
  rewrite vector_string_to_string_from by (by apply Hhead).
  by destruct vec.
Qed.

Lemma vector_string_to_string_concat_witness :
  (forall el, head ["low"; "med"; "high"] = Some el -> "'" +:+ el +:+ "'" <> EmptyString)
  /\ _vector_string_to_string ["low"; "med"; "high"] ", " "'" = "'low', 'med', 'high'"
  /\ _vector_string_to_string ["low"; "med"; "high"] ", " "'"
     = String.concat ", " ((fun el => "'" +:+ el +:+ "'") <$> ["low"; "med"; "high"]).
Proof.
  assert (forall el, head ["low"; "med"; "high"] = Some el -> "'" +:+ el +:+ "'" <> EmptyString)
    as Hhead by (intros el [= <-]; discriminate).
  split; [exact Hhead|]. split; [reflexivity|].
  exact (vector_string_to_string_concat ["low"; "med"; "high"] ", " "'" Hhead).
Defined.

Lemma find_last_of_spec (chars s : string) :
  match find_last_of chars s with
  | Some pos =>
      exists before c,
        s = before +:+ String c (substr (pos + 1) s)
        /\ String.length before = pos
        /\ _is_string_contains_char chars c = true
        /\ find_last_of chars (substr (pos + 1) s) = None
  | None => True
  end.
Proof.
  induction s as [|c s IH]; simpl; [done|].
  destruct (find_last_of chars s) as [pos|] eqn:E.
  - destruct IH as (before & c' & Hs & Hlen & Hc & Hnone).
    exists (String c before), c'. rewrite append_cons. simpl. by rewrite <- Hs, Hlen.
  - destruct (_is_string_contains_char chars c) eqn:Ec; [|done].
    exists EmptyString, c. done.
Qed.

(** [_file_name] gives what follows the last ['/'] or ['\'] of a path, the
    whole path when it has neither: a name without a separator. *)
Theorem file_name_spec (s : string) :
  find_last_of "/\" (_file_name s) = None
  /\ exists directory,
       s = directory +:+ _file_name s
       /\ (directory = EmptyString
           \/ _is_string_contains_char "/\" (back directory) = true).
Proof.
  unfold _file_name. pose proof (find_last_of_spec "/\" s) as H.
  destruct (find_last_of "/\" s) as [pos|] eqn:E.
  - destruct H as (before & c & Hs & Hlen & Hc & Hnone). split; [done|].
    exists (before +:+ String c EmptyString). split.
    + by rewrite append_assoc.
    + right. by rewrite back_snoc.
  - split; [done|]. exists EmptyString. split; [done|]. by left.
Qed.

(** * The builder *)

Lemma pretty_N_not_zero (n : N) : (0 < n)%N -> pretty n <> "0".
Proof.
  intros Hn E. change "0" with (pretty 0%N) in E. apply (inj pretty) in E. lia.
Qed.

Lemma configured_new (flags : list string) (name : string) (type : ArgumentType) :
  configured (Argument_new flags name type).
Proof.
  unfold configured. simpl. split_and!; try done.
  intros _. left. split; [left|done].
Qed.

Ltac compute_actions :=
  repeat match goal with
         | |- context [action_in ?a ?l] =>
             is_constructor a; let b := eval vm_compute in (action_in a l) in
             change (action_in a l) with b
         | H : context [action_in ?a ?l] |- _ =>
             is_constructor a; let b := eval vm_compute in (action_in a l) in
             change (action_in a l) with b in H
         end.

Ltac configured_cases H :=
  match type of H with
  | context [bool_decide ?P] => destruct (bool_decide P) eqn:?; simpl in H
  | context [N.eqb ?a ?b] => destruct (N.eqb a b) eqn:?; simpl in H
  | context [_is_value_exists ?a ?b] => destruct (_is_value_exists a b) eqn:?; simpl in H
  | Built _ = Built _ => injection H as <-
  | Failed _ _ = Built _ => discriminate H
  end.

Ltac configured_start H Eact :=
  repeat configured_cases H;
  (split; [|done]); unfold configured; simpl; rewrite ?Eact in *; compute_actions;
  split_and!; try done; try (intros; done).

Lemma action_frame (value : Action) (self self' : Argument) :
  configured self -> Argument.action value self = Built self' ->
  configured self' /\ frame self self'.
Proof.
  intros (Hchoices & Hnonempty & Hzero & Hnargs & Htrue & Hfalse & Hpos) H.
  unfold Argument.action in H.
  set (self1 := if bool_decide (m_action self <> store_true) then set_callback None self
                else self) in H.
  set (self2 := if bool_decide (m_action self1 = version) then set_help EmptyString self1
                else self1) in H.
  assert (m_action self2 = m_action self /\ m_nargs self2 = m_nargs self
          /\ m_num_args self2 = m_num_args self /\ m_choices self2 = m_choices self
          /\ m_default self2 = m_default self /\ m_const self2 = m_const self
          /\ m_type self2 = m_type self /\ m_dest self2 = m_dest self
          /\ m_required self2 = m_required self /\ m_flags self2 = m_flags self
          /\ m_name self2 = m_name self)
    as (E1 & E2 & E3 & E4 & E5 & E6 & E7 & E8 & E9 & E10 & E11).
  { unfold self2, self1. by repeat case_bool_decide. }
  clearbody self2. clear self1.
  destruct (m_action self) eqn:Eact; destruct value; simpl in H.
  all: repeat configured_cases H.
  all: unfold configured, frame; simpl;
    rewrite ?E1, ?E2, ?E3, ?E4, ?E5, ?E6, ?E7, ?E8, ?E9, ?E10, ?E11 in *; compute_actions.
  all: split_and!; try done; try (intros; done).
  all: try (intros Ht; destruct (Hpos Ht) as (? & ? & ?); done).
  all: try (intros Ht; apply bool_decide_eq_false in Heqb; done).
  all: intros _; try (apply bool_decide_eq_true in Heqb); try (apply bool_decide_eq_false in Heqb).
  all: try (destruct Hzero as [? ?]; [done|]).
  all: try (destruct Hnargs as [[Hin ?]|[[? ?] Hp]]; [done|..]).
  all: try (left; split; [left|done]).
  all: try (by left).
  all: try (by right).
  all: try (rewrite Heqb in Hin; exfalso; set_solver).
  all: exfalso; eapply pretty_N_not_zero; [eassumption|congruence].
Qed.

Lemma call_configured (m : method) (self self' : Argument) :
  configured self -> call m self = Built self' -> configured self' /\ frame self self'.
Proof.
  intros Hself H. destruct m; simpl in H.
  1: by eapply action_frame.
  1: { unfold Argument.action_named in H.
       repeat case_bool_decide; try done; by eapply action_frame. }
  all: destruct Hself as (Hchoices & Hnonempty & Hzero & Hnargs & Htrue & Hfalse & Hpos).
  all: unfold Argument.nargs_num, Argument.nargs, Argument.const_value, Argument.default_value,
         Argument.choices, Argument.required, Argument.help, Argument.help_suppress,
         Argument.metavar, Argument.dest, Argument.version, Argument.callback in H.
  all: destruct (m_action self) eqn:Eact; compute_actions; simpl in H.
  all: repeat configured_cases H.
  all: unfold configured, frame; simpl; rewrite ?Eact; compute_actions.
  all: split_and!; try done; try (intros; done).
  all: try (intros Ht; match goal with
                       | Hb : bool_decide (m_type _ = Positional) = false |- _ =>
                           by apply bool_decide_eq_false in Hb
                       end).
  all: try (intros _; right; split; [|done];
            match goal with
            | Hb : (_ =? 0)%N = false |- _ =>
                apply N.eqb_neq in Hb;
                split; [by apply N.neq_0_lt_0|apply N.mod_upper_bound; by vm_compute]
            end).
  all: try (intros _; left; split; [|done];
            match goal with
            | Hb : _is_value_exists _ _ = true |- _ =>
                apply bool_decide_eq_true in Hb; by right
            end).
  all: apply Forall_forall; intros choice [_ Hchoice]%list_elem_of_In%filter_In;
    by apply negb_true_iff, bool_decide_eq_false in Hchoice.
Qed.

Lemma chain_failed (e : exn) (self : Argument) (calls : list (Argument -> built)) :
  foldl and_then (Failed e self) calls = Failed e self.
Proof. induction calls as [|c calls IH]; [done|]. simpl. apply IH. Qed.

(** The builder keeps an argument well configured along any chain of calls
    that does not throw, and changes neither its flags, nor its name, nor
    whether it is positional. *)
Theorem chain_configured (methods : list method) (self self' : Argument) :
  configured self -> chain methods self = Built self' ->
  configured self' /\ frame self self'.
Proof.
  unfold chain. revert self.
  induction methods as [|m methods IH]; intros self Hself H; simpl in H.
  - injection H as <-. done.
  - destruct (call m self) as [self1|e self1] eqn:E; simpl in H.
    + destruct (call_configured _ _ _ Hself E) as (Hself1 & F1 & F2 & F3).
      destruct (IH _ Hself1 H) as (Hself' & F1' & F2' & F3').
      split; [done|]. unfold frame. by rewrite F1', F2', F3'.
    + by rewrite chain_failed in H.
Qed.

Lemma chain_configured_witness :
  let self := Argument_new ["-n"; "--num"] "num" Optional in
  let methods := [call_action store_true; call_action_named "append"; call_nargs_num 2;
                  call_choices ["1"; " 2 "; ""]; call_default_value " 1 "; call_dest "n"] in
  let self' := self_of (chain methods self) in
  chain methods self = Built self'
  /\ (m_action self', m_nargs self', m_num_args self', m_choices self', m_default self',
      m_dest self')
     = (append, "2", 2%N, ["1"; "2"], "1", "n")
  /\ configured self' /\ frame self self'.
Proof.
  intros self methods self'. split; [vm_compute; reflexivity|]. split; [vm_compute; reflexivity|].
  apply (chain_configured methods self self').
  - apply configured_new.
  - vm_compute. reflexivity.
Defined.

(** * add_argument *)
Section add_argument.

Variable self : ArgumentParser.

Lemma update_flag_name_in (arg : string) (st : string * nat) (names : list string) :
  st.1 ∈ names -> (_update_flag_name arg st).1 ∈ _flag_name arg :: names.
Proof.
  destruct st as [flag_name prefixes]. unfold _update_flag_name. simpl.
  intros H. destruct (prefixes <? _); simpl; [left|by right].
Qed.

Lemma add_argument_loop (others : list string) (st0 : string * nat) :
  match
    for_each (fun flag st =>
                if bool_decide (flag = EmptyString)
                then Throw (IndexError "string index out of range")
                else if negb (_is_optional_argument flag (m_prefix_chars self))
                then Throw (ValueError ("invalid option string " +:+ flag
                       +:+ ": must starts with a character '" +:+ m_prefix_chars self +:+ "'"))
                else Return (_update_flag_name flag st))
             others st0
  with
  | Return st =>
      forallb (fun flag => negb (bool_decide (flag = EmptyString))
                           && _is_optional_argument flag (m_prefix_chars self)) others = true
      /\ forall names, st0.1 ∈ names -> st.1 ∈ (_flag_name <$> others) ++ names
  | Throw e =>
      forallb (fun flag => negb (bool_decide (flag = EmptyString))
                           && _is_optional_argument flag (m_prefix_chars self)) others = false
      /\ ((exists error, e = IndexError error) \/ (exists error, e = ValueError error))
  | _ => False
  end.
Proof.
  revert st0. induction others as [|flag others IH]; intros st0; simpl.
  - split; [done|]. by intros names.
  - case_bool_decide as Hflag; simpl.
    + split; [done|]. left. by eexists.
    + destruct (_is_optional_argument flag (m_prefix_chars self)) eqn:Eopt; simpl.
      * specialize (IH (_update_flag_name flag st0)).
        destruct (for_each _ others _) as [st|e| |]; [| |done..].
        -- destruct IH as [Hall Hname]. split; [done|].
           intros names Hin.
           apply update_flag_name_in with (arg := flag) in Hin.
           specialize (Hname _ Hin). set_solver.
        -- done.
      * split; [done|]. right. by eexists.
Qed.

Lemma erase_leading_length (prefix : ascii) (s : string) :
  String.length (erase_leading prefix s) <= String.length s.
Proof.
  induction s as [|c s IH]; simpl; [done|]. case_bool_decide; simpl; lia.
Qed.

Lemma flag_name_shorter (flag : string) :
  flag <> EmptyString -> String.length (_flag_name flag) < String.length flag.
Proof.
  destruct flag as [|c s]; [done|]. intros _. unfold _flag_name. simpl.
  rewrite bool_decide_eq_true_2 by done.
  pose proof (erase_leading_length c s). lia.
Qed.

(** [add_argument] takes the well-formed flag lists and no other; it adds one
    argument, fresh but for its flags, its name and its type, after the
    arguments there are, and changes nothing else in the parser.  The first
    flag is trimmed; the name is a flag without the run of its first
    character.  A list it does not take makes it throw [ValueError] or
    [IndexError]. *)
Theorem add_argument_spec (flags : list string) :
  match add_argument flags self with
  | Return self' =>
      well_formed_flags self flags = true
      /\ exists first rest name,
           flags = first :: rest
           /\ (if _is_optional_argument (_trim_copy first) (m_prefix_chars self)
               then name ∈ _flag_name <$> (_trim_copy first :: rest)
               else name = _trim_copy first)
           /\ self' = set_arguments
                        (m_arguments self
                           ++ [Argument_new (_trim_copy first :: rest) name
                                 (if _is_optional_argument (_trim_copy first) (m_prefix_chars self)
                                  then Optional else Positional)])
                        self
  | Throw e =>
      well_formed_flags self flags = false
      /\ ((exists error, e = IndexError error) \/ (exists error, e = ValueError error))
  | _ => False
  end.
Proof.
  unfold add_argument, well_formed_flags.
  destruct flags as [|first rest]; [split; [done|]; right; by eexists|].
  case_bool_decide as Hfirst; simpl; [split; [done|]; left; by eexists|].
  destruct (_is_optional_argument (_trim_copy first) (m_prefix_chars self)) eqn:Eopt; simpl.
  - pose proof (add_argument_loop rest
                  (_update_flag_name (_trim_copy first) (_trim_copy first, 0))) as Hloop.
    destruct (for_each _ rest _) as [st|e| |]; [| |done..]; simpl.
    + destruct Hloop as [Hall Hname]. split; [done|].
      exists first, rest, st.1. rewrite Eopt. split; [done|]. split; [|done].
      specialize (Hname [_flag_name (_trim_copy first)]).
      cut (st.1 ∈ (_flag_name <$> rest) ++ [_flag_name (_trim_copy first)]);
        [set_solver|].
      apply Hname. unfold _update_flag_name.
      pose proof (flag_name_shorter _ Hfirst).
      rewrite (proj2 (Nat.ltb_lt _ _)) by lia. simpl. by left.
    + done.
  - destruct rest as [|second rest]; simpl.
    + split; [done|]. exists first, [], (_trim_copy first). by rewrite Eopt.
    + split; [done|]. right. by eexists.
Qed.

End add_argument.

(** * What a parse has stored, continued *)
Section stored.

Variable _is_negative_number : string -> bool.
Variable read_lines : string -> option (list string).
Variable self : ArgumentParser.

Lemma materialize_action (key : string) (args : ArgumentValue) :
  (materialize self key args).1 = args.1.
Proof.
  unfold materialize.
  destruct (bool_decide (args.2 = []) && negb (bool_decide (args.1 = count))); [|done].
  destruct (_get_optional_arg_by_dest _ _); [|done].
  by destruct (bool_decide _).
Qed.

(** After a parse that returns, the Namespace has an entry under every key of
    every argument, with the action the argument was declared with, and
    [data] finds it. *)
Theorem entries_as_declared (parsed_arguments : list string) (ns : Namespace)
    (arg : Argument) (key : string) :
  parse_known_args _is_negative_number read_lines self parsed_arguments = Return ns ->
  arg ∈ all_arguments self ->
  key ∈ _get_argument_flags arg ->
  exists values,
    Namespace.m_arguments ns !! key = Some (m_action arg, values)
    /\ Namespace.data ns key = Return (m_action arg, values)
    /\ Namespace.exists_ ns key = true.
Proof.
  intros H Harg Hkey.
  apply bind_Return in H as (st & Hst & H). injection H as <-.
  apply resolve_spec in Hst as (_ & [Hopt Hpos _ _ _] & _).
  assert (exists values, result st !! key = Some (m_action arg, values)) as (values & Hvalues).
  { apply elem_of_app in Harg as [Harg|Harg].
    - destruct (Hpos _ _ Harg Hkey) as (values & Hvalues & _). by exists values.
    - eexists. by apply Hopt. }
  exists (materialize self key (m_action arg, values)).2.
  assert (materialize_defaults self (result st) !! key
          = Some (m_action arg, (materialize self key (m_action arg, values)).2)) as Hlookup.
  { rewrite lookup_materialize_defaults, Hvalues. simpl. f_equal.
    rewrite (surjective_pairing (materialize self key (m_action arg, values))) at 1.
    by rewrite materialize_action. }
  unfold Namespace.data, Namespace.exists_. simpl. rewrite Hlookup. split; [done|].
  split; [done|]. by rewrite bool_decide_eq_true_2.
Qed.

Lemma stored_values_snoc (arg : Argument) (trace : list event) (e : event) :
  stored_values arg (trace ++ [e])
  = stored_values arg trace
      ++ match e with
         | Value arg' value => if decide (arg' = arg) then [value] else []
         | _ => []
         end.
Proof. unfold stored_values. rewrite flat_map_app. simpl. by rewrite app_nil_r. Qed.

(** What the trace accounts for when the action is [append] or [extend]:
    every value stored for the argument, in the order they were stored. *)
Lemma values_of_append (arg : Argument) (trace : list event) :
  m_action arg ∈ [append; extend] ->
  values_of arg trace = stored_values arg trace.
Proof.
  intros Hact. induction trace as [|e trace IH] using rev_ind; [done|].
  rewrite values_of_snoc, stored_values_snoc, IH.
  destruct e as [arg'|arg' value| |]; simpl.
  - rewrite app_nil_r. destruct (decide (arg' = arg)) as [->|]; [|done].
    rewrite !elem_of_cons, elem_of_nil in Hact. by destruct Hact as [->|[->|[]]].
  - destruct (decide (arg' = arg)); [done|by rewrite app_nil_r].
  - by rewrite app_nil_r.
  - by rewrite app_nil_r.
Qed.

Lemma times_matched_snoc (arg : Argument) (trace : list event) (e : event) :
  times_matched arg (trace ++ [e])
  = times_matched arg trace + (if decide (e = Spec arg) then 1 else 0).
Proof.
  unfold times_matched. rewrite filter_app, length_app. f_equal.
  rewrite filter_cons. destruct (decide (e = Spec arg)); done.
Qed.

(** What the trace accounts for when the action is [count]: an empty string
    for every time the argument was matched. *)
Lemma values_of_count (arg : Argument) (trace : list event) :
  m_action arg = count ->
  (forall value, Value arg value ∉ trace) ->
  values_of arg trace = replicate (times_matched arg trace) EmptyString.
Proof.
  intros Hact. induction trace as [|e trace IH] using rev_ind; intros Hno; [done|].
  rewrite values_of_snoc, times_matched_snoc, IH.
  2:{ intros value Hin. apply (Hno value). apply elem_of_app. by left. }
  destruct (decide (e = Spec arg)) as [->|He].
  - simpl. rewrite decide_True by done. rewrite Hact. unfold push_back.
    by rewrite Nat.add_1_r, replicate_S_end.
  - rewrite Nat.add_0_r. destruct e as [arg'|arg' value| |]; simpl; [| |done..].
    + rewrite decide_False; [done|congruence].
    + destruct (decide (arg' = arg)) as [->|Hne]; [|done].
      exfalso. apply (Hno value). apply elem_of_app. right. by left.
Qed.

(** An optional argument with action [append] or [extend], whose flags no
    other argument declares, holds after a parse that returns every value
    stored for it, in the order of the tokens; when there is none it holds
    its default, if it has one. *)
Theorem append_accumulates (parsed_arguments : list string) (st : parse_state)
    (arg : Argument) (key : string) :
  resolve _is_negative_number read_lines self parsed_arguments = Return st ->
  arg ∈ optional self ->
  m_action arg ∈ [append; extend] ->
  flags_unshared self arg ->
  key ∈ _get_argument_flags arg ->
  stored_at key (parse_known_args _is_negative_number read_lines self parsed_arguments)
  = Return (Some (m_action arg,
                  if bool_decide (stored_values arg (trace st) = []) then
                    if bool_decide (_default_arg_value self arg = EmptyString) then []
                    else [_default_arg_value self arg]
                  else stored_values arg (trace st))).
Proof.
  intros H Harg Hact Hun Hkey.
  rewrite (parse_known_args_resolve _ _ _ _ _ H). simpl.
  apply resolve_spec in H as ((r0 & Hr0%created_NoDup) & [Hopt _ _ _ _] & _).
  rewrite lookup_materialize_defaults, (Hopt _ _ Harg Hkey), values_of_append by done.
  simpl. unfold materialize. simpl.
  rewrite (get_optional_arg_by_dest_own self arg key) by done.
  assert (m_action arg <> count) as Hcount.
  { rewrite !elem_of_cons, elem_of_nil in Hact. by destruct Hact as [->|[->|[]]]. }
  rewrite (bool_decide_eq_false_2 (m_action arg = count)) by done.
  destruct (bool_decide (stored_values arg (trace st) = [])) eqn:Eempty; simpl; [|done].
  apply bool_decide_eq_true in Eempty. rewrite Eempty.
  by destruct (bool_decide (_default_arg_value self arg = EmptyString)).
Qed.

(** An optional argument with action [count] holds after a parse that
    returns as many values as times it was matched in the tokens; a default
    does not count. *)
Theorem count_counts (parsed_arguments : list string) (st : parse_state)
    (arg : Argument) (key : string) :
  resolve _is_negative_number read_lines self parsed_arguments = Return st ->
  arg ∈ optional self ->
  m_action arg = count ->
  key ∈ _get_argument_flags arg ->
  stored_at key (parse_known_args _is_negative_number read_lines self parsed_arguments)
  = Return (Some (count, replicate (times_matched arg (trace st)) EmptyString)).
Proof.
  intros H Harg Hact Hkey.
  rewrite (parse_known_args_resolve _ _ _ _ _ H). simpl.
  apply resolve_spec in H as (_ & [Hopt _ Hval _ _] & _).
  rewrite lookup_materialize_defaults, (Hopt _ _ Harg Hkey), Hact. simpl.
  unfold materialize. simpl. rewrite andb_false_r.
  rewrite values_of_count; [done..|].
  intros value Hin. destruct (Hval _ _ Hin) as [_ Hstoring].
  rewrite Hact in Hstoring. rewrite !elem_of_cons, elem_of_nil in Hstoring.
  by destruct Hstoring as [|[|[|[]]]].
Qed.

End stored.

(** * Required arguments *)
Section required.

Variable _is_negative_number : string -> bool.
Variable read_lines : string -> option (list string).
Variable self : ArgumentParser.

Lemma some_empty_spec (flags : list string) (r : gmap string ArgumentValue) (b : bool) :
  some_empty flags r = Return b ->
  b = false ->
  forall flag, flag ∈ flags -> exists args, r !! flag = Some args /\ args.2 <> [].
Proof.
  induction flags as [|flag flags IH]; simpl; intros H Hb; [by intros ? ?%elem_of_nil|].
  destruct (r !! flag) as [args|] eqn:E; [|done].
  case_bool_decide as Hargs; [congruence|].
  intros flag' [->|Hin]%elem_of_cons; [by exists args|]. by apply IH.
Qed.

Lemma vector_string_to_string_empty (vec : list string) (separator : string) :
  _vector_string_to_string vec separator EmptyString = EmptyString ->
  Forall (fun el => el = EmptyString) vec.
Proof.
  unfold _vector_string_to_string.
  assert (forall res,
            foldl (fun res el =>
                     (if bool_decide (res = EmptyString) then res else res +:+ separator)
                       +:+ EmptyString +:+ el +:+ EmptyString) res vec = EmptyString ->
            res = EmptyString /\ Forall (fun el => el = EmptyString) vec) as Hfold.
  { induction vec as [|el vec IH]; intros res H; simpl in H; [done|].
    apply IH in H as [Hres Hvec].
    destruct (bool_decide (res = EmptyString)) eqn:Eres.
    - apply bool_decide_eq_true in Eres as ->. split; [done|]. constructor; [|done].
      rewrite !append_nil_l, append_empty_r in Hres. done.
    - destruct res; [done|]. discriminate Hres. }
  intros H. by apply Hfold in H as [_ ?].
Qed.

(** The optional arguments [required_args] lists. *)
Lemma required_args_spec (r : gmap string ArgumentValue) (l : list string) :
  required_args self r = Return l ->
  forall arg, arg ∈ optional self -> m_required arg = true ->
    some_empty (_get_argument_flags arg) r = Return false
    \/ _vector_string_to_string (m_flags arg) "/" EmptyString ∈ l.
Proof.
  unfold required_args.
  assert (forall args acc,
            for_each (fun arg required_args =>
                        if m_required arg then
                          empty ← some_empty (_get_argument_flags arg) r;
                          Return (if (empty : bool)
                                  then required_args
                                         ++ [_vector_string_to_string (m_flags arg) "/" EmptyString]
                                  else required_args)
                        else Return required_args) args acc = Return l ->
            (forall y, y ∈ acc -> y ∈ l)
            /\ forall arg, arg ∈ args -> m_required arg = true ->
                 some_empty (_get_argument_flags arg) r = Return false
                 \/ _vector_string_to_string (m_flags arg) "/" EmptyString ∈ l) as Hloop.
  { induction args as [|x args IH]; intros acc H; simpl in H.
    - injection H as <-. split; [done|]. by intros ? ?%elem_of_nil.
    - apply bind_Return in H as (acc1 & H1 & H). destruct (IH _ H) as [Hkeep Hargs].
      assert (forall y, y ∈ acc -> y ∈ acc1) as Hacc.
      { intros y Hy. destruct (m_required x); [|by injection H1 as <-].
        apply bind_Return in H1 as (b & _ & H1). injection H1 as <-.
        destruct b; [|done]. apply elem_of_app. by left. }
      split; [auto|].
      intros arg [->|Harg]%elem_of_cons Hreq; [|by apply Hargs].
      rewrite Hreq in H1. apply bind_Return in H1 as (b & Hb & H1). injection H1 as <-.
      destruct b; [|by left]. right. apply Hkeep. apply elem_of_app. right. by left. }
  intros H. by apply Hloop in H as [_ ?].
Qed.

Lemma for_each_at_values_trace (g : list string -> list string) (flags : list string)
    (st : parse_state) (r' : gmap string ArgumentValue) :
  trace (set_result r' st) = trace st.
Proof. done. Qed.

Lemma is_positional_arg_stored_trace (arg : Argument) (st st' : parse_state) (b : bool) :
  _is_positional_arg_stored self arg st = Return (b, st') -> trace st' = trace st.
Proof.
  unfold _is_positional_arg_stored, _store_const_value, _append_const_value, _store_count_value.
  intros H.
  destruct (action_in (m_action arg) [store_const; store_true; store_false]).
  { apply bind_Return in H as (st1 & H1 & H).
    apply bind_Return in H1 as (r1 & _ & H1). by simplify_eq. }
  destruct (bool_decide (m_action arg = append_const)).
  { apply bind_Return in H as (st1 & H1 & H).
    apply bind_Return in H1 as (r1 & _ & H1). by simplify_eq. }
  destruct (bool_decide (m_action arg = count)); [|by simplify_eq].
  apply bind_Return in H as (st1 & H1 & H).
  apply bind_Return in H1 as (r1 & _ & H1). by simplify_eq.
Qed.

Lemma store_default_value_trace (arg : Argument) (st st' : parse_state) :
  _store_default_value self arg st = Return st' -> trace st' = trace st.
Proof.
  unfold _store_default_value. intros H. case_bool_decide; [|by simplify_eq].
  apply bind_Return in H as (? & ? & H). by simplify_eq.
Qed.

Lemma required_body_trace (slot : nat) (arg : Argument) (args args' : string)
    (st st' : parse_state) :
  required_body self slot arg args st = Return (args', st') -> trace st' = trace st.
Proof.
  unfold required_body, unless_stored. intros H.
  case_bool_decide.
  - apply bind_Return in H as ([b st1] & H1 & H).
    apply is_positional_arg_stored_trace in H1.
    destruct b; [by simplify_eq|].
    destruct (bool_decide (m_nargs arg = "?") || bool_decide (m_nargs arg = "*")).
    + apply bind_Return in H as (st2 & H2%store_default_value_trace & H).
      simplify_eq. congruence.
    + apply bind_Return in H as (? & ? & H). simplify_eq. done.
  - apply bind_Return in H as (? & ? & H). by simplify_eq.
Qed.

Lemma check_required_trace (st st' : parse_state) :
  check_required self st = Return st' -> trace st' = trace st.
Proof.
  unfold check_required. intros H.
  apply bind_Return in H as (required & _ & H).
  destruct (negb (bool_decide (required = [])) || (pos st <? length (positional self)));
    [|by simplify_eq].
  apply bind_Return in H as ([args st1] & H1 & H).
  assert (forall slots args0 st0 args1 st2,
            for_slots (required_body self) slots args0 st0 = Return (args1, st2) ->
            trace st2 = trace st0) as Hslots.
  { induction slots as [|arg slots IH]; intros args0 st0 args1 st2 H0; simpl in H0;
      [by simplify_eq|].
    apply bind_Return in H0 as ([args2 st3] & H2%required_body_trace & H0).
    apply IH in H0. simpl in H0. congruence. }
  apply Hslots in H1.
  case_bool_decide; [|done]. by simplify_eq.
Qed.

Lemma append_empty (s1 s2 : string) : s1 +:+ s2 = EmptyString -> s2 = EmptyString.
Proof. by destruct s1. Qed.

(** A required optional argument holds a value after a parse that returns:
    the parse throws when one of its keys holds none (a default does not
    count, it is filled in afterwards). *)
Theorem required_holds_value (parsed_arguments : list string) (ns : Namespace)
    (arg : Argument) (key : string) :
  parse_known_args _is_negative_number read_lines self parsed_arguments = Return ns ->
  arg ∈ optional self ->
  m_required arg = true ->
  Exists (fun flag => flag <> EmptyString) (m_flags arg) ->
  key ∈ _get_argument_flags arg ->
  exists values,
    Namespace.m_arguments ns !! key = Some (m_action arg, values) /\ values <> [].
Proof.
  intros H Harg Hreq Hflags Hkey.
  apply bind_Return in H as (st & Hst & H). injection H as <-. simpl.
  pose proof (resolve_spec _ _ _ _ _ Hst) as (_ & [Hopt _ _ _ _] & _).
  unfold resolve in Hst.
  apply bind_Return in Hst as (tokens & _ & Hst).
  apply bind_Return in Hst as (? & _ & Hst).
  apply bind_Return in Hst as (? & _ & Hst).
  apply bind_Return in Hst as (r1 & Hr1 & Hst).
  apply bind_Return in Hst as (r0 & Hr0 & Hst).
  apply bind_Return in Hst as (tokens' & _ & Hst).
  apply bind_Return in Hst as (st1 & H1 & Hst).
  apply bind_Return in Hst as (st2 & H2 & Hst).
  apply bind_Return in Hst as (st3 & H3 & Hst).
  apply check_unrecognized_spec in Hst as [-> _].
  assert (created self r0) as Hcreated by (by exists r1).
  pose proof (created_NoDup self r0 Hcreated) as Hkeys.
  apply main_pass_spec in H1 as (Hinv1 & _ & _); [|done|by apply invariant_initial].
  apply match_groups_spec in H2 as (Hinv2 & _ & _); [|done]. specialize (Hinv2 Hinv1).
  pose proof (check_required_trace _ _ H3) as Htrace.
  unfold check_required in H3.
  apply bind_Return in H3 as (required & Hrequired & H3).
  assert (Forall (fun el => el = EmptyString) required) as Hnone.
  { destruct (negb (bool_decide (required = [])) || (pos st2 <? length (positional self)))
      eqn:Econd.
    - apply bind_Return in H3 as ([args st'] & _ & H3).
      case_bool_decide as Hargs; [|done].
      by apply append_empty, vector_string_to_string_empty in Hargs.
    - apply orb_false_iff in Econd as [->%negb_false_iff%bool_decide_eq_true _]. constructor. }
  destruct (required_args_spec _ _ Hrequired arg Harg Hreq) as [Hempty|Hin].
  - destruct (some_empty_spec _ _ _ Hempty eq_refl key Hkey) as (args & Hlookup & Hargs).
    rewrite (inv_optional _ _ Hinv2 _ _ Harg Hkey) in Hlookup. injection Hlookup as <-.
    simpl in Hargs.
    rewrite lookup_materialize_defaults, (Hopt _ _ Harg Hkey), Htrace. simpl.
    unfold materialize. simpl.
    rewrite (bool_decide_eq_false_2 (values_of arg (trace st2) = [])) by done. simpl.
    by eexists.
  - rewrite Forall_forall in Hnone. apply Hnone in Hin.
    apply vector_string_to_string_empty in Hin.
    exfalso. apply Exists_exists in Hflags as (flag & Hflag & Hne).
    rewrite Forall_forall in Hin. by apply Hne, Hin.
Qed.

End required.
(** * Response files and unchecked tokens *)

Section tokens.

Variable _is_negative_number : string -> bool.
Variable read_lines : string -> option (list string).
Variable self : ArgumentParser.

#[local] Arguments substr : simpl never.

(** [expand_files] puts the lines of a file in the place of every token that
    begins with one of [fromfile_prefix_chars], once, and leaves the other
    tokens as they are; it throws at the first such token whose file cannot
    be opened, and so does the parse. *)
Theorem expand_files_spec (parsed_arguments : list string) :
  match expand_files read_lines self parsed_arguments with
  | Return expanded =>
      expanded = flat_map (expansion read_lines self) parsed_arguments
      /\ Forall (fun arg => is_file self arg = true -> is_Some (read_lines (substr 1 arg)))
                parsed_arguments
  | Throw e =>
      (exists arg,
         arg ∈ parsed_arguments /\ is_file self arg = true
         /\ read_lines (substr 1 arg) = None
         /\ e = std_logic_error (m_prog self +:+ ": error: "
                                   +:+ "[Errno 2] No such file or directory: '"
                                   +:+ substr 1 arg +:+ "'"))
      /\ parse_known_args _is_negative_number read_lines self parsed_arguments = Throw e
  | _ => False
  end.
Proof.
  assert (match expand_files read_lines self parsed_arguments with
          | Throw e => parse_known_args _is_negative_number read_lines self parsed_arguments
                       = Throw e
          | _ => True
          end) as Hparse.
  { unfold parse_known_args, resolve.
    by destruct (expand_files read_lines self parsed_arguments). }
  revert Hparse. unfold expand_files, expansion, is_file.
  case_bool_decide as Hprefix; simpl.
  - intros _. split; [|by apply Forall_forall].
    induction parsed_arguments as [|arg args IH]; [done|]. simpl. by rewrite <- IH.
  - generalize (parse_known_args _is_negative_number read_lines self parsed_arguments).
    intros o.
    assert (forall temp,
              match for_each (fun arg temp =>
                                if _is_string_contains_char (m_fromfile_prefix_chars self)
                                                            (front arg)
                                then load_args ← convert_arg_line_to_args read_lines self
                                                   (substr 1 arg);
                                     Return (temp ++ load_args)
                                else Return (temp ++ [arg])) parsed_arguments temp with
              | Return expanded =>
                  expanded
                  = temp ++ flat_map (fun arg =>
                                        if _is_string_contains_char
                                             (m_fromfile_prefix_chars self) (front arg)
                                        then default [] (read_lines (substr 1 arg))
                                        else [arg]) parsed_arguments
                  /\ Forall (fun arg =>
                               _is_string_contains_char (m_fromfile_prefix_chars self)
                                                        (front arg) = true ->
                               is_Some (read_lines (substr 1 arg))) parsed_arguments
              | Throw e =>
                  exists arg,
                    arg ∈ parsed_arguments
                    /\ _is_string_contains_char (m_fromfile_prefix_chars self) (front arg) = true
                    /\ read_lines (substr 1 arg) = None
                    /\ e = std_logic_error (m_prog self +:+ ": error: "
                                              +:+ "[Errno 2] No such file or directory: '"
                                              +:+ substr 1 arg +:+ "'")
              | _ => False
              end) as Hloop.
    { induction parsed_arguments as [|arg args IH]; intros temp; simpl.
      - split; [by rewrite app_nil_r|constructor].
      - destruct (_is_string_contains_char (m_fromfile_prefix_chars self) (front arg)) eqn:Efile.
        + destruct (read_lines (substr 1 arg)) as [lines|] eqn:Elines.
          * assert (convert_arg_line_to_args read_lines self (substr 1 arg) = Return lines)
              as -> by (unfold convert_arg_line_to_args; by rewrite Elines).
            simpl. specialize (IH (temp ++ lines)).
            destruct (for_each _ args _) as [expanded|e| |]; [| |done..].
            -- destruct IH as [-> Hall]. split; [by rewrite app_assoc|].
               constructor; [by eexists|done].
            -- destruct IH as (arg' & ? & ? & ? & ?). exists arg'. split; [by right|done].
          * assert (convert_arg_line_to_args read_lines self (substr 1 arg)
                    = Throw (std_logic_error
                               (m_prog self +:+ ": error: "
                                  +:+ "[Errno 2] No such file or directory: '"
                                  +:+ substr 1 arg +:+ "'")))
              as -> by (unfold convert_arg_line_to_args, handle_error; by rewrite Elines).
            simpl. exists arg. split; [left|done].
        + simpl. specialize (IH (temp ++ [arg])).
          destruct (for_each _ args _) as [expanded|e| |]; [| |done..].
          * destruct IH as [-> Hall]. split; [by rewrite <- app_assoc|].
            constructor; [simpl; intros; congruence|done].
          * destruct IH as (arg' & ? & ? & ? & ?). exists arg'. split; [by right|done]. }
    specialize (Hloop []).
    destruct (for_each _ parsed_arguments []) as [expanded|e| |]; [| |done..].
    + intros _. done.
    + intros ->. done.
Qed.



End tokens.


(** * The theorems on stored values, on a schema *)

Ltac other_flags Hother Hne Hflag :=
  vm_compute in Hother;
  repeat (apply elem_of_cons in Hother as [->|Hother]);
  try (by apply elem_of_nil in Hother);
  try (exfalso; apply Hne; vm_compute; reflexivity);
  vm_compute in Hflag;
  repeat (apply elem_of_cons in Hflag as [Hflag|Hflag]; [discriminate|]);
  by apply elem_of_nil in Hflag.

Lemma entries_as_declared_witness :
  let self := parser_of schema_tags in
  exists ns,
    parse_known_args negative_decimal no_file self ["--out"; "f"; "-v"] = Return ns
    /\ exists values,
         Namespace.m_arguments ns !! "-v" = Some (count, values)
         /\ Namespace.data ns "-v" = Return (count, values)
         /\ Namespace.exists_ ns "-v" = true.
Proof.
  intros self. eexists. split; [vm_compute; reflexivity|].
  eapply (entries_as_declared negative_decimal no_file self ["--out"; "f"; "-v"] _
            (declared schema_tags 2) "-v").
  - vm_compute. reflexivity.
  - vm_compute. do 2 right. left.
  - vm_compute. left.
Defined.

Lemma append_accumulates_witness :
  stored_at "--tag"
    (parse_known_args negative_decimal no_file (parser_of schema_tags)
       ["--tag"; "a"; "--out"; "f"; "--tag"; "b"])
  = Return (Some (append, ["a"; "b"])).
Proof.
  pose (self := parser_of schema_tags).
  pose (tokens := ["--tag"; "a"; "--out"; "f"; "--tag"; "b"]).
  etransitivity.
  - apply (append_accumulates negative_decimal no_file self tokens
             (state_of (resolve negative_decimal no_file self tokens))
             (declared schema_tags 1) "--tag").
    + vm_compute. reflexivity.
    + vm_compute. right. left.
    + vm_compute. left.
    + intros other Hother Hne k Hk Hflag. vm_compute in Hk.
      apply list_elem_of_singleton in Hk as ->. other_flags Hother Hne Hflag.
    + vm_compute. left.
  - vm_compute. reflexivity.
Defined.

Lemma count_counts_witness :
  stored_at "-v"
    (parse_known_args negative_decimal no_file (parser_of schema_tags)
       ["-v"; "--out"; "f"; "-v"])
  = Return (Some (count, [EmptyString; EmptyString])).
Proof.
  pose (self := parser_of schema_tags).
  pose (tokens := ["-v"; "--out"; "f"; "-v"]).
  etransitivity.
  - apply (count_counts negative_decimal no_file self tokens
             (state_of (resolve negative_decimal no_file self tokens))
             (declared schema_tags 2) "-v").
    + vm_compute. reflexivity.
    + vm_compute. do 2 right. left.
    + vm_compute. reflexivity.
    + vm_compute. left.
  - vm_compute. reflexivity.
Defined.

Lemma required_holds_value_witness :
  let self := parser_of schema_tags in
  exists ns,
    parse_known_args negative_decimal no_file self ["--out"; "f"] = Return ns
    /\ exists values, Namespace.m_arguments ns !! "--out" = Some (store, values) /\ values <> [].
Proof.
  intros self. eexists. split; [vm_compute; reflexivity|].
  eapply (required_holds_value negative_decimal no_file self ["--out"; "f"] _
            (declared schema_tags 3) "--out").
  - vm_compute. reflexivity.
  - vm_compute. do 3 right. left.
  - vm_compute. reflexivity.
  - apply Exists_exists. exists "--out". split; [vm_compute; left|done].
  - vm_compute. left.
Defined.

(** * A parse of no token *)

Section no_tokens.

Variable _is_negative_number : string -> bool.
Variable read_lines : string -> option (list string).
Variable self : ArgumentParser.

Lemma expand_files_nil : expand_files read_lines self [] = Return [].
Proof. unfold expand_files. by case_bool_decide. Qed.

Lemma resolve_nil_trace (st : parse_state) :
  resolve _is_negative_number read_lines self [] = Return st -> trace st = [].
Proof.
  unfold resolve. rewrite expand_files_nil. simpl. intros H.
  apply bind_Return in H as (? & _ & H).
  apply bind_Return in H as (? & _ & H).
  apply bind_Return in H as (r1 & _ & H).
  apply bind_Return in H as (r0 & _ & H).
  simpl in H.
  apply bind_Return in H as (st1 & H1%check_required_trace & H).
  apply check_unrecognized_spec in H as [-> _]. done.
Qed.

(** A parse of no token that returns leaves every optional argument, whose
    flags no other argument declares, with its default, if it has one, and
    with no value otherwise; an argument with action [count] holds no value
    whatever its default. *)
Theorem no_tokens_defaults (ns : Namespace) (arg : Argument) (key : string) :
  parse_known_args _is_negative_number read_lines self [] = Return ns ->
  arg ∈ optional self ->
  flags_unshared self arg ->
  key ∈ _get_argument_flags arg ->
  Namespace.m_arguments ns !! key
  = Some (m_action arg,
          if bool_decide (m_action arg = count)
             || bool_decide (_default_arg_value self arg = EmptyString)
          then [] else [_default_arg_value self arg]).
Proof.
  intros H Harg Hun Hkey.
  apply bind_Return in H as (st & Hst & H). injection H as <-. simpl.
  pose proof (resolve_nil_trace _ Hst) as Htrace.
  apply resolve_spec in Hst as ((r0 & Hr0%created_NoDup) & [Hopt _ _ _ _] & _).
  rewrite lookup_materialize_defaults, (Hopt _ _ Harg Hkey), Htrace. simpl.
  unfold materialize. simpl.
  rewrite (get_optional_arg_by_dest_own self arg key) by done.
  destruct (bool_decide (m_action arg = count)); simpl; [done|].
  by destruct (bool_decide (_default_arg_value self arg = EmptyString)).
Qed.

End no_tokens.

Lemma no_tokens_defaults_witness :
  let self := parser_of schema_star in
  exists ns,
    parse_known_args negative_decimal no_file self [] = Return ns
    /\ Namespace.m_arguments ns !! "--foo" = Some (store, ["D"]).
Proof.
  intros self. eexists. split; [vm_compute; reflexivity|].
  etransitivity.
  - apply (no_tokens_defaults negative_decimal no_file self _ (declared schema_star 1) "--foo").
    + vm_compute. reflexivity.
    + vm_compute. right. left.
    + intros other Hother Hne k Hk Hflag. vm_compute in Hk.
      apply list_elem_of_singleton in Hk as ->.
      vm_compute in Hother;
      repeat (apply elem_of_cons in Hother as [->|Hother]);
      try (by apply elem_of_nil in Hother);
      try (exfalso; apply Hne; vm_compute; reflexivity);
      vm_compute in Hflag;
      repeat (apply elem_of_cons in Hflag as [Hflag|Hflag]; [discriminate|]);
      by apply elem_of_nil in Hflag.
    + vm_compute. left.
  - vm_compute. reflexivity.
Defined.

(** * Reading the Namespace *)

Lemma shown_not_empty (str : string) : shown str <> EmptyString.
Proof. unfold shown. by case_bool_decide. Qed.

Lemma listed_from (res : string) (values : list string) :
  res <> EmptyString ->
  foldl (fun res str =>
           (if negb (bool_decide (res = EmptyString)) then res +:+ ", " else res)
             +:+ (if negb (bool_decide (str = EmptyString)) then str else "None"))
        res values
  = match values with
    | [] => res
    | _ => res +:+ ", " +:+ String.concat ", " (shown <$> values)
    end.
Proof.
  revert res. induction values as [|str values IH]; intros res Hres; [done|].
  simpl foldl. rewrite (bool_decide_eq_false_2 (res = EmptyString)) by done. simpl negb.
  assert ((if negb (bool_decide (str = EmptyString)) then str else "None") = shown str)
    as -> by (unfold shown; by case_bool_decide).
  rewrite IH by (by apply append_not_empty, append_not_empty).
  destruct values as [|next values]; cbn [fmap list_fmap String.concat];
    by rewrite ?append_assoc.
Qed.

Lemma listed_concat (values : list string) :
  listed values = String.concat ", " (shown <$> values).
Proof.
  unfold listed. destruct values as [|str values]; [done|]. simpl foldl.
  assert ((if negb (bool_decide (str = EmptyString)) then str else "None") = shown str)
    as -> by (unfold shown; by case_bool_decide).
  rewrite append_nil_l, listed_from by apply shown_not_empty.
  by destruct values.
Qed.

(** [to_string] of an entry with an action that keeps a list ([store],
    [append], [append_const], [extend]) never throws: it writes the values
    between brackets, separated by a comma and a space, with [None] for an
    empty value. *)
Theorem to_string_list (ns : Namespace) (key : string) (action : Action)
    (values : list string) :
  Namespace.data ns key = Return (action, values) ->
  action ∈ [store; append; append_const; extend] ->
  to_string ns key = Return ("[" +:+ String.concat ", " (shown <$> values) +:+ "]").
Proof.
  intros Hdata Hact. unfold to_string. rewrite Hdata. simpl.
  rewrite listed_concat. rewrite !elem_of_cons, elem_of_nil in Hact.
  by destruct Hact as [->|[->|[->|[->|[]]]]].
Qed.

Lemma to_string_list_witness :
  exists ns,
    parse_known_args negative_decimal no_file (parser_of schema_tags)
      ["--tag"; "a"; "--out"; "f"; "--tag"; "b"] = Return ns
    /\ to_string ns "--tag" = Return "[a, b]"
    /\ to_string ns "tag" = Return "[a, b]".
Proof.
  eexists. split; [vm_compute; reflexivity|]. split.
  - apply (to_string_list _ "--tag" append ["a"; "b"]).
    + vm_compute. reflexivity.
    + vm_compute. do 1 right. left.
  - vm_compute. reflexivity.
Defined.

Section readings.

Variable _is_negative_number : string -> bool.
Variable read_lines : string -> option (list string).
Variable self : ArgumentParser.

Lemma data_lookup (arguments : gmap string ArgumentValue) (prefix_chars key : string)
    (args : ArgumentValue) :
  arguments !! key = Some args ->
  Namespace.data (Namespace.mkNamespace arguments prefix_chars) key = Return args.
Proof. unfold Namespace.data. simpl. by intros ->. Qed.

(** After a parse that returns, [to_string] of a key of an optional argument
    with action [count] is the decimal numeral of the times the argument was
    matched in the tokens, and [get<std::string>] of the key throws a
    [TypeError]. *)
Theorem count_read (parsed_arguments : list string) (st : parse_state)
    (arg : Argument) (key : string) :
  resolve _is_negative_number read_lines self parsed_arguments = Return st ->
  arg ∈ optional self ->
  m_action arg = count ->
  key ∈ _get_argument_flags arg ->
  (ns ← parse_known_args _is_negative_number read_lines self parsed_arguments;
   to_string ns key)
  = Return (pretty (N.of_nat (times_matched arg (trace st))))
  /\ (ns ← parse_known_args _is_negative_number read_lines self parsed_arguments;
      get_string ns key)
     = Throw (TypeError ("invalid get type for argument '" +:+ key +:+ "'")).
Proof.
  intros H Harg Hact Hkey.
  rewrite (parse_known_args_resolve _ _ _ _ _ H). simpl.
  apply resolve_spec in H as (_ & [Hopt _ Hval _ _] & _).
  assert (materialize_defaults self (result st) !! key
          = Some (count, replicate (times_matched arg (trace st)) EmptyString)) as Hlookup.
  { rewrite lookup_materialize_defaults, (Hopt _ _ Harg Hkey), Hact. simpl.
    unfold materialize. simpl. rewrite andb_false_r.
    rewrite values_of_count; [done..|].
    intros value Hin. destruct (Hval _ _ Hin) as [_ Hstoring].
    rewrite Hact in Hstoring. rewrite !elem_of_cons, elem_of_nil in Hstoring.
    by destruct Hstoring as [|[|[|[]]]]. }
  unfold to_string, get_string.
  rewrite (data_lookup _ _ _ _ Hlookup). simpl. by rewrite length_replicate.
Qed.

(** After a parse that returns, [to_string] of a key of an optional argument
    that [action] made [store_true] or [store_false], and whose flags no
    other argument declares, tells whether the argument was matched in the
    tokens: ["true"] and ["false"] for [store_true], the other way round for
    [store_false]. *)
Theorem flag_read (parsed_arguments : list string) (st : parse_state)
    (arg : Argument) (key : string) :
  resolve _is_negative_number read_lines self parsed_arguments = Return st ->
  arg ∈ optional self ->
  configured arg ->
  m_action arg ∈ [store_true; store_false] ->
  flags_unshared self arg ->
  key ∈ _get_argument_flags arg ->
  (ns ← parse_known_args _is_negative_number read_lines self parsed_arguments;
   to_string ns key)
  = Return (if bool_decide (m_action arg = store_true)
            then (if bool_decide (Spec arg ∈ trace st) then "true" else "false")
            else (if bool_decide (Spec arg ∈ trace st) then "false" else "true")).
Proof.
  intros H Harg (_ & _ & _ & _ & Htrue & Hfalse & _) Hact Hun Hkey.
  rewrite (parse_known_args_resolve _ _ _ _ _ H). simpl.
  apply resolve_spec in H as ((r0 & Hr0%created_NoDup) & [Hopt _ Hval _ _] & _).
  assert (materialize_defaults self (result st) !! key
          = Some (m_action arg,
                  [if bool_decide (Spec arg ∈ trace st) then m_const arg else m_default arg]))
    as Hlookup.
  { rewrite lookup_materialize_defaults, (Hopt _ _ Harg Hkey). simpl.
    rewrite values_of_const.
    2:{ rewrite !elem_of_cons in Hact. rewrite !elem_of_cons. tauto. }
    2:{ intros value Hin. destruct (Hval _ _ Hin) as [_ Hstoring].
        rewrite !elem_of_cons, elem_of_nil in Hstoring.
        rewrite !elem_of_cons, elem_of_nil in Hact.
        destruct Hact as [E|[E|[]]]; rewrite E in Hstoring;
          by destruct Hstoring as [|[|[|[]]]]. }
    unfold materialize. simpl.
    destruct (bool_decide (Spec arg ∈ trace st)); simpl.
    - done.
    - rewrite (get_optional_arg_by_dest_own self arg key) by done.
      assert (m_action arg <> count /\ _default_arg_value self arg = m_default arg
              /\ m_default arg <> EmptyString) as (Hcount & -> & Hdefault).
      { unfold _default_arg_value. rewrite !elem_of_cons, elem_of_nil in Hact.
        destruct Hact as [E|[E|[]]].
        - destruct (Htrue E) as [Hd _]. rewrite E, Hd. done.
        - destruct (Hfalse E) as [Hd _]. rewrite E, Hd. done. }
      rewrite (bool_decide_eq_false_2 (m_action arg = count)) by done. simpl.
      by rewrite (bool_decide_eq_false_2 (m_default arg = EmptyString)) by done. }
  unfold to_string. rewrite (data_lookup _ _ _ _ Hlookup). simpl.
  rewrite !elem_of_cons, elem_of_nil in Hact.
  destruct Hact as [E|[E|[]]]; rewrite E; simpl.
  - destruct (Htrue E) as [-> ->]. by destruct (bool_decide (Spec arg ∈ trace st)).
  - destruct (Hfalse E) as [-> ->]. by destruct (bool_decide (Spec arg ∈ trace st)).
Qed.

End readings.

Lemma count_read_witness :
  let parsed := parse_known_args negative_decimal no_file (parser_of schema_tags)
                  ["-v"; "--out"; "f"; "-v"] in
  (ns ← parsed; to_string ns "-v") = Return "2"
  /\ (ns ← parsed; get_string ns "-v")
     = Throw (TypeError "invalid get type for argument '-v'").
Proof.
  pose (self := parser_of schema_tags).
  pose (tokens := ["-v"; "--out"; "f"; "-v"]).
  destruct (count_read negative_decimal no_file self tokens
              (state_of (resolve negative_decimal no_file self tokens))
              (declared schema_tags 2) "-v") as [Hto Hget].
  - vm_compute. reflexivity.
  - vm_compute. do 2 right. left.
  - vm_compute. reflexivity.
  - vm_compute. left.
  - split.
    + etransitivity; [exact Hto|vm_compute; reflexivity].
    + etransitivity; [exact Hget|vm_compute; reflexivity].
Defined.

Lemma flag_read_witness :
  let self := parser_of schema_tags in
  (ns ← parse_known_args negative_decimal no_file self ["--dry"; "--out"; "f"];
   to_string ns "--dry") = Return "true"
  /\ (ns ← parse_known_args negative_decimal no_file self ["--out"; "f"];
      to_string ns "--dry") = Return "false".
Proof.
  intros self.
  assert (declared schema_tags 4 ∈ optional self) as Harg by (vm_compute; do 4 right; left).
  assert (configured (declared schema_tags 4)) as Hconfigured.
  { let v := eval vm_compute in (declared schema_tags 4) in
    change (declared schema_tags 4) with v.
    unfold configured. simpl. split_and!; try done. }
  assert (m_action (declared schema_tags 4) ∈ [store_true; store_false]) as Hact
    by (vm_compute; left).
  assert (flags_unshared self (declared schema_tags 4)) as Hun.
  { intros other Hother Hne k Hk Hflag. vm_compute in Hk.
    apply list_elem_of_singleton in Hk as ->. other_flags Hother Hne Hflag. }
  assert ("--dry" ∈ _get_argument_flags (declared schema_tags 4)) as Hkey
    by (vm_compute; left).
  split.
  - pose (tokens := ["--dry"; "--out"; "f"]).
    assert (resolve negative_decimal no_file self tokens
            = Return (state_of (resolve negative_decimal no_file self tokens))) as Hresolve
      by (vm_compute; reflexivity).
    etransitivity;
      [exact (flag_read negative_decimal no_file self tokens _ _ "--dry"
                Hresolve Harg Hconfigured Hact Hun Hkey)|].
    vm_compute. reflexivity.
  - pose (tokens := ["--out"; "f"]).
    assert (resolve negative_decimal no_file self tokens
            = Return (state_of (resolve negative_decimal no_file self tokens))) as Hresolve
      by (vm_compute; reflexivity).
    etransitivity;
      [exact (flag_read negative_decimal no_file self tokens _ _ "--dry"
                Hresolve Harg Hconfigured Hact Hun Hkey)|].
    vm_compute. reflexivity.
Defined.
